(** * Active task slot manager (model/active_task_slot.go)

    A shallow embedding of the SimHash fingerprint, of the bounded slot
    store with its per-user index and its global LRU order, and of the
    windowed reports computed over it, followed by the properties of the
    store that the specification states.

    Conventions.
    - A Go [string] is a sequence of bytes: it is a Rocq [string], whose
      characters are the 8-bit [ascii] values.
    - [uint64], [int64] and [int] (64 bits) are [Z]; where an operation can
      leave the range its wrap-around is written out ([wrap64]).
    - A slice index is a [nat]: every index the program stores is a value
      of [len(m.slots)].
    - An index expression out of range panics: a function that can panic
      returns [option], [None] being the panic.
    - [time.Now().Unix()] is an argument [now] of the operation. *)

From Stdlib Require Import ZArith Lia Ascii String.
From stdpp Require Import gmap strings list fin_maps sorting.

Open Scope Z_scope.

(** ** Go's standard library, as far as the program uses it *)

(** [crypto/sha1]: the SHA-1 digest of a byte sequence (FIPS 180-4),
    bytes and 32-bit words being [Z]. *)
Module Sha1.

Definition u32 (x : Z) : Z := x mod 2 ^ 32.

Definition rotl (n x : Z) : Z :=
  u32 (Z.lor (Z.shiftl x n) (Z.shiftr x (32 - n))).

Definition be32 (x : Z) : list Z :=
  [Z.shiftr x 24 mod 256; Z.shiftr x 16 mod 256; Z.shiftr x 8 mod 256; x mod 256].

Definition be64 (x : Z) : list Z :=
  be32 (Z.shiftr x 32 mod 2 ^ 32) ++ be32 (x mod 2 ^ 32).

(** The message, one byte 0x80, zeros up to 56 modulo 64, and the length
    of the message in bits on 8 bytes. *)
Definition pad (msg : list Z) : list Z :=
  let len := Z.of_nat (length msg) in
  msg ++ [128] ++ repeat 0 (Z.to_nat ((55 - len) mod 64)) ++ be64 (8 * len).

Fixpoint chunks (n : nat) (l : list Z) : list (list Z) :=
  match n with
  | O => []
  | S n' => take 64 l :: chunks n' (drop 64 l)
  end.

Fixpoint words (n : nat) (l : list Z) : list Z :=
  match n, l with
  | S n', a :: b :: c :: d :: l' =>
      (Z.shiftl a 24 + Z.shiftl b 16 + Z.shiftl c 8 + d) :: words n' l'
  | _, _ => []
  end.

(** The message schedule, most recent word first: [w(i)] is the rotation
    of [w(i-3) xor w(i-8) xor w(i-14) xor w(i-16)]. *)
Fixpoint schedule (n : nat) (rw : list Z) : list Z :=
  match n with
  | O => rw
  | S n' =>
      let w := Z.lxor (Z.lxor (nth 2 rw 0) (nth 7 rw 0))
                      (Z.lxor (nth 13 rw 0) (nth 15 rw 0)) in
      schedule n' (rotl 1 w :: rw)
  end.

Definition round (i : nat) (st : Z * Z * Z * Z * Z) (w : Z) : Z * Z * Z * Z * Z :=
  let '(a, b, c, d, e) := st in
  let '(f, k) :=
    if (i <? 20)%nat then
      (Z.lor (Z.land b c) (Z.land (Z.lxor b 4294967295) d), 1518500249)
    else if (i <? 40)%nat then
      (Z.lxor (Z.lxor b c) d, 1859775393)
    else if (i <? 60)%nat then
      (Z.lor (Z.land (Z.lor b c) d) (Z.land b c), 2400959708)
    else
      (Z.lxor (Z.lxor b c) d, 3395469782) in
  (u32 (rotl 5 a + f + e + w + k), a, rotl 30 b, c, d).

Fixpoint rounds (i : nat) (ws : list Z) (st : Z * Z * Z * Z * Z) : Z * Z * Z * Z * Z :=
  match ws with
  | [] => st
  | w :: ws' => rounds (S i) ws' (round i st w)
  end.

Definition block (h : Z * Z * Z * Z * Z) (blk : list Z) : Z * Z * Z * Z * Z :=
  let '(h0, h1, h2, h3, h4) := h in
  let ws := rev (schedule 64 (rev (words 16 blk))) in
  let '(a, b, c, d, e) := rounds 0 ws h in
  (u32 (h0 + a), u32 (h1 + b), u32 (h2 + c), u32 (h3 + d), u32 (h4 + e)).

Definition init : Z * Z * Z * Z * Z :=
  (1732584193, 4023233417, 2562383102, 271733878, 3285377520).

(** The 20 bytes of the digest. *)
Definition sum (msg : list Z) : list Z :=
  let p := pad msg in
  let '(h0, h1, h2, h3, h4) :=
    fold_left block (chunks (length p / 64) p) init in
  be32 h0 ++ be32 h1 ++ be32 h2 ++ be32 h3 ++ be32 h4.

End Sha1.

(** The bytes of a Go string. *)
Definition bytes (s : string) : list Z :=
  (fun a => Z.of_N (N_of_ascii a)) <$> list_ascii_of_string s.

(** [unicode/utf8]: the rune that starts a byte sequence and its width
    ([utf8.DecodeRuneInString], which is also how [range] walks a
    string). A byte that starts no well-formed encoding is the rune
    0xFFFD of width 1. *)
Definition RuneError : Z := 65533.

Definition cont (b : Z) : bool := (128 <=? b) && (b <=? 191).

Definition decodeRune (s : list Z) : Z * nat :=
  match s with
  | [] => (RuneError, 0%nat)
  | s0 :: t =>
      if s0 <? 128 then (s0, 1%nat)
      else if (s0 <? 194) || (244 <? s0) then (RuneError, 1%nat)
      else
        let sz := if s0 <? 224 then 2 else if s0 <? 240 then 3 else 4 in
        let '(lo, hi) :=
          if s0 =? 224 then (160, 191)
          else if s0 =? 237 then (128, 159)
          else if s0 =? 240 then (144, 191)
          else if s0 =? 244 then (128, 143)
          else (128, 191) in
        if Z.of_nat (length s) <? sz then (RuneError, 1%nat)
        else
          match t with
          | s1 :: t1 =>
              if (s1 <? lo) || (hi <? s1) then (RuneError, 1%nat)
              else if sz <=? 2 then
                (Z.lor (Z.shiftl (Z.land s0 31) 6) (Z.land s1 63), 2%nat)
              else
                match t1 with
                | s2 :: t2 =>
                    if negb (cont s2) then (RuneError, 1%nat)
                    else if sz <=? 3 then
                      (Z.lor (Z.lor (Z.shiftl (Z.land s0 15) 12)
                                    (Z.shiftl (Z.land s1 63) 6))
                             (Z.land s2 63), 3%nat)
                    else
                      match t2 with
                      | s3 :: _ =>
                          if negb (cont s3) then (RuneError, 1%nat)
                          else
                            (Z.lor (Z.lor (Z.lor (Z.shiftl (Z.land s0 7) 18)
                                                 (Z.shiftl (Z.land s1 63) 12))
                                          (Z.shiftl (Z.land s2 63) 6))
                                   (Z.land s3 63), 4%nat)
                      | [] => (RuneError, 1%nat)
                      end
                | [] => (RuneError, 1%nat)
                end
          | [] => (RuneError, 1%nat)
          end
  end.

(** [unicode.IsSpace]: the white space of Latin-1, and beyond it the
    code points with Unicode's White_Space property. *)
Definition IsSpace (r : Z) : bool :=
  if r <=? 255 then
    ((9 <=? r) && (r <=? 13)) || (r =? 32) || (r =? 133) || (r =? 160)
  else
    (r =? 5760) || ((8192 <=? r) && (r <=? 8202)) || (r =? 8232) ||
    (r =? 8233) || (r =? 8239) || (r =? 8287) || (r =? 12288).

(** [strings.Fields]: the maximal runs of runes that are not white space.
    [cur] is the field being read ([None] between fields); [pending] is
    what is left of the rune being read: the number of its bytes still to
    come and whether it is white space. *)
Fixpoint fieldsFrom (s : list ascii) (cur : option (list ascii))
    (pending : nat * bool) : list string :=
  match s with
  | [] =>
      match cur with
      | Some f => [string_of_list_ascii f]
      | None => []
      end
  | c :: s' =>
      let '(rest, space) :=
        match pending with
        | (S k, sp) => (k, sp)
        | (O, _) =>
            let '(r, w) :=
              decodeRune ((fun a => Z.of_N (N_of_ascii a)) <$> s) in
            (Nat.pred w, IsSpace r)
        end in
      if space then
        match cur with
        | Some f => string_of_list_ascii f :: fieldsFrom s' None (rest, space)
        | None => fieldsFrom s' None (rest, space)
        end
      else
        fieldsFrom s' (Some (default [] cur ++ [c])) (rest, space)
  end.

Definition Fields (s : string) : list string :=
  fieldsFrom (list_ascii_of_string s) None (O, false).

(** [math/bits.OnesCount64]: the number of bits set among the 64 low
    bits. *)
Definition OnesCount64 (x : Z) : Z :=
  Z.of_nat (length (filter (fun i : nat => Z.testbit x (Z.of_nat i) = true) (seq 0 64))).

(** An [int64] result, wrapped around as the machine does. *)
Definition wrap64 (z : Z) : Z := (z + 2 ^ 63) mod 2 ^ 64 - 2 ^ 63.

(** [len] of a slice, as a Go [int]. *)
Definition len {A} (l : list A) : Z := Z.of_nat (length l).

(** ** Constants *)

Definition MaxGlobalSlots : Z := 1000.
Definition MaxUserSlots : Z := 50.
Definition ActiveWindowSeconds : Z := 30.
Definition SimHashThreshold : Z := 5.

(** ** The fingerprint *)

Section Fingerprint.

(** The 16 bytes drawn by [init] when the process starts. *)
Variable simhashTokenSalt : string.

(** The first 8 bytes of SHA-1(salt, token), little-endian. *)
Definition tokenHash64 (token : string) : Z :=
  let sum := Sha1.sum (bytes simhashTokenSalt ++ bytes token) in
  Z.lor (Z.lor (Z.lor (Z.lor (Z.lor (Z.lor (Z.lor
    (nth 0 sum 0)
    (Z.shiftl (nth 1 sum 0) 8))
    (Z.shiftl (nth 2 sum 0) 16))
    (Z.shiftl (nth 3 sum 0) 24))
    (Z.shiftl (nth 4 sum 0) 32))
    (Z.shiftl (nth 5 sum 0) 40))
    (Z.shiftl (nth 6 sum 0) 48))
    (Z.shiftl (nth 7 sum 0) 56).

(** The inner loop of [simhash64]: one token's hash [h] moves each of
    the 64 counters by one. A counter never leaves the range of [int]:
    its absolute value is at most the number of tokens, which is at most
    [len(data)], an [int]. *)
Definition vote (h : Z) (v : list Z) : list Z :=
  imap (fun i x => if Z.land (Z.shiftr h (Z.of_nat i)) 1 =? 1 then x + 1 else x - 1) v.

(** The last loop of [simhash64]: bit [i] is set when [v[i] >= 0]. *)
Definition collect (v : list Z) : Z :=
  fold_left
    (fun out i => if 0 <=? nth i v 0 then Z.lor out (Z.shiftl 1 (Z.of_nat i)) else out)
    (seq 0 64) 0.

Definition simhash64 (data : string) : Z :=
  let tokens := Fields data in
  if len tokens =? 0 then 0
  else
    collect (fold_left (fun v tok => vote (tokenHash64 tok) v) tokens (replicate 64 0)).

End Fingerprint.

Definition hamming64 (a b : Z) : Z := OnesCount64 (Z.lxor a b).

(** ** The store *)

Record TaskSlot := mkTaskSlot {
  UserID : Z;
  Username : string;
  UpdatedAt : Z;
  SimHash : Z
}.

(** [slots]: every cell, each behind a pointer of its own (a cell is
    written through [slots] only, so a write is an update at its index);
    [userSlotIdx]: user to the indices of that user's cells;
    [lruOrder]: every index, the most recently used last. *)
Record ActiveTaskSlotManager := mkManager {
  slots : list TaskSlot;
  userSlotIdx : gmap Z (list nat);
  lruOrder : list nat
}.

(** The manager that [GetActiveTaskSlotManager] builds. *)
Definition newManager : ActiveTaskSlotManager := mkManager [] ∅ [].

(** [m.userSlotIdx[userID]]: a missing key reads as the nil slice. *)
Definition userSlotsOf (m : ActiveTaskSlotManager) (userID : Z) : list nat :=
  default [] (userSlotIdx m !! userID).

(** [for i, v := range s { if v == idx { s = append(s[:i], s[i+1:]...); break } }] *)
Fixpoint removeFirst (idx : nat) (s : list nat) : list nat :=
  match s with
  | [] => []
  | v :: s' => if decide (v = idx) then s' else v :: removeFirst idx s'
  end.

Definition moveToLRUEnd (m : ActiveTaskSlotManager) (idx : nat) : ActiveTaskSlotManager :=
  mkManager (slots m) (userSlotIdx m) (removeFirst idx (lruOrder m) ++ [idx]).

Definition removeFromUserSlotIdx (m : ActiveTaskSlotManager) (userID : Z) (idx : nat)
    : ActiveTaskSlotManager :=
  let s := userSlotsOf m userID in
  let idxs :=
    if bool_decide (idx ∈ s) then <[userID := removeFirst idx s]> (userSlotIdx m)
    else userSlotIdx m in
  let idxs' :=
    if len (default [] (idxs !! userID)) =? 0 then delete userID idxs else idxs in
  mkManager (slots m) idxs' (lruOrder m).

(** [m.userSlotIdx[userID] = append(m.userSlotIdx[userID], idx)] *)
Definition appendUserSlot (m : ActiveTaskSlotManager) (userID : Z) (idx : nat)
    : ActiveTaskSlotManager :=
  mkManager (slots m) (<[userID := userSlotsOf m userID ++ [idx]]> (userSlotIdx m))
            (lruOrder m).

(** The loop of [findOldestUserSlot] over [userSlots[1:]]. *)
Fixpoint oldestLoop (ss : list TaskSlot) (l : list nat) (oldestIdx : nat) (oldestTime : Z)
    : option nat :=
  match l with
  | [] => Some oldestIdx
  | idx :: l' =>
      slot ← ss !! idx;
      if UpdatedAt slot <? oldestTime then oldestLoop ss l' idx (UpdatedAt slot)
      else oldestLoop ss l' oldestIdx oldestTime
  end.

(** The index of the user's cell with the least timestamp (the first of
    them in the user's list), or -1 when the user has none. *)
Definition findOldestUserSlot (m : ActiveTaskSlotManager) (userID : Z) : option Z :=
  match userSlotsOf m userID with
  | [] => Some (-1)
  | first :: rest =>
      slot ← slots m !! first;
      Z.of_nat <$> oldestLoop (slots m) rest first (UpdatedAt slot)
  end.

Definition reuseSlot (m : ActiveTaskSlotManager) (idx : nat) (newUserID : Z)
    (username : string) (now : Z) (newHash : Z) : option ActiveTaskSlotManager :=
  oldSlot ← slots m !! idx;
  let oldUserID := UserID oldSlot in
  let m1 :=
    if decide (oldUserID ≠ newUserID)
    then appendUserSlot (removeFromUserSlotIdx m oldUserID idx) newUserID idx
    else m in
  let m2 :=
    mkManager (<[idx := mkTaskSlot newUserID username now newHash]> (slots m1))
              (userSlotIdx m1) (lruOrder m1) in
  Some (moveToLRUEnd m2 idx).

(** The first loop of [RecordTask]: the first of the user's indices whose
    cell is within the threshold of [newHash], if there is one. *)
Fixpoint findInheritable (ss : list TaskSlot) (newHash : Z) (l : list nat)
    : option (option nat) :=
  match l with
  | [] => Some None
  | idx :: l' =>
      slot ← ss !! idx;
      if hamming64 (SimHash slot) newHash <=? SimHashThreshold then Some (Some idx)
      else findInheritable ss newHash l'
  end.

(** What the match does to the cell: the owner stays. *)
Definition touch (username : string) (now newHash : Z) (slot : TaskSlot) : TaskSlot :=
  mkTaskSlot (UserID slot) username now newHash.

(** Step 3 of [RecordTask]: a new cell at the end of [slots]. *)
Definition allocate (m : ActiveTaskSlotManager) (userID : Z) (username : string)
    (now newHash : Z) : ActiveTaskSlotManager :=
  let newIdx := length (slots m) in
  mkManager (slots m ++ [mkTaskSlot userID username now newHash])
            (<[userID := userSlotsOf m userID ++ [newIdx]]> (userSlotIdx m))
            (lruOrder m ++ [newIdx]).

(** [RecordTask] from its check of the global bound on. *)
Definition globalOrAllocate (m : ActiveTaskSlotManager) (userID : Z) (username : string)
    (now newHash : Z) : option ActiveTaskSlotManager :=
  if MaxGlobalSlots <=? len (slots m) then
    match lruOrder m with
    | oldestIdx :: _ => reuseSlot m oldestIdx userID username now newHash
    | [] => Some (allocate m userID username now newHash)
    end
  else Some (allocate m userID username now newHash).

(** [RecordTask], given the fingerprint of the data. *)
Definition recordHash (m : ActiveTaskSlotManager) (now : Z) (userID : Z)
    (username : string) (newHash : Z) : option ActiveTaskSlotManager :=
  let userSlots := userSlotsOf m userID in
  found ← findInheritable (slots m) newHash userSlots;
  match found with
  | Some idx =>
      Some (moveToLRUEnd
              (mkManager (alter (touch username now newHash) idx (slots m))
                         (userSlotIdx m) (lruOrder m)) idx)
  | None =>
      if MaxUserSlots <=? len userSlots then
        oldestIdx ← findOldestUserSlot m userID;
        if 0 <=? oldestIdx
        then reuseSlot m (Z.to_nat oldestIdx) userID username now newHash
        else globalOrAllocate m userID username now newHash
      else globalOrAllocate m userID username now newHash
  end.

Definition RecordTask (salt : string) (m : ActiveTaskSlotManager) (now : Z)
    (userID : Z) (username : string) (data : string) : option ActiveTaskSlotManager :=
  recordHash m now userID username (simhash64 salt data).

(** ** The reports *)

Record UserActiveTaskCount := mkCount {
  CountUserID : Z;
  CountUsername : string;
  ActiveSlots : Z
}.

(** The body of the counting loop of [GetActiveTaskRank]. The counter
    stays within [len(m.slots)]. *)
Definition tally (cutoff : Z) (userCounts : gmap Z UserActiveTaskCount) (slot : TaskSlot)
    : gmap Z UserActiveTaskCount :=
  if cutoff <=? UpdatedAt slot then
    let c :=
      match userCounts !! UserID slot with
      | Some c => c
      | None => mkCount (UserID slot) (Username slot) 0
      end in
    <[UserID slot := mkCount (CountUserID c) (CountUsername c) (ActiveSlots c + 1)]> userCounts
  else userCounts.

(** The window that [GetActiveTaskRank] uses. *)
Definition effectiveWindow (windowSeconds : Z) : Z :=
  if windowSeconds <=? 0 then ActiveWindowSeconds else windowSeconds.

Definition userCounts (m : ActiveTaskSlotManager) (now windowSeconds : Z)
    : gmap Z UserActiveTaskCount :=
  let cutoff := wrap64 (now - effectiveWindow windowSeconds) in
  fold_left (tally cutoff) (slots m) ∅.

(** [if result[j].ActiveSlots > result[i].ActiveSlots { swap }] *)
Definition swapIfGreater (i : nat) (result : list UserActiveTaskCount) (j : nat)
    : list UserActiveTaskCount :=
  match result !! i, result !! j with
  | Some ri, Some rj =>
      if ActiveSlots ri <? ActiveSlots rj then <[i := rj]> (<[j := ri]> result)
      else result
  | _, _ => result
  end.

(** [for j := i + 1; j < len(result); j++] *)
Definition sortInner (result : list UserActiveTaskCount) (i : nat)
    : list UserActiveTaskCount :=
  fold_left (swapIfGreater i) (seq (S i) (length result - S i)) result.

(** [for i := 0; i < len(result)-1; i++] *)
Definition sortByActiveSlots (result : list UserActiveTaskCount)
    : list UserActiveTaskCount :=
  fold_left sortInner (seq 0 (length result - 1)) result.

(** [GetActiveTaskRank]: Go ranges over the map [userCounts] in an order
    it does not fix, so the call has one result for each enumeration
    [entries] of the values of the map. *)
Inductive GetActiveTaskRank (m : ActiveTaskSlotManager) (now windowSeconds : Z)
    : list UserActiveTaskCount → Prop :=
  | rank_of_enumeration entries :
      entries ≡ₚ (map_to_list (userCounts m now windowSeconds)).*2 →
      GetActiveTaskRank m now windowSeconds (sortByActiveSlots entries).

(** The result for the enumeration by increasing key. *)
Definition rankInKeyOrder (m : ActiveTaskSlotManager) (now windowSeconds : Z)
    : list UserActiveTaskCount :=
  sortByActiveSlots (map_to_list (userCounts m now windowSeconds)).*2.

Definition atLeast (threshold : Z) (rank : list UserActiveTaskCount)
    : list UserActiveTaskCount :=
  filter (fun u => threshold ≤ ActiveSlots u) rank.

Inductive GetHighActiveUsers (m : ActiveTaskSlotManager) (now windowSeconds threshold : Z)
    : list UserActiveTaskCount → Prop :=
  | high_of_rank rank :
      GetActiveTaskRank m now windowSeconds rank →
      GetHighActiveUsers m now windowSeconds threshold (atLeast threshold rank).

(** The map that [GetStats] returns, a field for each key. *)
Record Stats := mkStats {
  total_slots : Z;
  active_slots : Z;
  max_global_slots : Z;
  max_user_slots : Z;
  active_users : Z;
  window_seconds : Z
}.

Definition GetStats (m : ActiveTaskSlotManager) (now : Z) : Stats :=
  let activeCount :=
    fold_left
      (fun c slot => if wrap64 (now - ActiveWindowSeconds) <=? UpdatedAt slot then c + 1 else c)
      (slots m) 0 in
  mkStats (len (slots m)) activeCount MaxGlobalSlots MaxUserSlots
          (Z.of_nat (size (userSlotIdx m))) ActiveWindowSeconds.

(** ** Executions *)

Record Call := mkCall {
  callNow : Z;
  callUser : Z;
  callName : string;
  callData : string
}.

(** A sequence of [RecordTask] calls, stopping at a panic. *)
Fixpoint run (salt : string) (cs : list Call) (m : ActiveTaskSlotManager)
    : option ActiveTaskSlotManager :=
  match cs with
  | [] => Some m
  | c :: cs' =>
      m' ← RecordTask salt m (callNow c) (callUser c) (callName c) (callData c);
      run salt cs' m'
  end.

(** The stores that calls of [RecordTask] build from the empty one. *)
Inductive reachable (salt : string) : ActiveTaskSlotManager → Prop :=
  | reachable_new : reachable salt newManager
  | reachable_record m now userID username data m' :
      reachable salt m →
      RecordTask salt m now userID username data = Some m' →
      reachable salt m'.

(** The same with a clock that never steps back: no reading is below a
    timestamp already in the store. *)
Definition clockAhead (m : ActiveTaskSlotManager) (now : Z) : Prop :=
  ∀ slot, slot ∈ slots m → UpdatedAt slot ≤ now.

Inductive reachableMonotone (salt : string) : ActiveTaskSlotManager → Prop :=
  | monotone_new : reachableMonotone salt newManager
  | monotone_record m now userID username data m' :
      reachableMonotone salt m →
      clockAhead m now →
      RecordTask salt m now userID username data = Some m' →
      reachableMonotone salt m'.

(** The readings of the clock in a sequence of calls never step back,
    [t] being the reading before the first call. *)
Fixpoint clockInOrder (t : Z) (cs : list Call) : bool :=
  match cs with
  | [] => true
  | c :: cs' => (t <=? callNow c) && clockInOrder (callNow c) cs'
  end.

(** The reading of the last call. *)
Definition lastReading (t : Z) (cs : list Call) : Z :=
  default t (callNow <$> last cs).

(** ** Properties of a store *)

(** The store with the cell at [idx] overwritten and [idx] moved to the
    most recently used end. *)
Definition overwritten (m : ActiveTaskSlotManager) (idx : nat) (slot : TaskSlot)
    : ActiveTaskSlotManager :=
  mkManager (<[idx := slot]> (slots m)) (userSlotIdx m)
            (removeFirst idx (lruOrder m) ++ [idx]).

(** The store with [idx] taken out of the list of [oldUserID] and put at
    the end of the list of [userID]. *)
Definition transferred (m : ActiveTaskSlotManager) (oldUserID userID : Z) (idx : nat)
    : ActiveTaskSlotManager :=
  appendUserSlot (removeFromUserSlotIdx m oldUserID idx) userID idx.

(** The number of cells whose owner is [userID]. *)
Definition ownedBy (m : ActiveTaskSlotManager) (userID : Z) : nat :=
  length (filter (fun slot => UserID slot = userID) (slots m)).

(** The timestamp of the cell at an index. *)
Definition stamp (m : ActiveTaskSlotManager) (idx : nat) : option Z :=
  UpdatedAt <$> slots m !! idx.

(** The index structures agree with the cells. *)
Record indexConsistent (m : ActiveTaskSlotManager) : Prop := {
  (** an index is in a user's list exactly when it is the index of a
      cell whose owner is that user: no orphan and no stray entry *)
  listed_iff_owned : ∀ userID idx,
    idx ∈ userSlotsOf m userID ↔
    ∃ slot, slots m !! idx = Some slot ∧ UserID slot = userID;
  (** no list holds an index twice *)
  listed_once : ∀ userID, NoDup (userSlotsOf m userID);
  (** no user is kept with an empty list *)
  listed_nonempty : ∀ userID, userSlotIdx m !! userID ≠ Some [];
  (** the LRU order holds every index of a cell, once *)
  lru_once : NoDup (lruOrder m);
  lru_iff_allocated : ∀ idx, idx ∈ lruOrder m ↔ (idx < length (slots m))%nat
}.

(** The cell at [i] was not touched after the cell at [j]. *)
Definition notAfter (m : ActiveTaskSlotManager) (i j : nat) : Prop :=
  ∀ ti tj, stamp m i = Some ti → stamp m j = Some tj → ti ≤ tj.

(** Along the LRU order the timestamps do not decrease: no cell was
    touched after a cell that comes later in the order. *)
Definition lruByStamp (m : ActiveTaskSlotManager) : Prop :=
  StronglySorted (notAfter m) (lruOrder m).

(** A fingerprint within the threshold of the fingerprint of a cell. *)
Definition near (newHash : Z) (slot : TaskSlot) : Prop :=
  hamming64 (SimHash slot) newHash ≤ SimHashThreshold.

(** The store stays within its two bounds. *)
Definition withinCapacity (m : ActiveTaskSlotManager) : Prop :=
  len (slots m) ≤ MaxGlobalSlots ∧ ∀ userID, len (userSlotsOf m userID) ≤ MaxUserSlots.

(** What a call of [RecordTask] with fingerprint [newHash] makes of a
    store, by the branch it takes. *)
Inductive recorded (m : ActiveTaskSlotManager) (now userID : Z) (username : string)
    (newHash : Z) : ActiveTaskSlotManager → Prop :=
  | recorded_match idx old :
      findInheritable (slots m) newHash (userSlotsOf m userID) = Some (Some idx) →
      slots m !! idx = Some old → UserID old = userID →
      recorded m now userID username newHash
        (overwritten m idx (mkTaskSlot userID username now newHash))
  | recorded_user_full idx old :
      findInheritable (slots m) newHash (userSlotsOf m userID) = Some None →
      MaxUserSlots ≤ len (userSlotsOf m userID) →
      findOldestUserSlot m userID = Some (Z.of_nat idx) →
      slots m !! idx = Some old → UserID old = userID →
      recorded m now userID username newHash
        (overwritten m idx (mkTaskSlot userID username now newHash))
  | recorded_global_full_own idx rest old :
      findInheritable (slots m) newHash (userSlotsOf m userID) = Some None →
      len (userSlotsOf m userID) < MaxUserSlots →
      MaxGlobalSlots ≤ len (slots m) →
      lruOrder m = idx :: rest →
      slots m !! idx = Some old → UserID old = userID →
      recorded m now userID username newHash
        (overwritten m idx (mkTaskSlot userID username now newHash))
  | recorded_global_full_other idx rest old :
      findInheritable (slots m) newHash (userSlotsOf m userID) = Some None →
      len (userSlotsOf m userID) < MaxUserSlots →
      MaxGlobalSlots ≤ len (slots m) →
      lruOrder m = idx :: rest →
      slots m !! idx = Some old → UserID old ≠ userID →
      recorded m now userID username newHash
        (overwritten (transferred m (UserID old) userID idx) idx
                     (mkTaskSlot userID username now newHash))
  | recorded_allocate :
      findInheritable (slots m) newHash (userSlotsOf m userID) = Some None →
      len (userSlotsOf m userID) < MaxUserSlots →
      len (slots m) < MaxGlobalSlots →
      recorded m now userID username newHash
        (allocate m userID username now newHash).

(** ** The runes of a text *)

(** The bytes [chunk], followed by [rest], are read as the rune [r]. *)
Definition reads (chunk rest : string) (r : Z) : Prop :=
  chunk ≠ EmptyString ∧ decodeRune (bytes (chunk ++ rest)) = (r, String.length chunk).

(** [gap], followed by [rest], is read as one rune of white space. *)
Definition whiteRune (gap rest : string) : Prop :=
  ∃ r, reads gap rest r ∧ IsSpace r = true.

(** [token], followed by [rest], is read as one or more runes, none of
    them white space. *)
Inductive solidRunes : string → string → Prop :=
  | solid_last chunk rest r :
      reads chunk rest r → IsSpace r = false → solidRunes chunk rest
  | solid_more chunk token rest r :
      reads chunk (token ++ rest) r → IsSpace r = false → solidRunes token rest →
      solidRunes (chunk ++ token) rest.

(** What [strings.Fields] appends when a field ends. *)
Definition emitted (cur : option (list ascii)) : list string :=
  match cur with
  | Some f => [string_of_list_ascii f]
  | None => []
  end.

(** The spec's words for the vote of bit [i]: +1 for each token whose
    hash has the bit, -1 for each other token. *)
Definition signedVote (salt : string) (i : Z) (tokens : list string) : Z :=
  foldr (fun tok acc => (if Z.testbit (tokenHash64 salt tok) i then 1 else -1) + acc)
        0 tokens.

(** The loops of [sortByActiveSlots] on the structure of the list: one
    run of the inner loop leaves at [result[i]] the first of the entries
    with the greatest count, [x] being [result[i]] and [rest] what
    follows it. *)
Fixpoint bubble (x : UserActiveTaskCount) (rest : list UserActiveTaskCount)
    : UserActiveTaskCount * list UserActiveTaskCount :=
  match rest with
  | [] => (x, [])
  | y :: rest' =>
      if ActiveSlots x <? ActiveSlots y
      then let '(top, r) := bubble y rest' in (top, x :: r)
      else let '(top, r) := bubble x rest' in (top, y :: r)
  end.

Fixpoint selectAll (n : nat) (l : list UserActiveTaskCount) : list UserActiveTaskCount :=
  match n, l with
  | S n', x :: rest => let '(top, r) := bubble x rest in top :: selectAll n' r
  | _, _ => l
  end.

(** An entry of the ranking does not come before one with more slots. *)
Definition ranksBefore (a b : UserActiveTaskCount) : Prop :=
  ActiveSlots b ≤ ActiveSlots a.

(** The spec's words for the count of a user: the user's cells with a
    timestamp of at least [cutoff]. *)
Definition activeOf (m : ActiveTaskSlotManager) (cutoff : Z) (userID : Z)
    : list TaskSlot :=
  filter (fun slot => UserID slot = userID ∧ cutoff ≤ UpdatedAt slot) (slots m).

(** The spec's words for the active users: the owners of the cells with
    a timestamp of at least [cutoff]. *)
Definition activeUsersSince (m : ActiveTaskSlotManager) (cutoff : Z) : gset Z :=
  list_to_set (UserID <$> filter (fun slot => cutoff ≤ UpdatedAt slot) (slots m)).

(** The owners of the cells of the store. *)
Definition owners (m : ActiveTaskSlotManager) : gset Z :=
  list_to_set (UserID <$> slots m).

(** ** Example executions *)

(** A salt of sixteen zero bytes. *)
Definition zeroSalt : string := string_of_list_ascii (replicate 16 zero).

(** Two users: the first sends two unrelated texts, the second one. *)
Definition smallCalls : list Call :=
  [mkCall 10 1 "ann" "alpha beta"; mkCall 12 1 "ann" "gamma delta epsilon";
   mkCall 15 2 "bob" "alpha beta"].

Definition smallStore : ActiveTaskSlotManager :=
  default newManager (run zeroSalt smallCalls newManager).

(** U+3000, the ideographic space, as its three bytes. *)
Definition wideSpace : string :=
  String (ascii_of_nat 227) (String (ascii_of_nat 128) (String (ascii_of_nat 128) EmptyString)).

(** A text of one token, of one printable character. *)
Definition oneToken (i : nat) : string := String (ascii_of_nat (33 + i)) EmptyString.

(** One user sends fifty texts that share no token. *)
Definition fiftyCalls : list Call :=
  (fun i => mkCall (100 + Z.of_nat i) 1 "ann" (oneToken i)) <$> seq 0 50.

Definition fiftyStore : ActiveTaskSlotManager :=
  default newManager (run zeroSalt fiftyCalls newManager).

(** A thousand users send one text each. *)
Definition thousandCalls : list Call :=
  (fun i => mkCall 0 (Z.of_nat i) "" "") <$> seq 1 1000.

Definition fullStore : ActiveTaskSlotManager :=
  default newManager (run zeroSalt thousandCalls newManager).

(** * Further code of the program *)

(** The number of active cells that a ranking accounts for. *)
Definition totalActive (rank : list UserActiveTaskCount) : Z :=
  foldr (fun c acc => ActiveSlots c + acc) 0 rank.

(** ** The request adapter and the scanner *)

(** [strings.Contains]: [substr] occurs in [s]. *)
Fixpoint Contains (s substr : string) : bool :=
  String.prefix substr s ||
  match s with
  | EmptyString => false
  | String _ s' => Contains s' substr
  end.

(** What [gc.Get("key_request_body")] finds: nothing, a byte slice, or a
    value of another type. *)
Inductive ContextValue :=
  | NoValue
  | BytesValue (b : string)
  | OtherValue.

(** What [RecordActiveTaskSlot] reads of a [*gin.Context]: the path of
    the URL of its request and the value under ["key_request_body"]. *)
Record GinContext := mkGinContext {
  requestPath : string;
  keyRequestBody : ContextValue
}.

Definition isChatRequest (requestPath : string) : bool :=
  Contains requestPath "/chat/completions" ||
  Contains requestPath "/v1/completions" ||
  Contains requestPath "/v1/responses" ||
  Contains requestPath "/v1/messages" ||
  (Contains requestPath "/v1beta/models/" && Contains requestPath "generateContent").

(** [RecordActiveTaskSlot]; [c] is [None] when the argument is not a
    [*gin.Context]. A return before the call of [RecordTask] leaves the
    store as it is. *)
Definition RecordActiveTaskSlot (salt : string) (m : ActiveTaskSlotManager) (now : Z)
    (c : option GinContext) (userID : Z) (username modelName : string)
    : option ActiveTaskSlotManager :=
  if userID <=? 0 then Some m
  else
    match c with
    | None => Some m
    | Some gc =>
        if negb (isChatRequest (requestPath gc)) then Some m
        else
          let data :=
            match keyRequestBody gc with
            | BytesValue bodyBytes =>
                if 0 <? Z.of_nat (String.length bodyBytes) then bodyBytes else EmptyString
            | _ => EmptyString
            end in
          let data := if decide (data = EmptyString) then modelName else data in
          RecordTask salt m now userID username data
    end.

(** The stores that requests build from the empty one. *)
Inductive reachableByRequests (salt : string) : ActiveTaskSlotManager → Prop :=
  | requests_new : reachableByRequests salt newManager
  | requests_record m now c userID username modelName m' :
      reachableByRequests salt m →
      RecordActiveTaskSlot salt m now c userID username modelName = Some m' →
      reachableByRequests salt m'.

Definition HighActiveTaskScanInterval : Z := 600.
Definition HighActiveTaskThreshold : Z := 5.
Definition HighActiveTaskWindowSeconds : Z := 600.

(** A row of [high_active_task_records]; [Id] is left to the database. *)
Record HighActiveTaskRecord := mkRecord {
  Id : Z;
  UserId : Z;
  RecordUsername : string;
  RecordActiveSlots : Z;
  WindowSecs : Z;
  CreatedAt : Z
}.

(** The loop of [scanAndSaveHighActiveUsers]: the records handed to
    [DB.Create], in their order. [IsAdmin] is not in this file: it is
    the parameter [isAdmin]. *)
Fixpoint saveLoop (isAdmin : Z → bool) (now : Z) (highActiveUsers : list UserActiveTaskCount)
    : list HighActiveTaskRecord :=
  match highActiveUsers with
  | [] => []
  | u :: rest =>
      if isAdmin (CountUserID u) then saveLoop isAdmin now rest
      else
        mkRecord 0 (CountUserID u) (CountUsername u) (ActiveSlots u)
                 HighActiveTaskWindowSeconds now
        :: saveLoop isAdmin now rest
  end.

(** [scanAndSaveHighActiveUsers]: [rankNow] is the reading of the clock
    in [GetActiveTaskRank], [now] the later reading of the scan. *)
Inductive scanAndSaveHighActiveUsers (isAdmin : Z → bool) (m : ActiveTaskSlotManager)
    (rankNow now : Z) : list HighActiveTaskRecord → Prop :=
  | scan_of_high highActiveUsers :
      GetHighActiveUsers m rankNow HighActiveTaskWindowSeconds HighActiveTaskThreshold
                         highActiveUsers →
      scanAndSaveHighActiveUsers isAdmin m rankNow now
        (if len highActiveUsers =? 0 then [] else saveLoop isAdmin now highActiveUsers).

(** ** The controller *)




(** ** The hourly call statistics (model/user_call_hourly_writer.go) *)

Definition userCallHourlyMaxBufferSize : Z := 1000.

Record UserCallHourlyEvent := mkEvent {
  EventUserId : Z;
  EventUsername : string;
  EventCreatedAt : Z;
  IsError : bool
}.

(** The key of the buffer is the pair of [HourStartTs] and [UserId]. *)
Record userCallHourlyAgg := mkAgg {
  AggUsername : string;
  TotalCalls : Z;
  SuccessCalls : Z
}.

(** Go's [%] truncates: it is [Z.rem]. *)
Definition AlignHourStartTs (createdAt : Z) : Z :=
  if createdAt <=? 0 then 0 else createdAt - Z.rem createdAt 3600.

(** [RecordUserCallHourlyEventAsync] under its lock: the new buffer, and
    whether a flush is started ([None] is the nil event). *)
Definition RecordUserCallHourlyEventAsync (buffer : gmap (Z * Z) userCallHourlyAgg)
    (event : option UserCallHourlyEvent) : gmap (Z * Z) userCallHourlyAgg * bool :=
  match event with
  | None => (buffer, false)
  | Some event =>
      let hourStart := AlignHourStartTs (EventCreatedAt event) in
      if (hourStart =? 0) || (EventUserId event <=? 0) then (buffer, false)
      else
        let key := (hourStart, EventUserId event) in
        let agg := default (mkAgg EmptyString 0 0) (buffer !! key) in
        let agg :=
          mkAgg (EventUsername event) (wrap64 (TotalCalls agg + 1))
                (if IsError event then SuccessCalls agg
                 else wrap64 (SuccessCalls agg + 1)) in
        let buffer := <[key := agg]> buffer in
        (buffer, userCallHourlyMaxBufferSize <=? Z.of_nat (size buffer))
  end.

(** The buffer after a sequence of events. *)
Definition recordEvents (buffer : gmap (Z * Z) userCallHourlyAgg)
    (events : list (option UserCallHourlyEvent)) : gmap (Z * Z) userCallHourlyAgg :=
  fold_left (fun b e => (RecordUserCallHourlyEventAsync b e).1) events buffer.

(** [flushUserCallHourlyBuffer] under its lock: the buffer that stays
    and the buffer handed to [batchUpsertUserCallHourly], if any. *)
Definition flushUserCallHourlyBuffer (buffer : gmap (Z * Z) userCallHourlyAgg)
    : gmap (Z * Z) userCallHourlyAgg * option (gmap (Z * Z) userCallHourlyAgg) :=
  if Z.of_nat (size buffer) =? 0 then (buffer, None) else (∅, Some buffer).

(** A row of the table of hourly calls, as [batchUpsertUserCallHourly]
    fills it. *)
Record UserCallHourly := mkRow {
  RowHourStartTs : Z;
  RowUserId : Z;
  RowUsername : string;
  RowTotalCalls : Z;
  RowSuccessCalls : Z
}.

Definition rowOf (entry : Z * Z * userCallHourlyAgg) : UserCallHourly :=
  mkRow entry.1.1 entry.1.2 (AggUsername entry.2) (TotalCalls entry.2) (SuccessCalls entry.2).

(** [for i := 0; i < len(rows); i += batchSize]: the batches
    [rows[i:end]]. The loop runs at most [len(rows)] times. *)
Fixpoint batchLoop {A} (fuel i : nat) (rows : list A) : list (list A) :=
  match fuel with
  | O => []
  | S fuel' =>
      if (i <? length rows)%nat then
        let e := if (length rows <? i + 100)%nat then length rows else (i + 100)%nat in
        take (e - i) (drop i rows) :: batchLoop fuel' (i + 100) rows
      else []
  end.

(** [batchUpsertUserCallHourly]: the batches handed to the database, for
    an enumeration [entries] of the buffer. *)
Inductive batchUpsertUserCallHourly (dbIsNil : bool) (buffer : gmap (Z * Z) userCallHourlyAgg)
    : list (list UserCallHourly) → Prop :=
  | upsert_nothing :
      dbIsNil = true ∨ size buffer = 0%nat →
      batchUpsertUserCallHourly dbIsNil buffer []
  | upsert_batches entries :
      dbIsNil = false → size buffer ≠ 0%nat →
      entries ≡ₚ map_to_list buffer →
      batchUpsertUserCallHourly dbIsNil buffer
        (batchLoop (length entries) 0 (rowOf <$> entries)).

(** The events that [RecordUserCallHourlyEventAsync] counts under
    [key]. *)
Definition countedUnder (key : Z * Z) (events : list (option UserCallHourlyEvent))
    : list UserCallHourlyEvent :=
  filter (fun e => AlignHourStartTs (EventCreatedAt e) ≠ 0 ∧ 0 < EventUserId e ∧
                   (AlignHourStartTs (EventCreatedAt e), EventUserId e) = key)
         (omap id events).

(** The calls that a list of rows accounts for. *)
Definition totalCalls (rows : list UserCallHourly) : Z :=
  foldr (fun r acc => RowTotalCalls r + acc) 0 rows.

(** An event that [RecordUserCallHourlyEventAsync] leaves out: the nil
    event, an event of a user that is not positive, an event before the
    hour 3600. *)
Definition leftOut (event : option UserCallHourlyEvent) : Prop :=
  match event with
  | None => True
  | Some e => EventCreatedAt e < 3600 ∨ EventUserId e ≤ 0
  end.

(** The aggregate of the events counted under one key: the name of the
    last of them, their number and the number of those without error,
    as 64-bit counters. *)
Definition aggOf (l : list UserCallHourlyEvent) : option userCallHourlyAgg :=
  match last l with
  | None => None
  | Some e =>
      Some (mkAgg (EventUsername e) (wrap64 (len l))
                  (wrap64 (len (filter (fun e => IsError e = false) l))))
  end.

#[global] Instance leftOut_dec event : Decision (leftOut event) :=
  match event as ev return Decision (leftOut ev) with
  | None => left I
  | Some e => decide (EventCreatedAt e < 3600 ∨ EventUserId e ≤ 0)
  end.

(** The key of a row. *)
Definition rowKey (r : UserCallHourly) : Z * Z := (RowHourStartTs r, RowUserId r).

(** ** Further example executions *)

(** The store after a third user calls on [smallStore]. *)
Definition thirdStore : ActiveTaskSlotManager :=
  default newManager (RecordTask zeroSalt smallStore 20 3 "cy" "alpha beta").

(** A chat request without a stored body. *)
Definition chatRequest : GinContext := mkGinContext "/v1/chat/completions" NoValue.

Definition requestStore : ActiveTaskSlotManager :=
  default newManager
    (RecordActiveTaskSlot zeroSalt newManager 10 (Some chatRequest) 1 "ann" "gpt").

(** The records of a scan of [fiftyStore] in which user 7 is the only
    administrator. *)
Definition fiftyHigh : list UserActiveTaskCount :=
  atLeast HighActiveTaskThreshold (rankInKeyOrder fiftyStore 150 HighActiveTaskWindowSeconds).

Definition fiftyScan : list HighActiveTaskRecord :=
  if len fiftyHigh =? 0 then [] else saveLoop (fun u => u =? 7) 151 fiftyHigh.


(** Five events: two of user 1 in the hour 7200, one of them an error;
    one of user 2; a nil event; an event before the hour 3600. *)
Definition hourEvents : list (option UserCallHourlyEvent) :=
  [Some (mkEvent 1 "ann" 7300 false); Some (mkEvent 2 "bob" 7400 false); None;
   Some (mkEvent 1 "anna" 9000 true); Some (mkEvent 3 "cy" 3599 false)].

Definition hourBatches : list (list UserCallHourly) :=
  let entries := map_to_list (recordEvents ∅ hourEvents) in
  batchLoop (length entries) 0 (rowOf <$> entries).

(** * Properties *)

(** ** The model on known values *)

(** The digests of FIPS 180-4 for "abc" and for its message of two
    blocks, and the digest of the empty message. *)
Example sha1_abc :
  Sha1.sum (bytes "abc")
  = [169; 153; 62; 54; 71; 6; 129; 106; 186; 62; 37; 113; 120; 80; 194; 108; 156; 208; 216; 157].
Proof. vm_compute. reflexivity. Qed.

Example sha1_two_blocks :
  Sha1.sum (bytes "abcdbcdecdefdefgefghfghighijhijkijkljklmklmnlmnomnopnopq")
  = [132; 152; 62; 68; 28; 59; 210; 110; 186; 174; 74; 161; 249; 81; 41; 229; 229; 70; 112; 241].
Proof. vm_compute. reflexivity. Qed.

Example sha1_empty :
  Sha1.sum (bytes "")
  = [218; 57; 163; 238; 94; 107; 75; 13; 50; 85; 191; 239; 149; 96; 24; 144; 175; 216; 7; 9].
Proof. vm_compute. reflexivity. Qed.

Example Fields_ascii : Fields "  hello   world again " = ["hello"; "world"; "again"].
Proof. vm_compute. reflexivity. Qed.

Example Fields_blank : Fields "   " = [].
Proof. vm_compute. reflexivity. Qed.

(** U+00A0 (bytes 194 160) and U+2003 (bytes 226 128 131) separate
    fields; a byte 160 that continues no rune does not. *)
Example Fields_unicode :
  Fields (String "a" (String (ascii_of_nat 194) (String (ascii_of_nat 160)
           (String "b" (String (ascii_of_nat 226) (String (ascii_of_nat 128)
           (String (ascii_of_nat 131) (String "c" (String (ascii_of_nat 160) "d")))))))))
  = ["a"; "b"; String "c" (String (ascii_of_nat 160) "d")].
Proof. vm_compute. reflexivity. Qed.

(** A text of one token has the hash of the token as its fingerprint. *)
Example simhash64_one_token : simhash64 zeroSalt "hello" = tokenHash64 zeroSalt "hello".
Proof. vm_compute. reflexivity. Qed.

Example tokenHash64_hello : tokenHash64 zeroSalt "hello" = 17467582863777943735.
Proof. vm_compute. reflexivity. Qed.

(** A fifty-first text of a user overwrites the oldest cell of the user
    (the spec's scenario B). *)
Example fifty_first_text :
  (fun m' => (length (slots m'), slots m' !! 0%nat, last (lruOrder m')))
    <$> RecordTask zeroSalt fiftyStore 200 1 "ann" (oneToken 50)
  = Some (50%nat, Some (mkTaskSlot 1 "ann" 200 (tokenHash64 zeroSalt (oneToken 50))),
          Some 0%nat).
Proof. vm_compute. reflexivity. Qed.

(** A cell touched 40 and 5 seconds ago counts once, in a window of 30
    seconds and in a window of 50 (the spec's scenario C). *)
Example touched_twice :
  (fun m => (rankInKeyOrder m 100 30, rankInKeyOrder m 100 50))
    <$> run zeroSalt [mkCall 60 1 "u" "hello"; mkCall 95 1 "u" "hello"] newManager
  = Some ([mkCount 1 "u" 1], [mkCount 1 "u" 1]).
Proof. vm_compute. reflexivity. Qed.

(** ** The fingerprint *)

(** ** The fields of a text *)

Lemma list_ascii_of_string_app (s1 s2 : string) :
  list_ascii_of_string (s1 ++ s2) = list_ascii_of_string s1 ++ list_ascii_of_string s2.
Proof. induction s1 as [|a s1 IH]; simpl; [done|]. by rewrite IH. Qed.

Lemma string_of_list_ascii_app (l1 l2 : list ascii) :
  string_of_list_ascii (l1 ++ l2)
  = (string_of_list_ascii l1 ++ string_of_list_ascii l2)%string.
Proof. induction l1 as [|a l1 IH]; simpl; [done|]. by rewrite IH. Qed.

Lemma length_list_ascii_of_string (s : string) :
  length (list_ascii_of_string s) = String.length s.
Proof. induction s as [|a s IH]; simpl; [done|]. by rewrite IH. Qed.

Lemma fieldsFrom_flag s cur b b' : fieldsFrom s cur (O, b) = fieldsFrom s cur (O, b').
Proof. by destruct s. Qed.

Lemma fieldsFrom_white_tail (l s : list ascii) :
  fieldsFrom (l ++ s) None (length l, true) = fieldsFrom s None (O, true).
Proof. induction l as [|c l IH]; [done|]. cbn [app length fieldsFrom]. apply IH. Qed.

Lemma fieldsFrom_solid_tail (l s f : list ascii) :
  fieldsFrom (l ++ s) (Some f) (length l, false) = fieldsFrom s (Some (f ++ l)) (O, false).
Proof.
  revert f. induction l as [|c l IH]; intros f.
  - by rewrite app_nil_r.
  - cbn [app length fieldsFrom default from_option id]. rewrite IH.
    by rewrite <- app_assoc.
Qed.

Lemma fieldsFrom_rune (chunk rest : string) r cur b :
  reads chunk rest r →
  fieldsFrom (list_ascii_of_string chunk ++ list_ascii_of_string rest) cur (O, b)
  = if IsSpace r then emitted cur ++ fieldsFrom (list_ascii_of_string rest) None (O, false)
    else fieldsFrom (list_ascii_of_string rest)
           (Some (default [] cur ++ list_ascii_of_string chunk)) (O, false).
Proof.
  intros [Hne Hdec]. destruct chunk as [|c chunk]; [done|].
  unfold bytes in Hdec. rewrite list_ascii_of_string_app in Hdec.
  cbn [list_ascii_of_string app] in *. cbn [fieldsFrom]. rewrite Hdec.
  cbn [String.length Nat.pred]. rewrite <- length_list_ascii_of_string.
  destruct (IsSpace r).
  - rewrite (fieldsFrom_flag (list_ascii_of_string rest) None false true).
    destruct cur as [f|]; cbn [emitted app]; by rewrite fieldsFrom_white_tail.
  - rewrite fieldsFrom_solid_tail. by rewrite <- app_assoc.
Qed.

Lemma fieldsFrom_solid (token rest : string) cur :
  solidRunes token rest →
  fieldsFrom (list_ascii_of_string token ++ list_ascii_of_string rest) cur (O, false)
  = fieldsFrom (list_ascii_of_string rest)
      (Some (default [] cur ++ list_ascii_of_string token)) (O, false).
Proof.
  intros Hsolid. revert cur.
  induction Hsolid as [chunk rest r Hread Hsp|chunk token rest r Hread Hsp _ IH]; intros cur.
  - by rewrite (fieldsFrom_rune chunk rest r cur false Hread), Hsp.
  - rewrite list_ascii_of_string_app, <- app_assoc, <- (list_ascii_of_string_app token rest).
    rewrite (fieldsFrom_rune chunk _ r cur false Hread), Hsp.
    rewrite list_ascii_of_string_app, IH.
    cbn [default from_option id]. by rewrite app_assoc.
Qed.

Lemma Fields_white (gap rest : string) :
  whiteRune gap rest → Fields (gap ++ rest) = Fields rest.
Proof.
  intros (r & Hread & Hsp). unfold Fields. rewrite list_ascii_of_string_app.
  by rewrite (fieldsFrom_rune gap rest r None false Hread), Hsp.
Qed.

Lemma Fields_solid (token : string) : solidRunes token EmptyString → Fields token = [token].
Proof.
  intros Hsolid. unfold Fields.
  rewrite <- (app_nil_r (list_ascii_of_string token)).
  change (@nil ascii) with (list_ascii_of_string EmptyString) at 1.
  rewrite (fieldsFrom_solid token EmptyString None Hsolid).
  cbn [list_ascii_of_string fieldsFrom default from_option id app].
  by rewrite string_of_list_ascii_of_string.
Qed.

Lemma Fields_solid_white (token gap rest : string) :
  solidRunes token (gap ++ rest) → whiteRune gap rest →
  Fields (token ++ gap ++ rest) = token :: Fields rest.
Proof.
  intros Hsolid (r & Hread & Hsp). unfold Fields.
  rewrite list_ascii_of_string_app, (fieldsFrom_solid token _ None Hsolid).
  rewrite list_ascii_of_string_app, (fieldsFrom_rune gap rest r _ false Hread), Hsp.
  cbn [emitted default from_option id app]. by rewrite string_of_list_ascii_of_string.
Qed.

(** ** The bytes of a token hash *)

Lemma be32_bytes x : Forall (fun b => 0 ≤ b < 256) (Sha1.be32 x).
Proof. unfold Sha1.be32. repeat constructor; apply Z.mod_pos_bound; lia. Qed.

Lemma sha1_sum_bytes msg : Forall (fun b => 0 ≤ b < 256) (Sha1.sum msg).
Proof.
  unfold Sha1.sum.
  destruct (fold_left Sha1.block _ Sha1.init) as [[[[h0 h1] h2] h3] h4].
  repeat (apply Forall_app; split); apply be32_bytes.
Qed.

Lemma sha1_sum_nth msg k : 0 ≤ nth k (Sha1.sum msg) 0 < 256.
Proof.
  destruct (decide (k < length (Sha1.sum msg))%nat) as [Hlt|Hge].
  - pose proof (sha1_sum_bytes msg) as Hall. rewrite Forall_forall in Hall.
    apply Hall. rewrite list_elem_of_In. by apply nth_In.
  - rewrite nth_overflow by lia. lia.
Qed.

Lemma byte_shift_testbit b k i :
  0 ≤ b < 256 → 0 ≤ k → k + 8 ≤ i → Z.testbit (Z.shiftl b k) i = false.
Proof.
  intros Hb Hk Hi. rewrite Z.shiftl_spec by lia.
  rewrite <- (Z.mod_small b (2 ^ 8)) by lia. apply Z.mod_pow2_bits_high. lia.
Qed.

Lemma byte_at b s i :
  0 ≤ b < 256 → 0 ≤ s →
  Z.testbit (Z.shiftl b s) i = (s <=? i) && (i <? s + 8) && Z.testbit b (i - s).
Proof.
  intros Hb Hs. destruct (Z.leb_spec s i); destruct (Z.ltb_spec i (s + 8)); cbn [andb].
  - by rewrite Z.shiftl_spec by lia.
  - by apply byte_shift_testbit.
  - by apply Z.shiftl_spec_low.
  - lia.
Qed.

Lemma tokenHash64_testbit salt token i :
  0 ≤ i < 64 →
  Z.testbit (tokenHash64 salt token) i
  = Z.testbit (nth (Z.to_nat (i / 8)) (Sha1.sum (bytes salt ++ bytes token)) 0) (i mod 8).
Proof.
  intros Hi. unfold tokenHash64. set (s := Sha1.sum _).
  assert (∀ k, 0 ≤ nth k s 0 < 256) as Hb by (intros; apply sha1_sum_nth).
  rewrite !Z.lor_spec, !byte_at by (done || lia).
  rewrite <- (Z.shiftl_0_r (nth 0 s 0)), byte_at by (done || lia).
  pose proof (Z.div_mod i 8 ltac:(lia)) as Hdm.
  pose proof (Z.mod_pos_bound i 8 ltac:(lia)) as Hm.
  assert (0 ≤ i / 8 < 8) as Hk by (split; [apply Z.div_pos; lia|apply Z.div_lt_upper_bound; lia]).
  assert (i / 8 = 0 ∨ i / 8 = 1 ∨ i / 8 = 2 ∨ i / 8 = 3 ∨ i / 8 = 4 ∨ i / 8 = 5 ∨
          i / 8 = 6 ∨ i / 8 = 7) as Hcase by lia.
  destruct Hcase as [Hq|[Hq|[Hq|[Hq|[Hq|[Hq|[Hq|Hq]]]]]]]; rewrite Hq;
    repeat match goal with
           | |- context [?a <=? ?b] =>
               first [rewrite (proj2 (Z.leb_le a b)) by lia
                     |rewrite (proj2 (Z.leb_gt a b)) by lia]
           | |- context [?a <? ?b] =>
               first [rewrite (proj2 (Z.ltb_lt a b)) by lia
                     |rewrite (proj2 (Z.ltb_ge a b)) by lia]
           end;
    cbn [andb orb]; rewrite ?orb_false_r; f_equal; lia.
Qed.

Section FingerprintFacts.
Context (salt : string).

Lemma land_one_testbit h i :
  0 ≤ i → (Z.land (Z.shiftr h i) 1 =? 1) = Z.testbit h i.
Proof.
  intros Hi. change 1 with (Z.ones 1) at 1. rewrite Z.land_ones by lia.
  rewrite Z.shiftr_div_pow2 by lia. change (2 ^ 1) with 2.
  rewrite <- Z.testbit_spec' by lia. by destruct (Z.testbit h i).
Qed.

Lemma vote_length h v : length (vote h v) = length v.
Proof. unfold vote. by rewrite length_imap. Qed.

Lemma vote_nth h v i :
  (i < length v)%nat →
  nth i (vote h v) 0 = nth i v 0 + (if Z.testbit h (Z.of_nat i) then 1 else -1).
Proof.
  intros Hi. rewrite !nth_lookup. unfold vote. rewrite list_lookup_imap.
  destruct (lookup_lt_is_Some_2 v i Hi) as [x Hx]. rewrite Hx. simpl.
  rewrite land_one_testbit by lia. destruct (Z.testbit h (Z.of_nat i)); lia.
Qed.

Lemma votes_length tokens v :
  length (fold_left (fun v tok => vote (tokenHash64 salt tok) v) tokens v) = length v.
Proof.
  revert v. induction tokens as [|tok tokens IH]; intros v; simpl; [done|].
  by rewrite IH, vote_length.
Qed.

Lemma votes_nth tokens v i :
  (i < length v)%nat →
  nth i (fold_left (fun v tok => vote (tokenHash64 salt tok) v) tokens v) 0
  = nth i v 0 + signedVote salt (Z.of_nat i) tokens.
Proof.
  revert v. induction tokens as [|tok tokens IH]; intros v Hi; simpl; [lia|].
  rewrite IH by (by rewrite vote_length). rewrite vote_nth by done. lia.
Qed.

Lemma collect_from_testbit v l acc i :
  0 ≤ i →
  Z.testbit
    (fold_left
       (fun out k => if 0 <=? nth k v 0 then Z.lor out (Z.shiftl 1 (Z.of_nat k)) else out)
       l acc) i
  = Z.testbit acc i || (bool_decide (Z.to_nat i ∈ l) && (0 <=? nth (Z.to_nat i) v 0)).
Proof.
  intros Hi. revert acc. induction l as [|k l IH]; intros acc; cbn [fold_left].
  - rewrite bool_decide_eq_false_2 by set_solver. by rewrite orb_false_r.
  - rewrite IH. destruct (decide (Z.to_nat i = k)) as [<-|Hne].
    + rewrite (bool_decide_eq_true_2 (_ ∈ _ :: _)) by set_solver.
      destruct (0 <=? nth (Z.to_nat i) v 0) eqn:Hv; simpl.
      * rewrite Z2Nat.id by lia.
        rewrite Z.lor_spec, Z.shiftl_1_l, Z.pow2_bits_true by lia.
        by rewrite !orb_true_r.
      * by rewrite andb_false_r, !orb_false_r.
    + assert (bool_decide (Z.to_nat i ∈ k :: l) = bool_decide (Z.to_nat i ∈ l)) as ->.
      { apply bool_decide_ext. rewrite elem_of_cons.
        split; [intros [?|?]; [congruence|done] | by right]. }
      destruct (0 <=? nth k v 0); [|done].
      rewrite Z.lor_spec, Z.shiftl_1_l, Z.pow2_bits_false by lia.
      by rewrite orb_false_r.
Qed.

Lemma collect_testbit v i :
  Z.testbit (collect v) i
  = (0 <=? i) && (i <? 64) && (0 <=? nth (Z.to_nat i) v 0).
Proof.
  destruct (Z.leb_spec 0 i) as [Hi|Hi]; [|by rewrite Z.testbit_neg_r by lia].
  unfold collect. rewrite collect_from_testbit by done.
  rewrite Z.bits_0, orb_false_l, andb_true_l. f_equal. destruct (Z.ltb_spec i 64).
  - apply bool_decide_eq_true_2, elem_of_seq. lia.
  - apply bool_decide_eq_false_2. rewrite elem_of_seq. lia.
Qed.

Lemma simhash64_testbit text i :
  Z.testbit (simhash64 salt text) i
  = negb (bool_decide (Fields text = [])) && (0 <=? i) && (i <? 64)
    && (0 <=? signedVote salt i (Fields text)).
Proof.
  unfold simhash64, len. destruct (Fields text) as [|tok tokens] eqn:Htok.
  - simpl. apply Z.bits_0.
  - rewrite bool_decide_eq_false_2 by done.
    replace (Z.of_nat (length (tok :: tokens)) =? 0) with false
      by (symmetry; apply Z.eqb_neq; simpl; lia).
    rewrite collect_testbit. cbn [negb]. rewrite andb_true_l.
    destruct ((0 <=? i) && (i <? 64)) eqn:Hr; [|done]. rewrite !andb_true_l.
    apply andb_true_iff in Hr as [?%Z.leb_le ?%Z.ltb_lt].
    rewrite votes_nth by (rewrite length_replicate; lia).
    rewrite Z2Nat.id by lia. f_equal.
    rewrite nth_lookup, lookup_replicate_2 by lia. simpl. lia.
Qed.

Lemma signedVote_perm i (t1 t2 : list string) :
  t1 ≡ₚ t2 → signedVote salt i t1 = signedVote salt i t2.
Proof.
  induction 1; simpl; lia.
Qed.

Lemma OnesCount64_range x : 0 ≤ OnesCount64 x ≤ 64.
Proof.
  unfold OnesCount64. split; [lia|].
  pose proof (length_filter (fun i : nat => Z.testbit x (Z.of_nat i) = true) (seq 0 64)) as H.
  rewrite length_seq in H. lia.
Qed.

Lemma hamming64_differing a b :
  hamming64 a b
  = Z.of_nat (length (filter (fun k : nat => Z.testbit a (Z.of_nat k) ≠ Z.testbit b (Z.of_nat k))
                             (seq 0 64))).
Proof.
  unfold hamming64, OnesCount64. do 2 f_equal. apply list_filter_iff.
  intros k. rewrite Z.lxor_spec.
  destruct (Z.testbit a (Z.of_nat k)), (Z.testbit b (Z.of_nat k)); simpl; split; congruence.
Qed.

Lemma hamming64_self a : hamming64 a a = 0.
Proof. unfold hamming64. by rewrite Z.lxor_nilpotent. Qed.

Lemma simhash64_range text : 0 ≤ simhash64 salt text < 2 ^ 64.
Proof.
  assert (0 ≤ simhash64 salt text) as Hpos.
  { apply Z.bits_iff_nonneg_ex. exists 64. intros i Hi.
    rewrite simhash64_testbit. replace (i <? 64) with false by (symmetry; apply Z.ltb_ge; lia).
    by rewrite andb_false_r. }
  split; [done|]. destruct (decide (simhash64 salt text = 0)) as [->|Hne]; [done|].
  apply Z.log2_lt_pow2; [lia|].
  destruct (Z.lt_ge_cases (Z.log2 (simhash64 salt text)) 64) as [|Hge]; [done|].
  pose proof (Z.bit_log2 (simhash64 salt text) ltac:(lia)) as Hb.
  rewrite simhash64_testbit in Hb.
  replace (Z.log2 (simhash64 salt text) <? 64) with false in Hb
    by (symmetry; apply Z.ltb_ge; lia).
  by rewrite andb_false_r in Hb.
Qed.

(** C7. [simhash64] splits the text with [strings.Fields], that is on
    white space: the empty text has no field, a rune of white space in
    front of a text adds none, a run of runes that are not white space
    is the one field of the text it makes up, and it is the first field
    of a text in which a rune of white space follows it. The hash of a
    token is salted: its bit [i] is bit [i mod 8] of byte [i / 8] of the
    SHA-1 digest of the salt followed by the token. Without a token the
    fingerprint is 0. Otherwise, and for every position [i], bit [i] of
    the result is set exactly when [0 <= i < 64] and the signed vote of
    the tokens for [i] (one up for each token whose salted hash has bit
    [i], one down for each other token, a repeated token voting each
    time) is at least 0. [hamming64 a b] is the number of set bits of
    [a xor b], that is the number of positions below 64 where [a] and
    [b] differ; it lies between 0 and 64, and it is 0 between the
    fingerprint of a text and itself. *)
Theorem simhash64_votes_hamming64_popcount (text gap token rest tok : string) (i a b : Z) :
  Fields EmptyString = [] ∧
  (whiteRune gap rest → Fields (gap ++ rest) = Fields rest) ∧
  (solidRunes token EmptyString → Fields token = [token]) ∧
  (solidRunes token (gap ++ rest) → whiteRune gap rest →
   Fields (token ++ gap ++ rest) = token :: Fields rest) ∧
  (0 ≤ i < 64 →
   Z.testbit (tokenHash64 salt tok) i
   = Z.testbit (nth (Z.to_nat (i / 8)) (Sha1.sum (bytes salt ++ bytes tok)) 0) (i mod 8)) ∧
  (Fields text = [] → simhash64 salt text = 0) ∧
  Z.testbit (simhash64 salt text) i
  = negb (bool_decide (Fields text = [])) && (0 <=? i) && (i <? 64)
    && (0 <=? signedVote salt i (Fields text)) ∧
  hamming64 a b = OnesCount64 (Z.lxor a b) ∧
  hamming64 a b
  = Z.of_nat (length (filter (fun k : nat => Z.testbit a (Z.of_nat k) ≠ Z.testbit b (Z.of_nat k))
                             (seq 0 64))) ∧
  0 ≤ hamming64 a b ≤ 64 ∧
  hamming64 (simhash64 salt text) (simhash64 salt text) = 0.
Proof.
  split; [done|]. split; [apply Fields_white|]. split; [apply Fields_solid|].
  split; [apply Fields_solid_white|]. split; [apply tokenHash64_testbit|].
  split; [|split; [|split; [|split; [|split]]]].
  - intros Hnil. unfold simhash64. by rewrite Hnil.
  - apply simhash64_testbit.
  - done.
  - apply hamming64_differing.
  - apply OnesCount64_range.
  - apply hamming64_self.
Qed.

(** C10. For a given salt, [simhash64] depends on the multiset of the
    tokens of the text only: two texts whose token lists are
    permutations of each other have the same fingerprint, at distance
    0. *)
Theorem simhash64_token_multiset (x y : string) :
  Fields x ≡ₚ Fields y →
  simhash64 salt x = simhash64 salt y ∧
  hamming64 (simhash64 salt x) (simhash64 salt y) = 0.
Proof.
  intros Hperm.
  assert (simhash64 salt x = simhash64 salt y) as Heq.
  { apply Z.bits_inj'. intros i _. rewrite !simhash64_testbit.
    rewrite (signedVote_perm i _ _ Hperm). do 4 f_equal.
    apply bool_decide_ext. split; intros Hnil; rewrite Hnil in Hperm.
    - by apply Permutation_nil_l in Hperm.
    - by apply Permutation_nil_r in Hperm. }
  split; [done|]. rewrite Heq. apply hamming64_self.
Qed.

End FingerprintFacts.

(** ** Lists with their first occurrence of an index removed *)

Lemma removeFirst_notin idx (l : list nat) : idx ∉ l → removeFirst idx l = l.
Proof.
  induction l as [|v l IH]; simpl; [done|]. intros Hn.
  apply not_elem_of_cons in Hn as [Hne Hn]. destruct (decide (v = idx)); [congruence|].
  by rewrite IH.
Qed.

Lemma removeFirst_perm idx (l : list nat) : idx ∈ l → l ≡ₚ idx :: removeFirst idx l.
Proof.
  induction l as [|v l IH]; simpl; [by intros ?%elem_of_nil|].
  intros Hin. destruct (decide (v = idx)) as [->|Hne]; [done|].
  apply elem_of_cons in Hin as [->|Hin]; [done|].
  rewrite (IH Hin) at 1. apply perm_swap.
Qed.

Lemma removeFirst_sublist idx (l : list nat) : removeFirst idx l `sublist_of` l.
Proof.
  induction l as [|v l IH]; simpl; [done|].
  destruct (decide (v = idx)); [by apply sublist_cons | by apply sublist_skip].
Qed.

Lemma removeFirst_NoDup idx (l : list nat) : NoDup l → NoDup (removeFirst idx l).
Proof. intros. eapply sublist_NoDup; [done|apply removeFirst_sublist]. Qed.

Lemma elem_of_removeFirst idx (l : list nat) j :
  NoDup l → j ∈ removeFirst idx l ↔ j ∈ l ∧ j ≠ idx.
Proof.
  intros Hnd. destruct (decide (idx ∈ l)) as [Hin|Hn].
  - pose proof (removeFirst_perm idx l Hin) as Hp.
    assert (NoDup (idx :: removeFirst idx l)) as Hnd' by (by rewrite <- Hp).
    apply NoDup_cons in Hnd' as [Hfresh _].
    rewrite Hp at 2. rewrite elem_of_cons. split.
    + intros Hj. split; [by right|]. intros ->. done.
    + intros [[->|Hj] Hne]; done.
  - rewrite removeFirst_notin by done. split; [|by intros [? _]].
    intros Hj. split; [done|]. intros ->. done.
Qed.

Lemma removeFirst_length idx (l : list nat) :
  idx ∈ l → S (length (removeFirst idx l)) = length l.
Proof. intros Hin. by rewrite (removeFirst_perm idx l Hin) at 2. Qed.


(** ** The index of a user after each update *)

Lemma userSlotsOf_append m u i u' :
  userSlotsOf (appendUserSlot m u i) u'
  = if decide (u = u') then userSlotsOf m u ++ [i] else userSlotsOf m u'.
Proof.
  unfold userSlotsOf, appendUserSlot. simpl. rewrite lookup_insert.
  by destruct (decide (u = u')).
Qed.

Lemma userSlotsOf_remove m u i u' :
  userSlotsOf (removeFromUserSlotIdx m u i) u'
  = if decide (u = u') then removeFirst i (userSlotsOf m u) else userSlotsOf m u'.
Proof.
  unfold removeFromUserSlotIdx, userSlotsOf, len. simpl.
  destruct (bool_decide_reflect (i ∈ default [] (userSlotIdx m !! u))) as [Hin|Hn].
  - rewrite lookup_insert_eq. simpl.
    destruct (Z.eqb_spec (Z.of_nat (length (removeFirst i (default [] (userSlotIdx m !! u))))) 0)
      as [Hz|Hz].
    + rewrite lookup_delete, lookup_insert.
      destruct (decide (u = u')); [|done]. simpl.
      destruct (removeFirst i (default [] (userSlotIdx m !! u))); [done|simpl in Hz; lia].
    + rewrite lookup_insert. by destruct (decide (u = u')).
  - rewrite (removeFirst_notin _ _ Hn).
    destruct (Z.eqb_spec (Z.of_nat (length (default [] (userSlotIdx m !! u)))) 0) as [Hz|Hz].
    + rewrite lookup_delete. destruct (decide (u = u')) as [<-|]; [|done]. simpl.
      destruct (default [] (userSlotIdx m !! u)); [done|simpl in Hz; lia].
    + by destruct (decide (u = u')) as [<-|].
Qed.

Lemma removeFromUserSlotIdx_nonempty m u i u' :
  (∀ v, userSlotIdx m !! v ≠ Some []) →
  userSlotIdx (removeFromUserSlotIdx m u i) !! u' ≠ Some [].
Proof.
  intros Hne. unfold removeFromUserSlotIdx, userSlotsOf, len. simpl.
  destruct (bool_decide_reflect (i ∈ default [] (userSlotIdx m !! u))) as [Hin|Hn].
  - rewrite lookup_insert_eq. simpl.
    destruct (Z.eqb_spec (Z.of_nat (length (removeFirst i (default [] (userSlotIdx m !! u))))) 0)
      as [Hz|Hz].
    + rewrite lookup_delete, lookup_insert.
      destruct (decide (u = u')); [done|apply Hne].
    + rewrite lookup_insert. destruct (decide (u = u')); [|apply Hne].
      intros [= Hnil]. rewrite Hnil in Hz. simpl in Hz. lia.
  - destruct (Z.eqb_spec (Z.of_nat (length (default [] (userSlotIdx m !! u)))) 0) as [Hz|Hz].
    + rewrite lookup_delete. destruct (decide (u = u')); [done|apply Hne].
    + apply Hne.
Qed.


Lemma moved_NoDup idx (l : list nat) : NoDup l → NoDup (removeFirst idx l ++ [idx]).
Proof.
  intros Hnd. apply NoDup_app. split; [by apply removeFirst_NoDup|]. split.
  - intros j Hj ->%list_elem_of_singleton.
    apply elem_of_removeFirst in Hj as [_ Hne]; done.
  - apply NoDup_singleton.
Qed.

Lemma elem_of_moved idx (l : list nat) j :
  NoDup l → j ∈ removeFirst idx l ++ [idx] ↔ j ∈ l ∨ j = idx.
Proof.
  intros Hnd. rewrite elem_of_app, list_elem_of_singleton, elem_of_removeFirst by done.
  destruct (decide (j = idx)); tauto.
Qed.

Lemma overwritten_consistent m idx old slot :
  indexConsistent m →
  slots m !! idx = Some old →
  UserID slot = UserID old →
  indexConsistent (overwritten m idx slot).
Proof.
  intros [Hown Hnd Hne Hlnd Hlru] Hold Hu.
  pose proof (lookup_lt_Some _ _ _ Hold) as Hlt.
  split; simpl.
  - intros u j. change (userSlotsOf (overwritten m idx slot) u) with (userSlotsOf m u).
    rewrite Hown. destruct (decide (j = idx)) as [->|Hj].
    + rewrite list_lookup_insert_eq by done. rewrite Hold.
      split; intros (s & [= <-] & Hs); eexists; split; try done; congruence.
    + by rewrite list_lookup_insert_ne.
  - done.
  - done.
  - by apply moved_NoDup.
  - intros j. rewrite elem_of_moved, length_insert, Hlru by done.
    split; [intros [?| ->]; done | by left].
Qed.

Lemma transferred_consistent m idx old u slot :
  indexConsistent m →
  slots m !! idx = Some old →
  UserID old ≠ u →
  UserID slot = u →
  indexConsistent (overwritten (transferred m (UserID old) u idx) idx slot).
Proof.
  intros [Hown Hnd Hne Hlnd Hlru] Hold Hdiff Hu.
  pose proof (lookup_lt_Some _ _ _ Hold) as Hlt.
  assert (∀ v, userSlotsOf (overwritten (transferred m (UserID old) u idx) idx slot) v
             = if decide (u = v) then userSlotsOf m u ++ [idx]
               else if decide (UserID old = v) then removeFirst idx (userSlotsOf m (UserID old))
               else userSlotsOf m v) as Hlist.
  { intros v. change (userSlotsOf (overwritten ?m' _ _) v) with (userSlotsOf m' v).
    unfold transferred. rewrite userSlotsOf_append, !userSlotsOf_remove.
    rewrite (decide_False (P := UserID old = u)) by done. done. }
  assert (idx ∉ userSlotsOf m u) as Hfresh.
  { rewrite Hown. intros (s & Hs & Hsu). congruence. }
  split.
  - intros v j. rewrite Hlist. simpl.
    destruct (decide (j = idx)) as [->|Hj].
    + rewrite list_lookup_insert_eq by done.
      destruct (decide (u = v)) as [<-|Huv].
      * split; [by eauto|]. intros _. apply elem_of_app. right. by left.
      * destruct (decide (UserID old = v)) as [<-|Hov].
        -- rewrite elem_of_removeFirst by done.
           split; [intros [_ ?]; congruence|]. intros (s & [= <-] & Hs). congruence.
        -- rewrite Hown, Hold. split; intros (s & [= <-] & Hs); congruence.
    + rewrite list_lookup_insert_ne by done.
      destruct (decide (u = v)) as [<-|Huv].
      * rewrite elem_of_app, list_elem_of_singleton, Hown. tauto.
      * destruct (decide (UserID old = v)) as [<-|Hov]; [|apply Hown].
        rewrite elem_of_removeFirst, Hown by done. tauto.
  - intros v. rewrite Hlist. destruct (decide (u = v)) as [<-|Huv].
    + apply NoDup_app. split; [done|]. split; [|apply NoDup_singleton].
      intros j Hj ->%list_elem_of_singleton. done.
    + destruct (decide (UserID old = v)); [by apply removeFirst_NoDup|done].
  - intros v. simpl. rewrite lookup_insert. destruct (decide (u = v)).
    + intros [= Hnil]. by apply app_nil in Hnil as [_ ?].
    + by apply removeFromUserSlotIdx_nonempty.
  - simpl. by apply moved_NoDup.
  - intros j. simpl. rewrite elem_of_moved, length_insert, Hlru by done.
    split; [intros [?| ->]; done | by left].
Qed.

Lemma allocate_consistent m u name now h :
  indexConsistent m →
  indexConsistent (allocate m u name now h).
Proof.
  intros [Hown Hnd Hne Hlnd Hlru].
  assert (∀ v, userSlotsOf (allocate m u name now h) v
             = if decide (u = v) then userSlotsOf m u ++ [length (slots m)]
               else userSlotsOf m v) as Hlist.
  { intros v. unfold userSlotsOf at 1, allocate. simpl. rewrite lookup_insert.
    by destruct (decide (u = v)). }
  assert (∀ v, length (slots m) ∉ userSlotsOf m v) as Hfresh.
  { intros v. rewrite Hown. intros (s & Hs%lookup_lt_Some & _). lia. }
  split.
  - intros v j. rewrite Hlist. simpl.
    destruct (decide (j = length (slots m))) as [->|Hj].
    + rewrite lookup_app_r, Nat.sub_diag by done. simpl.
      destruct (decide (u = v)) as [<-|Huv].
      * split; [by eauto|]. intros _. apply elem_of_app. right. by left.
      * split; [by intros ?%Hfresh|]. intros (s & [= <-] & Hs). done.
    + destruct (decide (j < length (slots m))%nat) as [Hlt|Hge].
      * rewrite lookup_app_l by done. destruct (decide (u = v)) as [<-|Huv]; [|apply Hown].
        rewrite elem_of_app, list_elem_of_singleton, Hown. tauto.
      * rewrite lookup_ge_None_2 by (rewrite length_app; simpl; lia).
        split; [|by intros (s & ? & _)]. intros Hin.
        assert (j ∈ userSlotsOf m v) as Hin'.
        { destruct (decide (u = v)) as [<-|]; [|done].
          apply elem_of_app in Hin as [?|?%list_elem_of_singleton]; done. }
        apply Hown in Hin' as (s & Hs%lookup_lt_Some & _). lia.
  - intros v. rewrite Hlist. destruct (decide (u = v)) as [<-|Huv]; [|done].
    apply NoDup_app. split; [done|]. split; [|apply NoDup_singleton].
    intros j Hj ->%list_elem_of_singleton. by apply Hfresh in Hj.
  - intros v. simpl. rewrite lookup_insert. destruct (decide (u = v)); [|apply Hne].
    intros [= Hnil]. by apply app_nil in Hnil as [_ ?].
  - simpl. apply NoDup_app. split; [done|]. split; [|apply NoDup_singleton].
    intros j Hj ->%list_elem_of_singleton. apply Hlru in Hj. lia.
  - intros j. simpl. rewrite elem_of_app, list_elem_of_singleton, Hlru, length_app. simpl. lia.
Qed.

(** ** The two scans of a user's cells *)

Lemma far_not_near h slot : SimHashThreshold < hamming64 (SimHash slot) h → ¬ near h slot.
Proof. unfold near. lia. Qed.

Lemma findInheritable_total ss h (l : list nat) :
  (∀ i, i ∈ l → is_Some (ss !! i)) → is_Some (findInheritable ss h l).
Proof.
  induction l as [|i l IH]; intros Hv; simpl; [by eexists|].
  destruct (Hv i ltac:(by left)) as [s Hs]. rewrite Hs. simpl.
  destruct (hamming64 (SimHash s) h <=? SimHashThreshold); [by eexists|].
  apply IH. intros j Hj. apply Hv. by right.
Qed.

Lemma findInheritable_found ss h (l : list nat) idx :
  findInheritable ss h l = Some (Some idx) →
  ∃ pre post slot,
    l = pre ++ idx :: post ∧ ss !! idx = Some slot ∧ near h slot ∧
    ∀ j s, j ∈ pre → ss !! j = Some s → ¬ near h s.
Proof.
  induction l as [|i l IH]; simpl; [done|].
  destruct (ss !! i) as [s|] eqn:Hs; [simpl|done].
  destruct (Z.leb_spec (hamming64 (SimHash s) h) SimHashThreshold) as [Hn|Hn%far_not_near].
  - intros [= <-]. exists [], l, s. repeat split; try done.
    intros j s' Hj. by apply elem_of_nil in Hj.
  - intros Hf. destruct (IH Hf) as (pre & post & slot & -> & Hslot & Hnear & Hfar).
    exists (i :: pre), post, slot. repeat split; try done.
    intros j s' [->|Hj]%elem_of_cons Hs'; [|by eapply Hfar].
    by assert (s' = s) as -> by congruence.
Qed.

Lemma findInheritable_none ss h (l : list nat) :
  findInheritable ss h l = Some None →
  ∀ j, j ∈ l → ∃ s, ss !! j = Some s ∧ ¬ near h s.
Proof.
  induction l as [|i l IH]; simpl; [by intros _ j ?%elem_of_nil|].
  destruct (ss !! i) as [s|] eqn:Hs; [simpl|done].
  destruct (Z.leb_spec (hamming64 (SimHash s) h) SimHashThreshold) as [Hn|Hn%far_not_near];
    [done|].
  intros Hf j [->|Hj]%elem_of_cons; [by eauto|by apply IH].
Qed.

Lemma findInheritable_all_far ss h (l : list nat) :
  (∀ j, j ∈ l → ∃ s, ss !! j = Some s ∧ ¬ near h s) →
  findInheritable ss h l = Some None.
Proof.
  induction l as [|i l IH]; intros Hfar; simpl; [done|].
  destruct (Hfar i ltac:(by left)) as (s & Hs & Hn). rewrite Hs. simpl.
  destruct (Z.leb_spec (hamming64 (SimHash s) h) SimHashThreshold) as [Hn'|_]; [done|].
  apply IH. intros j Hj. apply Hfar. by right.
Qed.

Lemma oldestLoop_least ss (l : list nat) i0 s0 :
  ss !! i0 = Some s0 →
  (∀ i, i ∈ l → is_Some (ss !! i)) →
  ∃ idx s,
    oldestLoop ss l i0 (UpdatedAt s0) = Some idx ∧ idx ∈ i0 :: l ∧
    ss !! idx = Some s ∧ UpdatedAt s ≤ UpdatedAt s0 ∧
    ∀ j sj, j ∈ l → ss !! j = Some sj → UpdatedAt s ≤ UpdatedAt sj.
Proof.
  revert i0 s0. induction l as [|i l IH]; intros i0 s0 H0 Hv; simpl.
  - exists i0, s0. split; [done|]. split; [by left|]. split; [done|]. split; [lia|].
    intros j sj Hj. by apply elem_of_nil in Hj.
  - destruct (Hv i ltac:(by left)) as [si Hsi]. rewrite Hsi. simpl.
    assert (∀ k, k ∈ l → is_Some (ss !! k)) as Hv' by (intros k Hk; apply Hv; by right).
    destruct (Z.ltb_spec (UpdatedAt si) (UpdatedAt s0)) as [Hlt|Hge].
    + destruct (IH i si Hsi Hv') as (idx & s & Hloop & Hin & Hs & Hle & Hmin).
      exists idx, s. split; [done|]. split; [by right|]. split; [done|]. split; [lia|].
      intros j sj [->|Hj]%elem_of_cons Hsj; [|by eapply Hmin].
      assert (sj = si) as -> by congruence. done.
    + destruct (IH i0 s0 H0 Hv') as (idx & s & Hloop & Hin & Hs & Hle & Hmin).
      exists idx, s. split; [done|]. split; [|split; [done|]; split; [done|]].
      * apply elem_of_cons in Hin as [->|Hin]; [by left|by right; right].
      * intros j sj [->|Hj]%elem_of_cons Hsj; [|by eapply Hmin].
        assert (sj = si) as -> by congruence. lia.
Qed.

Lemma findOldestUserSlot_least m u :
  (∀ i, i ∈ userSlotsOf m u → is_Some (slots m !! i)) →
  userSlotsOf m u ≠ [] →
  ∃ idx s,
    findOldestUserSlot m u = Some (Z.of_nat idx) ∧ idx ∈ userSlotsOf m u ∧
    slots m !! idx = Some s ∧
    ∀ j sj, j ∈ userSlotsOf m u → slots m !! j = Some sj → UpdatedAt s ≤ UpdatedAt sj.
Proof.
  intros Hv Hne. unfold findOldestUserSlot.
  destruct (userSlotsOf m u) as [|i0 l]; [done|].
  destruct (Hv i0 ltac:(by left)) as [s0 H0]. rewrite H0. simpl.
  destruct (oldestLoop_least (slots m) l i0 s0 H0) as (idx & s & Hloop & Hin & Hs & Hle & Hmin).
  { intros k Hk. apply Hv. by right. }
  rewrite Hloop. exists idx, s. split; [done|]. split; [done|]. split; [done|].
  intros j sj [->|Hj]%elem_of_cons Hsj; [|by eapply Hmin].
  assert (sj = s0) as -> by congruence. done.
Qed.

(** ** The branches of [RecordTask] *)

Lemma alter_touch (ss : list TaskSlot) (idx : nat) old name now h :
  ss !! idx = Some old →
  alter (touch name now h) idx ss = <[idx := mkTaskSlot (UserID old) name now h]> ss.
Proof.
  revert idx. induction ss as [|s ss IH]; intros [|idx] Hs; simpl in *; try done.
  - by injection Hs as ->.
  - f_equal. by apply IH.
Qed.

Lemma reuseSlot_own m idx old name now h :
  slots m !! idx = Some old →
  reuseSlot m idx (UserID old) name now h
  = Some (overwritten m idx (mkTaskSlot (UserID old) name now h)).
Proof.
  intros Hold. unfold reuseSlot. rewrite Hold. simpl.
  by rewrite decide_False by (intros Hc; by apply Hc).
Qed.

Lemma reuseSlot_other m idx old u name now h :
  slots m !! idx = Some old → UserID old ≠ u →
  reuseSlot m idx u name now h
  = Some (overwritten (transferred m (UserID old) u idx) idx (mkTaskSlot u name now h)).
Proof.
  intros Hold Hne. unfold reuseSlot. rewrite Hold. simpl.
  by rewrite decide_True by done.
Qed.

Lemma listed_valid m u i :
  indexConsistent m → i ∈ userSlotsOf m u → is_Some (slots m !! i).
Proof. intros Hc Hi. apply (listed_iff_owned m Hc) in Hi as (s & -> & _). by eexists. Qed.

Lemma recordHash_recorded m now u name h :
  indexConsistent m →
  ∃ m', recordHash m now u name h = Some m' ∧ recorded m now u name h m'.
Proof.
  intros Hc. unfold recordHash.
  destruct (findInheritable_total (slots m) h (userSlotsOf m u)) as [[idx|] Hf].
  { intros i. by apply listed_valid. }
  - rewrite Hf. simpl.
    destruct (findInheritable_found _ _ _ _ Hf) as (pre & post & old & Hl & Hold & _).
    assert (UserID old = u) as Hu.
    { assert (idx ∈ userSlotsOf m u) as Hin by (rewrite Hl; set_solver).
      apply (listed_iff_owned m Hc) in Hin as (s & Hs & Hsu). congruence. }
    eexists. split; [|by eapply recorded_match].
    rewrite (alter_touch _ _ _ _ _ _ Hold), Hu. done.
  - rewrite Hf. simpl.
    assert (∀ idx rest, lruOrder m = idx :: rest →
              ∃ m', reuseSlot m idx u name now h = Some m' ∧
                    (MaxGlobalSlots ≤ len (slots m) →
                     len (userSlotsOf m u) < MaxUserSlots →
                     recorded m now u name h m')) as Hglobal.
    { intros idx rest Hlru.
      assert (idx ∈ lruOrder m) as Hin by (rewrite Hlru; by left).
      apply (lru_iff_allocated m Hc), lookup_lt_is_Some_2 in Hin as [old Hold].
      destruct (decide (UserID old = u)) as [<-|Hne].
      - rewrite (reuseSlot_own _ _ _ _ _ _ Hold). eexists. split; [done|].
        intros. by eapply recorded_global_full_own.
      - rewrite (reuseSlot_other _ _ _ _ _ _ _ Hold Hne). eexists. split; [done|].
        intros. by eapply recorded_global_full_other. }
    assert (len (userSlotsOf m u) < MaxUserSlots →
            ∃ m', globalOrAllocate m u name now h = Some m' ∧ recorded m now u name h m')
      as Hrest.
    { intros Hlt. unfold globalOrAllocate.
      destruct (Z.leb_spec MaxGlobalSlots (len (slots m))) as [Hfull|Hroom].
      - destruct (lruOrder m) as [|idx rest] eqn:Hlru.
        + exfalso. assert (0 < length (slots m))%nat as Hpos
            by (unfold len, MaxGlobalSlots in Hfull; lia).
          apply (lru_iff_allocated m Hc) in Hpos. rewrite Hlru in Hpos.
          by apply elem_of_nil in Hpos.
        + destruct (Hglobal idx rest eq_refl) as (m' & -> & Hrec). eauto.
      - eexists. split; [done|]. by apply recorded_allocate. }
    destruct (Z.leb_spec MaxUserSlots (len (userSlotsOf m u))) as [Hfull|Hroom];
      [|by apply Hrest].
    destruct (findOldestUserSlot_least m u) as (idx & old & Hfind & Hin & Hold & _).
    { intros i. by apply listed_valid. }
    { intros Hnil. rewrite Hnil in Hfull. unfold len, MaxUserSlots in Hfull. simpl in Hfull. lia. }
    rewrite Hfind. simpl. rewrite (proj2 (Z.leb_le 0 (Z.of_nat idx))) by lia.
    rewrite Nat2Z.id.
    assert (UserID old = u) as Hu.
    { apply (listed_iff_owned m Hc) in Hin as (s & Hs & Hsu). congruence. }
    subst u. rewrite (reuseSlot_own _ _ _ _ _ _ Hold).
    eexists. split; [done|]. by eapply recorded_user_full.
Qed.

Lemma recorded_consistent m now u name h m' :
  indexConsistent m → recorded m now u name h m' → indexConsistent m'.
Proof.
  intros Hc. destruct 1.
  - by eapply overwritten_consistent.
  - by eapply overwritten_consistent.
  - by eapply overwritten_consistent.
  - by eapply transferred_consistent.
  - by apply allocate_consistent.
Qed.

(** ** The lists of the users after each branch *)

Lemma userSlotsOf_transferred m old u idx v :
  old ≠ u →
  userSlotsOf (transferred m old u idx) v
  = if decide (u = v) then userSlotsOf m u ++ [idx]
    else if decide (old = v) then removeFirst idx (userSlotsOf m old)
    else userSlotsOf m v.
Proof.
  intros Hne. unfold transferred. rewrite userSlotsOf_append, !userSlotsOf_remove.
  by rewrite (decide_False (P := old = u)) by done.
Qed.

Lemma userSlotsOf_allocate m u name now h v :
  userSlotsOf (allocate m u name now h) v
  = if decide (u = v) then userSlotsOf m u ++ [length (slots m)] else userSlotsOf m v.
Proof.
  unfold userSlotsOf at 1, allocate. simpl. rewrite lookup_insert.
  by destruct (decide (u = v)).
Qed.

(** ** The two bounds *)

Lemma recorded_capacity m now u name h m' :
  withinCapacity m → recorded m now u name h m' → withinCapacity m'.
Proof.
  intros [Hg Hu] Hrec. unfold withinCapacity.
  destruct Hrec as [idx old _ _ _|idx old _ _ _ _ _|idx rest old _ _ _ _ _ _
                   |idx rest old _ Hroom _ _ _ Hne|_ Hroom Hfree];
    unfold len, MaxGlobalSlots, MaxUserSlots in *.
  1-3: (split; [simpl; by rewrite length_insert|intros v; apply Hu]).
  - split; [simpl; by rewrite length_insert|]. intros v.
    change (userSlotsOf (overwritten ?a _ _) v) with (userSlotsOf a v).
    rewrite userSlotsOf_transferred by done.
    destruct (decide (u = v)) as [<-|_].
    + rewrite length_app. simpl. lia.
    + destruct (decide (UserID old = v)) as [<-|_]; [|done].
      pose proof (sublist_length _ _ (removeFirst_sublist idx (userSlotsOf m (UserID old)))).
      specialize (Hu (UserID old)). lia.
  - split; [simpl; rewrite length_app; simpl; lia|]. intros v.
    rewrite userSlotsOf_allocate. destruct (decide (u = v)) as [<-|_]; [|done].
    rewrite length_app. simpl. lia.
Qed.

(** ** The cells of a user and the list of the user *)

Lemma listed_count (ss : list TaskSlot) (u : Z) (l : list nat) :
  NoDup l →
  (∀ i, i ∈ l ↔ ∃ s, ss !! i = Some s ∧ UserID s = u) →
  length (filter (fun slot => UserID slot = u) ss) = length l.
Proof.
  revert l. induction ss as [|x ss IH] using rev_ind; intros l Hnd Hiff.
  - destruct l as [|i l]; [done|].
    destruct (proj1 (Hiff i) ltac:(by left)) as (s & Hs & _). done.
  - rewrite filter_app, length_app.
    assert (∀ i s, (ss ++ [x]) !! i = Some s ↔
                   ss !! i = Some s ∨ i = length ss ∧ s = x) as Hsnoc.
    { intros i s. destruct (decide (i < length ss)%nat) as [Hlt|Hge].
      - rewrite lookup_app_l by done. split; [by left|].
        intros [?|[-> _]]; [done|lia].
      - rewrite lookup_app_r by lia. rewrite (lookup_ge_None_2 ss i) by lia.
        destruct (decide (i = length ss)) as [->|Hne].
        + rewrite Nat.sub_diag. simpl. split; [intros [= ->]; by right|].
          intros [?|[_ ->]]; done.
        + destruct (i - length ss)%nat as [|k] eqn:Hk; [lia|]. simpl.
          rewrite lookup_nil. split; [done|]. intros [?|[? _]]; done. }
    destruct (decide (UserID x = u)) as [Hx|Hx].
    + assert (length ss ∈ l) as Hin.
      { apply Hiff. exists x. split; [|done]. apply Hsnoc. by right. }
      rewrite <- (removeFirst_length _ _ Hin).
      rewrite (IH (removeFirst (length ss) l)).
      * rewrite filter_cons_True by done. simpl. lia.
      * by apply removeFirst_NoDup.
      * intros i. rewrite elem_of_removeFirst, Hiff by done. split.
        -- intros [(s & [Hs|[-> _]]%Hsnoc & Hsu) Hne]; [by eauto|done].
        -- intros (s & Hs & Hsu). split.
           ++ exists s. split; [|done]. apply Hsnoc. by left.
           ++ apply lookup_lt_Some in Hs. lia.
    + rewrite (IH l Hnd).
      * rewrite filter_cons_False by done. simpl. lia.
      * intros i. rewrite Hiff. split.
        -- intros (s & [Hs|[_ ->]]%Hsnoc & Hsu); [by eauto|done].
        -- intros (s & Hs & Hsu). exists s. split; [|done]. apply Hsnoc. by left.
Qed.

Lemma ownedBy_listed m u :
  indexConsistent m → ownedBy m u = length (userSlotsOf m u).
Proof.
  intros Hc. apply listed_count; [apply (listed_once m Hc)|apply (listed_iff_owned m Hc)].
Qed.

(** ** The LRU order and the timestamps *)

Lemma removeFirst_sorted (R R' : relation nat) idx (l : list nat) :
  (∀ x y, x ≠ idx → y ≠ idx → R x y → R' x y) →
  NoDup l → StronglySorted R l → StronglySorted R' (removeFirst idx l).
Proof.
  intros HR. induction l as [|v l IH]; intros Hnd Hs; simpl; [constructor|].
  apply NoDup_cons in Hnd as [Hv Hnd]. apply StronglySorted_inv in Hs as [Hs Hall].
  destruct (decide (v = idx)) as [->|Hne].
  - rewrite <- (removeFirst_notin idx l Hv). by apply IH.
  - constructor; [by apply IH|]. apply Forall_forall. intros y Hy.
    apply elem_of_removeFirst in Hy as [Hy Hyne]; [|done].
    apply HR; [done..|]. by eapply Forall_forall in Hall.
Qed.

Lemma stamp_overwritten m idx slot j :
  (idx < length (slots m))%nat →
  stamp (overwritten m idx slot) j
  = if decide (j = idx) then Some (UpdatedAt slot) else stamp m j.
Proof.
  intros Hlt. unfold stamp. simpl. destruct (decide (j = idx)) as [->|Hne].
  - by rewrite list_lookup_insert_eq.
  - by rewrite list_lookup_insert_ne.
Qed.

Lemma stamp_clockAhead m now i t :
  clockAhead m now → stamp m i = Some t → t ≤ now.
Proof.
  unfold stamp. intros Hclock Ht. destruct (slots m !! i) as [s|] eqn:Hs; [|done].
  injection Ht as <-. apply Hclock. by eapply list_elem_of_lookup_2.
Qed.

Lemma overwritten_lruByStamp m idx slot :
  NoDup (lruOrder m) → (idx < length (slots m))%nat →
  clockAhead m (UpdatedAt slot) →
  lruByStamp m → lruByStamp (overwritten m idx slot).
Proof.
  intros Hnd Hlt Hclock Hs. unfold lruByStamp. simpl.
  apply StronglySorted_app_2.
  - intros i ? Hi ->%list_elem_of_singleton ti tj.
    apply elem_of_removeFirst in Hi as [_ Hne]; [|done].
    rewrite !stamp_overwritten by done.
    rewrite decide_False by done. rewrite decide_True by done.
    intros Hti [= <-]. by eapply stamp_clockAhead.
  - eapply removeFirst_sorted; [|done..].
    intros x y Hx Hy HR ti tj. rewrite !stamp_overwritten by done.
    rewrite !decide_False by done. apply HR.
  - repeat constructor.
Qed.

Lemma allocate_lruByStamp m u name now h :
  (∀ i, i ∈ lruOrder m → (i < length (slots m))%nat) →
  clockAhead m now →
  lruByStamp m → lruByStamp (allocate m u name now h).
Proof.
  intros Hlru Hclock Hs. unfold lruByStamp. simpl.
  assert (∀ i, i ∈ lruOrder m → stamp (allocate m u name now h) i = stamp m i) as Hold.
  { intros i Hi%Hlru. unfold stamp. simpl. by rewrite lookup_app_l. }
  assert (stamp (allocate m u name now h) (length (slots m)) = Some now) as Hnew.
  { unfold stamp. simpl. by rewrite lookup_app_r, Nat.sub_diag. }
  apply StronglySorted_app_2.
  - intros i ? Hi ->%list_elem_of_singleton ti tj. rewrite Hold, Hnew by done.
    intros Hti [= <-]. by eapply stamp_clockAhead.
  - clear Hlru. unfold lruByStamp in Hs.
    induction Hs as [|i l Hs IH Hall]; [constructor|].
    constructor.
    + apply IH. intros j Hj. apply Hold. by right.
    + apply Forall_forall. intros j Hj ti tj.
      rewrite (Hold i) by (by left). rewrite (Hold j) by (by right).
      eapply Forall_forall in Hall; [|exact Hj]. apply Hall.
  - repeat constructor.
Qed.

Lemma recorded_lruByStamp m now u name h m' :
  indexConsistent m → clockAhead m now → lruByStamp m →
  recorded m now u name h m' → lruByStamp m'.
Proof.
  intros Hc Hclock Hs Hrec.
  destruct Hrec as [idx old _ Hold _|idx old _ _ _ Hold _|idx rest old _ _ _ _ Hold _
                   |idx rest old _ _ _ _ Hold _|_ _ _].
  1-3: (apply overwritten_lruByStamp;
        [apply (lru_once m Hc)|by eapply lookup_lt_Some|done|done]).
  - apply (overwritten_lruByStamp (transferred m (UserID old) u idx));
      [apply (lru_once m Hc)|by eapply lookup_lt_Some|done|done].
  - apply allocate_lruByStamp; [|done..]. intros i. apply (lru_iff_allocated m Hc).
Qed.

(** The head of the LRU order has the least timestamp of the store. *)
Lemma lru_head_least m idx rest old :
  indexConsistent m → lruByStamp m →
  lruOrder m = idx :: rest → slots m !! idx = Some old →
  ∀ slot, slot ∈ slots m → UpdatedAt old ≤ UpdatedAt slot.
Proof.
  intros Hc Hs Hlru Hold slot [j Hj]%list_elem_of_lookup_1.
  unfold lruByStamp in Hs. rewrite Hlru in Hs.
  apply StronglySorted_inv in Hs as [_ Hall].
  assert (j ∈ lruOrder m) as Hin.
  { apply (lru_iff_allocated m Hc). by eapply lookup_lt_Some. }
  rewrite Hlru in Hin. apply elem_of_cons in Hin as [->|Hin].
  - assert (slot = old) as -> by congruence. done.
  - eapply Forall_forall in Hall; [|done]. apply Hall; unfold stamp.
    + by rewrite Hold.
    + by rewrite Hj.
Qed.

(** ** Reachable stores *)

Lemma newManager_consistent : indexConsistent newManager.
Proof.
  split; simpl.
  - intros u i. unfold userSlotsOf. simpl. rewrite lookup_empty. simpl.
    split; [by intros ?%elem_of_nil|]. intros (s & Hs & _). by rewrite lookup_nil in Hs.
  - intros u. unfold userSlotsOf. simpl. rewrite lookup_empty. constructor.
  - intros u. by rewrite lookup_empty.
  - constructor.
  - intros i. split; [by intros ?%elem_of_nil|lia].
Qed.

Lemma newManager_capacity : withinCapacity newManager.
Proof.
  split; [done|]. intros u. unfold userSlotsOf. simpl. by rewrite lookup_empty.
Qed.

Lemma RecordTask_recorded salt m now u name data :
  indexConsistent m →
  ∃ m', RecordTask salt m now u name data = Some m' ∧
        recorded m now u name (simhash64 salt data) m'.
Proof. apply recordHash_recorded. Qed.

Lemma RecordTask_deterministic_recorded salt m now u name data m' :
  indexConsistent m →
  RecordTask salt m now u name data = Some m' →
  recorded m now u name (simhash64 salt data) m'.
Proof.
  intros Hc Hrun. destruct (RecordTask_recorded salt m now u name data Hc) as (m'' & Hr & Hrec).
  congruence.
Qed.

Lemma reachable_invariant salt m :
  reachable salt m → indexConsistent m ∧ withinCapacity m.
Proof.
  induction 1 as [|m now u name data m' _ [Hc Hcap] Hrun].
  - split; [apply newManager_consistent|apply newManager_capacity].
  - apply RecordTask_deterministic_recorded in Hrun; [|done]. split.
    + by eapply recorded_consistent.
    + by eapply recorded_capacity.
Qed.

Lemma reachableMonotone_reachable salt m : reachableMonotone salt m → reachable salt m.
Proof. induction 1; [constructor|by econstructor]. Qed.

Lemma reachableMonotone_invariant salt m :
  reachableMonotone salt m → indexConsistent m ∧ lruByStamp m.
Proof.
  induction 1 as [|m now u name data m' Hreach [Hc Hs] Hclock Hrun].
  - split; [apply newManager_consistent|constructor].
  - apply RecordTask_deterministic_recorded in Hrun; [|done]. split.
    + by eapply recorded_consistent.
    + by eapply recorded_lruByStamp.
Qed.

Lemma run_reachable salt cs m m' :
  reachable salt m → run salt cs m = Some m' → reachable salt m'.
Proof.
  revert m. induction cs as [|c cs IH]; intros m Hreach; simpl.
  - by intros [= <-].
  - destruct (RecordTask salt m (callNow c) (callUser c) (callName c) (callData c))
      as [m1|] eqn:Hstep; [simpl|done].
    apply IH. by econstructor.
Qed.

Lemma elem_of_insert_inv {A} (l : list A) i x y : x ∈ <[i:=y]> l → x = y ∨ x ∈ l.
Proof.
  intros [j Hj]%list_elem_of_lookup_1. destruct (decide (i = j)) as [->|Hne].
  - destruct (decide (j < length l)%nat).
    + rewrite list_lookup_insert_eq in Hj by done. left. congruence.
    + rewrite list_insert_ge in Hj by lia. right. by eapply list_elem_of_lookup_2.
  - rewrite list_lookup_insert_ne in Hj by done. right. by eapply list_elem_of_lookup_2.
Qed.

Lemma recorded_clockAhead m now u name h m' t :
  clockAhead m t → now ≤ t → recorded m now u name h m' → clockAhead m' t.
Proof.
  intros Hclock Hle Hrec slot Hin.
  assert (slot = mkTaskSlot u name now h ∨ slot ∈ slots m) as Hcase.
  { destruct Hrec; simpl in Hin.
    1-4: by apply elem_of_insert_inv in Hin.
    apply elem_of_app in Hin as [?| ->%list_elem_of_singleton]; [by right|by left]. }
  destruct Hcase as [->|Hold]; [done|by apply Hclock].
Qed.

Lemma lastReading_cons t c cs : lastReading t (c :: cs) = lastReading (callNow c) cs.
Proof.
  unfold lastReading. destruct cs as [|c' cs']; [done|].
  change (last (c :: c' :: cs')) with (last (c' :: cs')).
  destruct (last (c' :: cs')) eqn:Hl; [done|]. by apply last_None in Hl.
Qed.

Lemma run_reachableMonotone salt cs m m' t :
  reachableMonotone salt m → clockAhead m t → clockInOrder t cs = true →
  run salt cs m = Some m' →
  reachableMonotone salt m' ∧ clockAhead m' (lastReading t cs).
Proof.
  revert m t. induction cs as [|c cs IH]; intros m t Hreach Hclock Hord; simpl.
  - intros [= <-]. done.
  - destruct (RecordTask salt m (callNow c) (callUser c) (callName c) (callData c))
      as [m1|] eqn:Hstep; [simpl|done].
    simpl in Hord. apply andb_true_iff in Hord as [Hle%Z.leb_le Hord].
    assert (clockAhead m (callNow c)) as Hclock'.
    { intros slot Hin. specialize (Hclock slot Hin). lia. }
    pose proof (proj1 (reachableMonotone_invariant _ _ Hreach)) as Hc.
    pose proof (RecordTask_deterministic_recorded _ _ _ _ _ _ _ Hc Hstep) as Hrec.
    intros Hrun. destruct (IH m1 (callNow c)) as [Hreach1 Hclock1]; try done.
    + by econstructor.
    + eapply recorded_clockAhead; [exact Hclock'| |exact Hrec]; lia.
    + split; [done|]. by rewrite lastReading_cons.
Qed.

(** ** What each branch leaves *)

Lemma overwritten_own m idx old slot :
  indexConsistent m → slots m !! idx = Some old → UserID slot = UserID old →
  slots (overwritten m idx slot) !! idx = Some slot ∧
  (∀ k, k ≠ idx → slots (overwritten m idx slot) !! k = slots m !! k) ∧
  last (lruOrder (overwritten m idx slot)) = Some idx ∧
  (∀ v, ownedBy (overwritten m idx slot) v = ownedBy m v) ∧
  length (slots (overwritten m idx slot)) = length (slots m).
Proof.
  intros Hc Hold Hu. pose proof (lookup_lt_Some _ _ _ Hold) as Hlt.
  pose proof (overwritten_consistent _ _ _ _ Hc Hold Hu) as Hc'.
  split; [by apply list_lookup_insert_eq|].
  split; [by intros k Hk; apply list_lookup_insert_ne|].
  split; [apply last_snoc|].
  split; [|apply length_insert].
  intros v. by rewrite !ownedBy_listed.
Qed.

Lemma removeFirst_split idx (l : list nat) :
  idx ∈ l → NoDup l →
  ∃ before after,
    l = before ++ idx :: after ∧ (idx ∉ before) ∧ (idx ∉ after) ∧
    removeFirst idx l = before ++ after.
Proof.
  induction l as [|v l IH]; [by intros ?%elem_of_nil|].
  intros Hin [Hv Hnd]%NoDup_cons. cbn [removeFirst].
  destruct (decide (v = idx)) as [->|Hne].
  - exists [], l. split; [done|]. split; [by intros ?%elem_of_nil|]. done.
  - apply elem_of_cons in Hin as [->|Hin]; [done|].
    destruct (IH Hin Hnd) as (before & after & -> & Hb & Ha & ->).
    exists (v :: before), after. split; [done|]. split; [|done].
    intros [->|?]%elem_of_cons; done.
Qed.

(** The move of a cell to the most recently used end, on the LRU order
    itself: [idx] leaves the place where it was and is put last. *)
Lemma overwritten_moved m idx old slot :
  indexConsistent m → slots m !! idx = Some old →
  ∃ before after,
    lruOrder m = before ++ idx :: after ∧ (idx ∉ before) ∧ (idx ∉ after) ∧
    lruOrder (overwritten m idx slot) = before ++ after ++ [idx].
Proof.
  intros Hc Hold.
  assert (idx ∈ lruOrder m) as Hin
    by (apply (lru_iff_allocated m Hc); by eapply lookup_lt_Some).
  destruct (removeFirst_split idx (lruOrder m) Hin (lru_once m Hc))
    as (before & after & Hl & Hb & Ha & Hrem).
  exists before, after. split; [done|]. split; [done|]. split; [done|].
  cbn [overwritten lruOrder]. by rewrite Hrem, <- app_assoc.
Qed.

Lemma far_no_match salt m u text :
  indexConsistent m →
  (∀ j sj, j ∈ userSlotsOf m u → slots m !! j = Some sj → ¬ near (simhash64 salt text) sj) →
  findInheritable (slots m) (simhash64 salt text) (userSlotsOf m u) = Some None.
Proof.
  intros Hc Hfar. apply findInheritable_all_far. intros j Hj.
  destruct (listed_valid _ _ _ Hc Hj) as [s Hs]. exists s. split; [done|]. by eapply Hfar.
Qed.

Section StoreProperties.
Context (salt : string).

(** C1. From every store that calls of [RecordTask] build from the
    empty store, a call of [RecordTask], whatever its arguments, returns
    (it does not panic), and leaves at most 1000 cells and, for every
    user, at most 50 cells owned by the user and at most 50 indices in
    the list of the user. *)
Theorem RecordTask_within_capacity m now userID username data :
  reachable salt m →
  ∃ m', RecordTask salt m now userID username data = Some m' ∧
        (length (slots m') ≤ 1000)%nat ∧
        ∀ u, (ownedBy m' u ≤ 50)%nat ∧ (length (userSlotsOf m' u) ≤ 50)%nat.
Proof.
  intros [Hc Hcap]%reachable_invariant.
  destruct (RecordTask_recorded salt m now userID username data Hc) as (m' & Hrun & Hrec).
  pose proof (recorded_consistent _ _ _ _ _ _ Hc Hrec) as Hc'.
  destruct (recorded_capacity _ _ _ _ _ _ Hcap Hrec) as [Hg Hu].
  unfold len, MaxGlobalSlots, MaxUserSlots in *.
  exists m'. split; [done|]. split; [lia|]. intros u.
  rewrite ownedBy_listed by done. specialize (Hu u). lia.
Qed.

(** C2. [RecordTask], the one operation that writes to the store, keeps
    the index structures consistent. From a consistent store the call
    returns a store that is again consistent ([indexConsistent]: an
    index is in the list of a user exactly when it is the index of a
    cell owned by that user, no list repeats an index, no user is kept
    with an empty list, the LRU order holds each index of a cell once):
    the lists of two users share no index and their union is the set of
    the indices of the cells. When moreover the LRU order of the store
    follows the timestamps and the clock has not stepped back, the LRU
    order of the new store follows the timestamps, and its head is a
    cell with the least timestamp of the store. *)
Theorem RecordTask_index_consistent m now userID username data :
  indexConsistent m →
  ∃ m', RecordTask salt m now userID username data = Some m' ∧
    indexConsistent m' ∧
    (∀ u1 u2 idx, idx ∈ userSlotsOf m' u1 → idx ∈ userSlotsOf m' u2 → u1 = u2) ∧
    (∀ idx, (idx < length (slots m'))%nat ↔ ∃ u, idx ∈ userSlotsOf m' u) ∧
    (lruByStamp m → clockAhead m now →
     lruByStamp m' ∧
     ∀ idx rest old slot,
       lruOrder m' = idx :: rest → slots m' !! idx = Some old → slot ∈ slots m' →
       UpdatedAt old ≤ UpdatedAt slot).
Proof.
  intros Hc.
  destruct (RecordTask_recorded salt m now userID username data Hc) as (m' & Hrun & Hrec).
  pose proof (recorded_consistent _ _ _ _ _ _ Hc Hrec) as Hc'.
  exists m'. split; [done|]. split; [done|]. split; [|split].
  - intros u1 u2 idx (s1 & H1 & <-)%(listed_iff_owned m' Hc') (s2 & H2 & <-)%(listed_iff_owned m' Hc').
    congruence.
  - intros idx. split.
    + intros [s Hs1]%lookup_lt_is_Some_2. exists (UserID s).
      apply (listed_iff_owned m' Hc'). eauto.
    + intros [u (s & Hs1 & _)%(listed_iff_owned m' Hc')]. by eapply lookup_lt_Some.
  - intros Hs Hclock.
    pose proof (recorded_lruByStamp _ _ _ _ _ _ Hc Hclock Hs Hrec) as Hs'.
    split; [done|]. intros idx rest old slot Hlru Hold Hin. by eapply lru_head_least.
Qed.

(** C3. A user below the bound of 50 sends a text whose fingerprint is
    within distance 5 of the fingerprint of one of the user's cells. Then
    the first such cell [idx] in the order of the user's list is
    overwritten in place with the user, the new name, [now] and the new
    fingerprint; every other cell is unchanged; [idx] moves to the most
    recently used end of the LRU order, that is, it leaves the one place
    where it was, the other indices keep their order, and it is put
    last; the lists of the users, the number of cells of each user and
    the number of cells are unchanged. *)
Theorem RecordTask_match m now userID username text j sj :
  indexConsistent m →
  len (userSlotsOf m userID) < MaxUserSlots →
  j ∈ userSlotsOf m userID → slots m !! j = Some sj → near (simhash64 salt text) sj →
  ∃ pre idx post old m',
    userSlotsOf m userID = pre ++ idx :: post ∧
    slots m !! idx = Some old ∧ near (simhash64 salt text) old ∧
    (∀ k sk, k ∈ pre → slots m !! k = Some sk → ¬ near (simhash64 salt text) sk) ∧
    RecordTask salt m now userID username text = Some m' ∧
    slots m' = <[idx := mkTaskSlot userID username now (simhash64 salt text)]> (slots m) ∧
    slots m' !! idx = Some (mkTaskSlot userID username now (simhash64 salt text)) ∧
    (∀ k, k ≠ idx → slots m' !! k = slots m !! k) ∧
    lruOrder m' = removeFirst idx (lruOrder m) ++ [idx] ∧
    last (lruOrder m') = Some idx ∧
    (∃ before after,
       lruOrder m = before ++ idx :: after ∧ (idx ∉ before) ∧ (idx ∉ after) ∧
       lruOrder m' = before ++ after ++ [idx]) ∧
    userSlotIdx m' = userSlotIdx m ∧
    (∀ u, ownedBy m' u = ownedBy m u) ∧
    length (slots m') = length (slots m).
Proof.
  intros Hc _ Hj Hsj Hnear.
  destruct (RecordTask_recorded salt m now userID username text Hc) as (m' & Hrun & Hrec).
  destruct Hrec as [idx old Hf Hold Hu|idx old Hf _ _ _ _|idx rest old Hf _ _ _ _ _
                   |idx rest old Hf _ _ _ _ _|Hf _ _].
  2-5: (destruct (findInheritable_none _ _ _ Hf j Hj) as (s & Hs & Hfar);
        assert (s = sj) as -> by congruence; done).
  destruct (findInheritable_found _ _ _ _ Hf) as (pre & post & slot & Hl & Hslot & Hn & Hfar).
  assert (slot = old) as -> by congruence.
  destruct (overwritten_own m idx old (mkTaskSlot userID username now (simhash64 salt text)))
    as (H1 & H2 & H3 & H4 & H5); [done..|].
  exists pre, idx, post, old, (overwritten m idx (mkTaskSlot userID username now (simhash64 salt text))).
  repeat (split; [done|]). split; [by eapply overwritten_moved|].
  repeat (split; [done|]). done.
Qed.

(** C4, for a store below the global bound. A user below the bound of
    50, in a store of fewer than 1000 cells, sends a text whose
    fingerprint is farther than 5 from each of the user's cells. Then a
    new cell is appended to the store, its index is appended to the list
    of the user and to the LRU order, the user owns one cell more, the
    other users own what they owned, and the store has one cell more. *)
Theorem RecordTask_allocate m now userID username text :
  indexConsistent m →
  len (userSlotsOf m userID) < MaxUserSlots →
  len (slots m) < MaxGlobalSlots →
  (∀ j sj, j ∈ userSlotsOf m userID → slots m !! j = Some sj →
           ¬ near (simhash64 salt text) sj) →
  ∃ m',
    RecordTask salt m now userID username text = Some m' ∧
    slots m' = slots m ++ [mkTaskSlot userID username now (simhash64 salt text)] ∧
    userSlotsOf m' userID = userSlotsOf m userID ++ [length (slots m)] ∧
    (∀ u, u ≠ userID → userSlotsOf m' u = userSlotsOf m u) ∧
    lruOrder m' = lruOrder m ++ [length (slots m)] ∧
    ownedBy m' userID = S (ownedBy m userID) ∧
    (∀ u, u ≠ userID → ownedBy m' u = ownedBy m u) ∧
    length (slots m') = S (length (slots m)).
Proof.
  intros Hc Hroom Hfree Hfar.
  pose proof (far_no_match salt m userID text Hc Hfar) as Hnone.
  destruct (RecordTask_recorded salt m now userID username text Hc) as (m' & Hrun & Hrec).
  destruct Hrec as [idx old Hf _ _|idx old _ Hfull _ _ _|idx rest old _ _ Hfull _ _ _
                   |idx rest old _ _ Hfull _ _ _|_ _ _]; [congruence|lia..|].
  pose proof (allocate_consistent m userID username now (simhash64 salt text) Hc) as Hc'.
  eexists. split; [done|]. split; [done|].
  split; [by rewrite userSlotsOf_allocate, decide_True|].
  split; [by intros u Hu; rewrite userSlotsOf_allocate, decide_False|].
  split; [done|].
  split; [by rewrite !ownedBy_listed, userSlotsOf_allocate, decide_True, length_app, Nat.add_1_r|].
  split; [by intros u Hu; rewrite !ownedBy_listed, userSlotsOf_allocate, decide_False|].
  simpl. by rewrite length_app, Nat.add_1_r.
Qed.

(** C5. A user with exactly 50 cells sends a text whose fingerprint is
    farther than 5 from each of them. Then the cell [idx] that
    [findOldestUserSlot] selects, a cell of the user whose timestamp is
    the least among the user's cells, is overwritten with the new name,
    [now] and the new fingerprint and moves to the most recently used
    end of the LRU order (it leaves the one place where it was, the
    other indices keep their order, and it is put last); the lists of
    the users, the number of cells of each user and the number of cells
    are unchanged. *)
Theorem RecordTask_user_full m now userID username text :
  indexConsistent m →
  len (userSlotsOf m userID) = MaxUserSlots →
  (∀ j sj, j ∈ userSlotsOf m userID → slots m !! j = Some sj →
           ¬ near (simhash64 salt text) sj) →
  ∃ idx old m',
    idx ∈ userSlotsOf m userID ∧ slots m !! idx = Some old ∧
    (∀ j sj, j ∈ userSlotsOf m userID → slots m !! j = Some sj →
             UpdatedAt old ≤ UpdatedAt sj) ∧
    findOldestUserSlot m userID = Some (Z.of_nat idx) ∧
    RecordTask salt m now userID username text = Some m' ∧
    slots m' = <[idx := mkTaskSlot userID username now (simhash64 salt text)]> (slots m) ∧
    slots m' !! idx = Some (mkTaskSlot userID username now (simhash64 salt text)) ∧
    (∀ k, k ≠ idx → slots m' !! k = slots m !! k) ∧
    lruOrder m' = removeFirst idx (lruOrder m) ++ [idx] ∧
    last (lruOrder m') = Some idx ∧
    (∃ before after,
       lruOrder m = before ++ idx :: after ∧ (idx ∉ before) ∧ (idx ∉ after) ∧
       lruOrder m' = before ++ after ++ [idx]) ∧
    userSlotIdx m' = userSlotIdx m ∧
    (∀ u, ownedBy m' u = ownedBy m u) ∧
    length (slots m') = length (slots m).
Proof.
  intros Hc Hfull Hfar.
  pose proof (far_no_match salt m userID text Hc Hfar) as Hnone.
  destruct (RecordTask_recorded salt m now userID username text Hc) as (m' & Hrun & Hrec).
  destruct Hrec as [idx old Hf _ _|idx old _ _ Hfind Hold Hu|idx rest old _ Hroom _ _ _ _
                   |idx rest old _ Hroom _ _ _ _|_ Hroom _]; [congruence| |lia..].
  destruct (findOldestUserSlot_least m userID) as (idx' & s & Hfind' & Hin & Hs & Hmin).
  { intros i. by apply listed_valid. }
  { intros Hnil. rewrite Hnil in Hfull. done. }
  assert (idx' = idx) as -> by (rewrite Hfind in Hfind'; injection Hfind'; lia).
  assert (s = old) as -> by congruence.
  destruct (overwritten_own m idx old (mkTaskSlot userID username now (simhash64 salt text)))
    as (H1 & H2 & H3 & H4 & H5); [done..|].
  exists idx, old, (overwritten m idx (mkTaskSlot userID username now (simhash64 salt text))).
  repeat (split; [done|]). split; [by eapply overwritten_moved|].
  repeat (split; [done|]). done.
Qed.


End StoreProperties.

(** ** The sort of the ranking *)

Lemma swapIfGreater_middle pre x mid y todo :
  swapIfGreater (length pre) (pre ++ x :: mid ++ y :: todo) (length pre + S (length mid))
  = if ActiveSlots x <? ActiveSlots y then pre ++ y :: mid ++ x :: todo
    else pre ++ x :: mid ++ y :: todo.
Proof.
  unfold swapIfGreater. rewrite list_lookup_middle by done.
  assert ((pre ++ x :: mid ++ y :: todo) !! (length pre + S (length mid))%nat = Some y) as ->.
  { rewrite lookup_app_r by lia.
    replace (length pre + S (length mid) - length pre)%nat with (S (length mid)) by lia.
    simpl. by apply list_lookup_middle. }
  destruct (ActiveSlots x <? ActiveSlots y); [|done].
  replace (length pre + S (length mid))%nat with (length (pre ++ x :: mid) + 0)%nat
    by (rewrite length_app; simpl; lia).
  rewrite (app_assoc pre (x :: mid) (y :: todo)) at 1.
  change (pre ++ x :: mid) with (pre ++ [x] ++ mid) at 2.
  rewrite insert_app_r. simpl.
  rewrite <- app_assoc. simpl.
  replace (length pre) with (length pre + 0)%nat at 1 by lia.
  by rewrite insert_app_r.
Qed.

Lemma sortInner_from todo : ∀ pre x mid,
  fold_left (swapIfGreater (length pre))
            (seq (length pre + S (length mid)) (length todo))
            (pre ++ x :: mid ++ todo)
  = pre ++ (bubble x todo).1 :: mid ++ (bubble x todo).2.
Proof.
  induction todo as [|y todo IH]; intros pre x mid; [done|].
  cbn [length seq fold_left]. rewrite swapIfGreater_middle. cbn [bubble].
  destruct (ActiveSlots x <? ActiveSlots y).
  - specialize (IH pre y (mid ++ [x])).
    rewrite length_app in IH. cbn [length] in IH.
    replace (length pre + S (length mid + 1))%nat
      with (S (length pre + S (length mid))) in IH by lia.
    rewrite <- !app_assoc in IH. cbn [app] in IH. rewrite IH.
    by destruct (bubble y todo).
  - specialize (IH pre x (mid ++ [y])).
    rewrite length_app in IH. cbn [length] in IH.
    replace (length pre + S (length mid + 1))%nat
      with (S (length pre + S (length mid))) in IH by lia.
    rewrite <- !app_assoc in IH. cbn [app] in IH. rewrite IH.
    by destruct (bubble x todo).
Qed.

Lemma bubble_length x rest : length (bubble x rest).2 = length rest.
Proof.
  revert x. induction rest as [|y rest IH]; intros x; [done|]. cbn [bubble].
  destruct (ActiveSlots x <? ActiveSlots y).
  - specialize (IH y). destruct (bubble y rest). simpl in *. by rewrite IH.
  - specialize (IH x). destruct (bubble x rest). simpl in *. by rewrite IH.
Qed.

Lemma bubble_perm x rest : (bubble x rest).1 :: (bubble x rest).2 ≡ₚ x :: rest.
Proof.
  revert x. induction rest as [|y rest IH]; intros x; [done|]. cbn [bubble].
  destruct (ActiveSlots x <? ActiveSlots y).
  - specialize (IH y). destruct (bubble y rest) as [top r]. simpl in *.
    by rewrite (perm_swap x top r), IH.
  - specialize (IH x). destruct (bubble x rest) as [top r]. simpl in *.
    rewrite (perm_swap y top r), IH. apply perm_swap.
Qed.

Lemma bubble_top x rest :
  ranksBefore (bubble x rest).1 x ∧ Forall (ranksBefore (bubble x rest).1) (bubble x rest).2.
Proof.
  unfold ranksBefore. revert x. induction rest as [|y rest IH]; intros x; cbn [bubble].
  - simpl. split; [lia|constructor].
  - destruct (Z.ltb_spec (ActiveSlots x) (ActiveSlots y)).
    + destruct (IH y) as [Hy Hall]. destruct (bubble y rest) as [top r]. simpl in *.
      split; [lia|]. constructor; [lia|done].
    + destruct (IH x) as [Hx Hall]. destruct (bubble x rest) as [top r]. simpl in *.
      split; [done|]. constructor; [lia|done].
Qed.

Lemma sortOuter_from n : ∀ pre l,
  length l = S n →
  fold_left sortInner (seq (length pre) n) (pre ++ l) = pre ++ selectAll n l.
Proof.
  induction n as [|n IH]; intros pre l Hlen; [done|].
  destruct l as [|x rest]; [done|]. cbn [seq fold_left selectAll].
  assert (sortInner (pre ++ x :: rest) (length pre)
          = pre ++ (bubble x rest).1 :: (bubble x rest).2) as ->.
  { unfold sortInner. rewrite length_app. cbn [length].
    replace (length pre + S (length rest) - S (length pre))%nat with (length rest) by lia.
    pose proof (sortInner_from rest pre x []) as H. cbn [length app] in H.
    by replace (length pre + 1)%nat with (S (length pre)) in H by lia. }
  pose proof (bubble_length x rest) as Hl. destruct (bubble x rest) as [top r]. simpl in *.
  specialize (IH (pre ++ [top]) r). rewrite length_app in IH. cbn [length] in IH.
  replace (length pre + 1)%nat with (S (length pre)) in IH by lia.
  rewrite <- !app_assoc in IH. apply IH. lia.
Qed.

Lemma sortByActiveSlots_selectAll l :
  sortByActiveSlots l = selectAll (length l - 1) l.
Proof.
  unfold sortByActiveSlots. destruct l as [|x rest]; [done|].
  apply (sortOuter_from (length (x :: rest) - 1) [] (x :: rest)). simpl. lia.
Qed.

Lemma selectAll_perm n l : selectAll n l ≡ₚ l.
Proof.
  revert l. induction n as [|n IH]; intros l; [done|].
  destruct l as [|x rest]; [done|]. cbn [selectAll].
  pose proof (bubble_perm x rest) as Hp. destruct (bubble x rest) as [top r]. simpl in *.
  by rewrite IH.
Qed.

Lemma selectAll_sorted n l :
  (length l ≤ S n)%nat → StronglySorted ranksBefore (selectAll n l).
Proof.
  revert l. induction n as [|n IH]; intros l Hlen.
  - destruct l as [|x [|y l]]; simpl in *; [constructor|repeat constructor|lia].
  - destruct l as [|x rest]; [constructor|]. cbn [selectAll].
    pose proof (bubble_top x rest) as [_ Hall]. pose proof (bubble_length x rest) as Hl.
    destruct (bubble x rest) as [top r]. simpl in *.
    constructor; [apply IH; lia|]. by rewrite selectAll_perm.
Qed.

Lemma sortByActiveSlots_perm l : sortByActiveSlots l ≡ₚ l.
Proof. rewrite sortByActiveSlots_selectAll. apply selectAll_perm. Qed.

Lemma sortByActiveSlots_sorted l : StronglySorted ranksBefore (sortByActiveSlots l).
Proof. rewrite sortByActiveSlots_selectAll. apply selectAll_sorted. lia. Qed.

(** ** The counting loops *)

Lemma wrap64_id z : - 2 ^ 63 ≤ z < 2 ^ 63 → wrap64 z = z.
Proof. intros Hz. unfold wrap64. rewrite Z.mod_small; lia. Qed.

Lemma effectiveWindow_pos w : w < 2 ^ 63 → 0 < effectiveWindow w < 2 ^ 63.
Proof.
  intros Hw. unfold effectiveWindow, ActiveWindowSeconds.
  destruct (Z.leb_spec w 0); lia.
Qed.

Lemma tally_fold cutoff (ss : list TaskSlot) u :
  fold_left (tally cutoff) ss ∅ !! u
  = match filter (fun slot => UserID slot = u ∧ cutoff ≤ UpdatedAt slot) ss with
    | [] => None
    | first :: rest => Some (mkCount u (Username first) (len (first :: rest)))
    end.
Proof.
  induction ss as [|x ss IH] using rev_ind; [cbn [fold_left]; by rewrite lookup_empty|].
  rewrite fold_left_app, filter_app. cbn [fold_left]. unfold tally at 1.
  destruct (Z.leb_spec cutoff (UpdatedAt x)) as [Hact|Hold].
  - destruct (decide (UserID x = u)) as [Hu|Hu].
    + rewrite Hu, lookup_insert_eq, IH. rewrite filter_cons_True by done.
      rewrite filter_nil.
      destruct (filter (λ slot, UserID slot = u ∧ cutoff ≤ UpdatedAt slot) ss) as [|f r];
        simpl; unfold len; [done|].
      do 2 f_equal. cbn [length]. rewrite length_app. cbn [length]. lia.
    + rewrite lookup_insert_ne, IH by done.
      rewrite filter_cons_False by tauto. by rewrite filter_nil, app_nil_r.
  - rewrite IH. rewrite filter_cons_False by lia. by rewrite filter_nil, app_nil_r.
Qed.

Lemma userCounts_lookup m now w u :
  0 ≤ now < 2 ^ 63 → - 2 ^ 63 ≤ w < 2 ^ 63 →
  userCounts m now w !! u
  = match activeOf m (now - effectiveWindow w) u with
    | [] => None
    | first :: rest => Some (mkCount u (Username first) (len (first :: rest)))
    end.
Proof.
  intros Hnow Hw. unfold userCounts, activeOf.
  pose proof (effectiveWindow_pos w ltac:(lia)).
  rewrite wrap64_id by lia. apply tally_fold.
Qed.

Lemma userCounts_key m now w u c :
  userCounts m now w !! u = Some c → CountUserID c = u.
Proof.
  unfold userCounts. rewrite tally_fold.
  destruct (filter _ _); [done|]. by intros [= <-].
Qed.

Lemma activeCount_fold cutoff (ss : list TaskSlot) acc :
  fold_left (fun c slot => if cutoff <=? UpdatedAt slot then c + 1 else c) ss acc
  = acc + len (filter (fun slot => cutoff ≤ UpdatedAt slot) ss).
Proof.
  revert acc. induction ss as [|x ss IH]; intros acc; cbn [fold_left].
  - rewrite filter_nil. unfold len. simpl. lia.
  - rewrite IH. destruct (Z.leb_spec cutoff (UpdatedAt x)).
    + rewrite filter_cons_True by done. unfold len. simpl length. lia.
    + rewrite filter_cons_False by lia. done.
Qed.

Lemma rank_elem_of m now w rank c :
  GetActiveTaskRank m now w rank →
  c ∈ rank ↔ userCounts m now w !! CountUserID c = Some c.
Proof.
  intros [entries Hperm]. rewrite sortByActiveSlots_perm, Hperm.
  rewrite list_elem_of_fmap. split.
  - intros ([u c'] & -> & Hin%elem_of_map_to_list). simpl.
    by rewrite (userCounts_key _ _ _ _ _ Hin).
  - intros Hc. exists (CountUserID c, c). split; [done|]. by apply elem_of_map_to_list.
Qed.

Lemma rank_users_once m now w rank :
  GetActiveTaskRank m now w rank → NoDup (CountUserID <$> rank).
Proof.
  intros [entries Hperm]. rewrite sortByActiveSlots_perm, Hperm.
  assert (CountUserID <$> (map_to_list (userCounts m now w)).*2
          = (map_to_list (userCounts m now w)).*1) as ->.
  { rewrite <- list_fmap_compose. apply Forall_fmap_ext_1, Forall_forall.
    intros [u c] Hin%elem_of_map_to_list. simpl. by eapply userCounts_key. }
  apply NoDup_fst_map_to_list.
Qed.

Lemma rankInKeyOrder_rank m now w : GetActiveTaskRank m now w (rankInKeyOrder m now w).
Proof. by constructor. Qed.

Lemma owners_dom m : indexConsistent m → dom (userSlotIdx m) = owners m.
Proof.
  intros Hc. apply set_eq. intros u. unfold owners.
  rewrite elem_of_dom, elem_of_list_to_set, list_elem_of_fmap. split.
  - intros [l Hl]. destruct l as [|i l]; [by apply (listed_nonempty m Hc) in Hl|].
    assert (i ∈ userSlotsOf m u) as Hin by (unfold userSlotsOf; rewrite Hl; by left).
    apply (listed_iff_owned m Hc) in Hin as (s & Hs & Hu). exists s. split; [done|].
    by eapply list_elem_of_lookup_2.
  - intros (s & -> & [i Hi]%list_elem_of_lookup_1).
    assert (i ∈ userSlotsOf m (UserID s)) as Hin by (apply (listed_iff_owned m Hc); eauto).
    unfold userSlotsOf in Hin. destruct (userSlotIdx m !! UserID s); [by eexists|].
    by apply elem_of_nil in Hin.
Qed.

(** C8, with the default window. [GetActiveTaskRank] uses the window
    [windowSeconds] when it is positive and 30 seconds otherwise. With
    [cutoff] the reading of the clock minus that window, every result of
    the call lists a user at most once; it has the entry [(u, name, n)]
    exactly when the user [u] has a cell with a timestamp of at least
    [cutoff], [n] being the number of such cells of [u] and [name] the
    name in the first of them; and it does not list an entry before one
    with more cells. [GetHighActiveUsers] returns the entries of such a
    result whose count is at least the threshold, in the same order. The
    call has a result. *)
Theorem GetActiveTaskRank_counts m now windowSeconds threshold :
  0 ≤ now < 2 ^ 63 → - 2 ^ 63 ≤ windowSeconds < 2 ^ 63 →
  let cutoff := now - (if windowSeconds <=? 0 then 30 else windowSeconds) in
  GetActiveTaskRank m now windowSeconds (rankInKeyOrder m now windowSeconds) ∧
  (∀ rank, GetActiveTaskRank m now windowSeconds rank →
     NoDup (CountUserID <$> rank) ∧
     (∀ u name n,
        mkCount u name n ∈ rank ↔
        ∃ first rest, activeOf m cutoff u = first :: rest ∧
                      name = Username first ∧ n = len (first :: rest)) ∧
     StronglySorted ranksBefore rank ∧
     GetHighActiveUsers m now windowSeconds threshold
       (filter (fun c => threshold ≤ ActiveSlots c) rank)) ∧
  (∀ high, GetHighActiveUsers m now windowSeconds threshold high →
     ∃ rank, GetActiveTaskRank m now windowSeconds rank ∧
             high = filter (fun c => threshold ≤ ActiveSlots c) rank).
Proof.
  intros Hnow Hw cutoff. split; [apply rankInKeyOrder_rank|]. split.
  - intros rank Hrank. split; [by eapply rank_users_once|]. split; [|split].
    + intros u name n. rewrite (rank_elem_of _ _ _ _ _ Hrank). simpl.
      rewrite userCounts_lookup by done.
      change (now - effectiveWindow windowSeconds) with cutoff.
      destruct (activeOf m cutoff u) as [|first rest].
      * split; [done|]. by intros (? & ? & ? & _).
      * split.
        -- intros [= <- <-]. by eexists _, _.
        -- intros (f & r & Heq & -> & ->). by injection Heq as -> ->.
    + destruct Hrank. apply sortByActiveSlots_sorted.
    + by constructor.
  - intros high [rank Hrank]. by exists rank.
Qed.

(** C9, with the users that own a cell. From one value of the store,
    [GetStats] reports the number of cells, the number of cells with a
    timestamp of at least [now - 30], the bounds 1000 and 50, the window
    30, and as [active_users] the number of distinct users that own a
    cell, touched within the window or not. *)
Theorem GetStats_fields m now :
  indexConsistent m → 0 ≤ now < 2 ^ 63 →
  total_slots (GetStats m now) = len (slots m) ∧
  active_slots (GetStats m now)
  = len (filter (fun slot => now - 30 ≤ UpdatedAt slot) (slots m)) ∧
  max_global_slots (GetStats m now) = 1000 ∧
  max_user_slots (GetStats m now) = 50 ∧
  window_seconds (GetStats m now) = 30 ∧
  active_users (GetStats m now) = Z.of_nat (size (owners m)) ∧
  (∀ u, u ∈ owners m ↔ ∃ slot, slot ∈ slots m ∧ UserID slot = u).
Proof.
  intros Hc Hnow. unfold GetStats. simpl.
  split; [done|]. split.
  { rewrite activeCount_fold. unfold ActiveWindowSeconds. rewrite wrap64_id by lia. lia. }
  split; [done|]. split; [done|]. split; [done|]. split.
  { by rewrite <- (owners_dom m Hc), size_dom. }
  intros u. unfold owners. rewrite elem_of_list_to_set, list_elem_of_fmap.
  split; [intros (s & -> & Hs); by eauto|intros (s & Hs & <-); by eauto].
Qed.


(** ** The example executions *)

Lemma run_invariants salt cs t m :
  clockInOrder t cs = true → run salt cs newManager = Some m →
  reachable salt m ∧ indexConsistent m ∧ lruByStamp m ∧ clockAhead m (lastReading t cs).
Proof.
  intros Hord Hrun.
  destruct (run_reachableMonotone salt cs newManager m t) as [Hreach Hclock]; try done.
  - constructor.
  - by intros slot ?%elem_of_nil.
  - destruct (reachableMonotone_invariant _ _ Hreach) as [Hc Hs].
    split; [by apply reachableMonotone_reachable|done].
Qed.

Lemma clockAhead_later m t now : clockAhead m t → t ≤ now → clockAhead m now.
Proof. intros Hclock Hle slot Hin. specialize (Hclock slot Hin). lia. Qed.

Lemma no_match_far ss h (l : list nat) :
  findInheritable ss h l = Some None →
  ∀ j sj, j ∈ l → ss !! j = Some sj → ¬ near h sj.
Proof.
  intros Hf j sj Hj Hsj. destruct (findInheritable_none _ _ _ Hf j Hj) as (s & Hs & Hfar).
  by assert (sj = s) as -> by congruence.
Qed.

Lemma run_default salt cs :
  bool_decide (is_Some (run salt cs newManager)) = true →
  run salt cs newManager = Some (default newManager (run salt cs newManager)).
Proof. intros [m' ->]%bool_decide_eq_true. done. Qed.

Lemma smallStore_run : run zeroSalt smallCalls newManager = Some smallStore.
Proof. apply run_default. vm_compute. reflexivity. Qed.

Lemma fiftyStore_run : run zeroSalt fiftyCalls newManager = Some fiftyStore.
Proof. apply run_default. vm_compute. reflexivity. Qed.

Lemma fullStore_run : run zeroSalt thousandCalls newManager = Some fullStore.
Proof. apply run_default. vm_compute. reflexivity. Qed.

Lemma smallStore_invariants :
  reachable zeroSalt smallStore ∧ indexConsistent smallStore ∧ lruByStamp smallStore ∧
  clockAhead smallStore 15.
Proof. apply (run_invariants zeroSalt smallCalls 0); [vm_compute; reflexivity|apply smallStore_run]. Qed.

Lemma fiftyStore_invariants :
  reachable zeroSalt fiftyStore ∧ indexConsistent fiftyStore ∧ lruByStamp fiftyStore ∧
  clockAhead fiftyStore 149.
Proof. apply (run_invariants zeroSalt fiftyCalls 0); [vm_compute; reflexivity|apply fiftyStore_run]. Qed.

Lemma fullStore_invariants :
  reachable zeroSalt fullStore ∧ indexConsistent fullStore ∧ lruByStamp fullStore ∧
  clockAhead fullStore 0.
Proof. apply (run_invariants zeroSalt thousandCalls 0); [vm_compute; reflexivity|apply fullStore_run]. Qed.

(** ** The properties on the example executions *)

Lemma simhash64_votes_hamming64_popcount_hello :
  whiteRune wideSpace "world" ∧
  solidRunes "hello" EmptyString ∧
  solidRunes "hello" (wideSpace ++ "world") ∧
  Fields (wideSpace ++ "world") = Fields "world" ∧
  Fields "hello" = ["hello"%string] ∧
  Fields ("hello" ++ wideSpace ++ "world") = "hello"%string :: Fields "world" ∧
  Z.testbit (tokenHash64 zeroSalt "hello") 3
  = Z.testbit (nth (Z.to_nat (3 / 8)) (Sha1.sum (bytes zeroSalt ++ bytes "hello")) 0) (3 mod 8) ∧
  simhash64 zeroSalt "  " = 0 ∧
  Z.testbit (simhash64 zeroSalt ("hello" ++ wideSpace ++ "world")) 3
  = negb (bool_decide (Fields ("hello" ++ wideSpace ++ "world") = [])) && (0 <=? 3) && (3 <? 64)
    && (0 <=? signedVote zeroSalt 3 (Fields ("hello" ++ wideSpace ++ "world"))) ∧
  hamming64 5 6 = OnesCount64 (Z.lxor 5 6) ∧
  hamming64 5 6
  = Z.of_nat (length (filter (fun k : nat => Z.testbit 5 (Z.of_nat k) ≠ Z.testbit 6 (Z.of_nat k))
                             (seq 0 64))) ∧
  0 ≤ hamming64 5 6 ≤ 64 ∧
  hamming64 (simhash64 zeroSalt ("hello" ++ wideSpace ++ "world"))
            (simhash64 zeroSalt ("hello" ++ wideSpace ++ "world")) = 0 ∧
  Fields ("hello" ++ wideSpace ++ "world") = ["hello"; "world"]%string ∧
  tokenHash64 zeroSalt "hello" = 17467582863777943735 ∧
  tokenHash64 zeroSalt "world" = 987448569815221084 ∧
  simhash64 zeroSalt ("hello" ++ wideSpace ++ "world") = 18446004374408778751.
Proof.
  assert (whiteRune wideSpace "world") as Hgap.
  { exists 12288. split; [split; [discriminate|vm_compute; reflexivity]|reflexivity]. }
  assert (∀ rest : string,
            decodeRune (bytes ("o" ++ rest)) = (111, 1%nat) →
            decodeRune (bytes ("hello" ++ rest)) = (104, 1%nat) →
            solidRunes "hello" rest) as Hsolid.
  { intros rest Ho Hh.
    apply (solid_more "h" "ello" rest 104); [split; [discriminate|exact Hh]|reflexivity|].
    apply (solid_more "e" "llo" rest 101); [split; [discriminate|reflexivity]|reflexivity|].
    apply (solid_more "l" "lo" rest 108); [split; [discriminate|reflexivity]|reflexivity|].
    apply (solid_more "l" "o" rest 108); [split; [discriminate|reflexivity]|reflexivity|].
    apply (solid_last "o" rest 111); [split; [discriminate|exact Ho]|reflexivity]. }
  pose proof (Hsolid EmptyString eq_refl eq_refl) as Hlast.
  pose proof (Hsolid (wideSpace ++ "world")%string eq_refl eq_refl) as Hfirst.
  assert (0 ≤ 3 < 64) as Hi by lia.
  assert (Fields "  " = []) as Hblank by (vm_compute; reflexivity).
  destruct (simhash64_votes_hamming64_popcount zeroSalt ("hello" ++ wideSpace ++ "world")
              wideSpace "hello" "world" "hello" 3 5 6)
    as (_ & Hw & Hs & Hsw & Hhash & _ & Hbit & Hpop & Hdiff & Hrange & Hself).
  destruct (simhash64_votes_hamming64_popcount zeroSalt "  " wideSpace "hello" "world" "hello"
              3 5 6) as (_ & _ & _ & _ & _ & Hzero & _).
  split; [exact Hgap|]. split; [exact Hlast|]. split; [exact Hfirst|].
  split; [exact (Hw Hgap)|]. split; [exact (Hs Hlast)|]. split; [exact (Hsw Hfirst Hgap)|].
  split; [exact (Hhash Hi)|]. split; [exact (Hzero Hblank)|]. split; [exact Hbit|].
  split; [exact Hpop|]. split; [exact Hdiff|]. split; [exact Hrange|]. split; [exact Hself|].
  split; [vm_compute; reflexivity|]. split; [vm_compute; reflexivity|].
  split; vm_compute; reflexivity.
Defined.

Lemma simhash64_token_multiset_reordered :
  Fields "hello world" ≡ₚ Fields " world  hello " ∧
  simhash64 zeroSalt "hello world" = simhash64 zeroSalt " world  hello " ∧
  hamming64 (simhash64 zeroSalt "hello world") (simhash64 zeroSalt " world  hello ") = 0.
Proof.
  assert (Fields "hello world" ≡ₚ Fields " world  hello ") as H.
  { vm_compute. apply perm_swap. }
  split; [exact H|]. exact (simhash64_token_multiset zeroSalt _ _ H).
Defined.

Lemma RecordTask_within_capacity_small :
  reachable zeroSalt smallStore ∧
  ∃ m', RecordTask zeroSalt smallStore 20 3 "cy" "alpha beta" = Some m' ∧
        (length (slots m') ≤ 1000)%nat ∧
        ∀ u, (ownedBy m' u ≤ 50)%nat ∧ (length (userSlotsOf m' u) ≤ 50)%nat.
Proof.
  split; [apply smallStore_invariants|].
  apply (RecordTask_within_capacity zeroSalt smallStore 20 3 "cy" "alpha beta").
  apply smallStore_invariants.
Defined.

Lemma RecordTask_index_consistent_small :
  indexConsistent smallStore ∧ lruByStamp smallStore ∧ clockAhead smallStore 20 ∧
  ∃ m', RecordTask zeroSalt smallStore 20 3 "cy" "alpha beta" = Some m' ∧
    indexConsistent m' ∧
    (∀ u1 u2 idx, idx ∈ userSlotsOf m' u1 → idx ∈ userSlotsOf m' u2 → u1 = u2) ∧
    (∀ idx, (idx < length (slots m'))%nat ↔ ∃ u, idx ∈ userSlotsOf m' u) ∧
    (lruByStamp smallStore → clockAhead smallStore 20 →
     lruByStamp m' ∧
     ∀ idx rest old slot,
       lruOrder m' = idx :: rest → slots m' !! idx = Some old → slot ∈ slots m' →
       UpdatedAt old ≤ UpdatedAt slot).
Proof.
  destruct smallStore_invariants as (_ & Hc & Hs & Hclock).
  assert (clockAhead smallStore 20) as Hclock' by (eapply clockAhead_later; [exact Hclock|lia]).
  split; [exact Hc|]. split; [exact Hs|]. split; [exact Hclock'|].
  exact (RecordTask_index_consistent zeroSalt smallStore 20 3 "cy" "alpha beta" Hc).
Defined.

Lemma RecordTask_match_small :
  indexConsistent smallStore ∧
  len (userSlotsOf smallStore 1) < MaxUserSlots ∧
  0%nat ∈ userSlotsOf smallStore 1 ∧
  slots smallStore !! 0%nat
  = Some (mkTaskSlot 1 "ann" 10 (simhash64 zeroSalt "alpha beta")) ∧
  near (simhash64 zeroSalt "beta alpha")
       (mkTaskSlot 1 "ann" 10 (simhash64 zeroSalt "alpha beta")) ∧
  ∃ pre idx post old m',
    userSlotsOf smallStore 1 = pre ++ idx :: post ∧
    slots smallStore !! idx = Some old ∧ near (simhash64 zeroSalt "beta alpha") old ∧
    (∀ k sk, k ∈ pre → slots smallStore !! k = Some sk →
             ¬ near (simhash64 zeroSalt "beta alpha") sk) ∧
    RecordTask zeroSalt smallStore 20 1 "anna" "beta alpha" = Some m' ∧
    slots m'
    = <[idx := mkTaskSlot 1 "anna" 20 (simhash64 zeroSalt "beta alpha")]> (slots smallStore) ∧
    slots m' !! idx = Some (mkTaskSlot 1 "anna" 20 (simhash64 zeroSalt "beta alpha")) ∧
    (∀ k, k ≠ idx → slots m' !! k = slots smallStore !! k) ∧
    lruOrder m' = removeFirst idx (lruOrder smallStore) ++ [idx] ∧
    last (lruOrder m') = Some idx ∧
    (∃ before after,
       lruOrder smallStore = before ++ idx :: after ∧ (idx ∉ before) ∧ (idx ∉ after) ∧
       lruOrder m' = before ++ after ++ [idx]) ∧
    userSlotIdx m' = userSlotIdx smallStore ∧
    (∀ u, ownedBy m' u = ownedBy smallStore u) ∧
    length (slots m') = length (slots smallStore).
Proof.
  assert (indexConsistent smallStore) as Hc by apply smallStore_invariants.
  assert (len (userSlotsOf smallStore 1) < MaxUserSlots) as Hroom by (vm_compute; reflexivity).
  assert (0%nat ∈ userSlotsOf smallStore 1) as Hin.
  { replace (userSlotsOf smallStore 1) with [0%nat; 1%nat] by (vm_compute; reflexivity).
    by left. }
  assert (slots smallStore !! 0%nat
          = Some (mkTaskSlot 1 "ann" 10 (simhash64 zeroSalt "alpha beta"))) as Hslot
    by (vm_compute; reflexivity).
  assert (near (simhash64 zeroSalt "beta alpha")
               (mkTaskSlot 1 "ann" 10 (simhash64 zeroSalt "alpha beta"))) as Hnear
    by (vm_compute; discriminate).
  split; [exact Hc|]. split; [exact Hroom|]. split; [exact Hin|]. split; [exact Hslot|].
  split; [exact Hnear|].
  exact (RecordTask_match zeroSalt smallStore 20 1 "anna" "beta alpha" 0%nat _
           Hc Hroom Hin Hslot Hnear).
Defined.

Lemma RecordTask_allocate_small :
  indexConsistent smallStore ∧
  len (userSlotsOf smallStore 1) < MaxUserSlots ∧
  len (slots smallStore) < MaxGlobalSlots ∧
  (∀ j sj, j ∈ userSlotsOf smallStore 1 → slots smallStore !! j = Some sj →
           ¬ near (simhash64 zeroSalt "zeta") sj) ∧
  ∃ m',
    RecordTask zeroSalt smallStore 20 1 "anna" "zeta" = Some m' ∧
    slots m' = slots smallStore ++ [mkTaskSlot 1 "anna" 20 (simhash64 zeroSalt "zeta")] ∧
    userSlotsOf m' 1 = userSlotsOf smallStore 1 ++ [length (slots smallStore)] ∧
    (∀ u, u ≠ 1 → userSlotsOf m' u = userSlotsOf smallStore u) ∧
    lruOrder m' = lruOrder smallStore ++ [length (slots smallStore)] ∧
    ownedBy m' 1 = S (ownedBy smallStore 1) ∧
    (∀ u, u ≠ 1 → ownedBy m' u = ownedBy smallStore u) ∧
    length (slots m') = S (length (slots smallStore)).
Proof.
  assert (indexConsistent smallStore) as Hc by apply smallStore_invariants.
  assert (len (userSlotsOf smallStore 1) < MaxUserSlots) as Hroom by (vm_compute; reflexivity).
  assert (len (slots smallStore) < MaxGlobalSlots) as Hfree by (vm_compute; reflexivity).
  assert (∀ j sj, j ∈ userSlotsOf smallStore 1 → slots smallStore !! j = Some sj →
                  ¬ near (simhash64 zeroSalt "zeta") sj) as Hfar
    by (apply no_match_far; vm_compute; reflexivity).
  split; [exact Hc|]. split; [exact Hroom|]. split; [exact Hfree|]. split; [exact Hfar|].
  exact (RecordTask_allocate zeroSalt smallStore 20 1 "anna" "zeta" Hc Hroom Hfree Hfar).
Defined.

(** C4 as the specification states it, refuted: the store is full, the
    user has no cell, and the store does not grow. *)
Lemma RecordTask_full_store_does_not_grow :
  reachable zeroSalt fullStore ∧
  len (userSlotsOf fullStore 1001) < MaxUserSlots ∧
  (∀ j sj, j ∈ userSlotsOf fullStore 1001 → slots fullStore !! j = Some sj →
           ¬ near (simhash64 zeroSalt "") sj) ∧
  length (slots fullStore) = 1000%nat ∧
  (fun m' => length (slots m')) <$> RecordTask zeroSalt fullStore 1 1001 "new" ""
  = Some 1000%nat.
Proof.
  split; [apply fullStore_invariants|].
  split; [vm_compute; reflexivity|].
  split; [apply no_match_far; vm_compute; reflexivity|].
  split; vm_compute; reflexivity.
Qed.

Lemma RecordTask_user_full_fifty :
  indexConsistent fiftyStore ∧
  len (userSlotsOf fiftyStore 1) = MaxUserSlots ∧
  (∀ j sj, j ∈ userSlotsOf fiftyStore 1 → slots fiftyStore !! j = Some sj →
           ¬ near (simhash64 zeroSalt (oneToken 50)) sj) ∧
  ∃ idx old m',
    idx ∈ userSlotsOf fiftyStore 1 ∧ slots fiftyStore !! idx = Some old ∧
    (∀ j sj, j ∈ userSlotsOf fiftyStore 1 → slots fiftyStore !! j = Some sj →
             UpdatedAt old ≤ UpdatedAt sj) ∧
    findOldestUserSlot fiftyStore 1 = Some (Z.of_nat idx) ∧
    RecordTask zeroSalt fiftyStore 200 1 "ann" (oneToken 50) = Some m' ∧
    slots m'
    = <[idx := mkTaskSlot 1 "ann" 200 (simhash64 zeroSalt (oneToken 50))]> (slots fiftyStore) ∧
    slots m' !! idx = Some (mkTaskSlot 1 "ann" 200 (simhash64 zeroSalt (oneToken 50))) ∧
    (∀ k, k ≠ idx → slots m' !! k = slots fiftyStore !! k) ∧
    lruOrder m' = removeFirst idx (lruOrder fiftyStore) ++ [idx] ∧
    last (lruOrder m') = Some idx ∧
    (∃ before after,
       lruOrder fiftyStore = before ++ idx :: after ∧ (idx ∉ before) ∧ (idx ∉ after) ∧
       lruOrder m' = before ++ after ++ [idx]) ∧
    userSlotIdx m' = userSlotIdx fiftyStore ∧
    (∀ u, ownedBy m' u = ownedBy fiftyStore u) ∧
    length (slots m') = length (slots fiftyStore).
Proof.
  assert (indexConsistent fiftyStore) as Hc by apply fiftyStore_invariants.
  assert (len (userSlotsOf fiftyStore 1) = MaxUserSlots) as Hfull by (vm_compute; reflexivity).
  assert (∀ j sj, j ∈ userSlotsOf fiftyStore 1 → slots fiftyStore !! j = Some sj →
                  ¬ near (simhash64 zeroSalt (oneToken 50)) sj) as Hfar
    by (apply no_match_far; vm_compute; reflexivity).
  split; [exact Hc|]. split; [exact Hfull|]. split; [exact Hfar|].
  exact (RecordTask_user_full zeroSalt fiftyStore 200 1 "ann" (oneToken 50) Hc Hfull Hfar).
Defined.


Lemma GetActiveTaskRank_counts_small :
  0 ≤ 40 < 2 ^ 63 ∧ - 2 ^ 63 ≤ 27 < 2 ^ 63 ∧
  let cutoff := 40 - (if 27 <=? 0 then 30 else 27) in
  GetActiveTaskRank smallStore 40 27 (rankInKeyOrder smallStore 40 27) ∧
  (∀ rank, GetActiveTaskRank smallStore 40 27 rank →
     NoDup (CountUserID <$> rank) ∧
     (∀ u name n,
        mkCount u name n ∈ rank ↔
        ∃ first rest, activeOf smallStore cutoff u = first :: rest ∧
                      name = Username first ∧ n = len (first :: rest)) ∧
     StronglySorted ranksBefore rank ∧
     GetHighActiveUsers smallStore 40 27 1
       (filter (fun c => 1 ≤ ActiveSlots c) rank)) ∧
  (∀ high, GetHighActiveUsers smallStore 40 27 1 high →
     ∃ rank, GetActiveTaskRank smallStore 40 27 rank ∧
             high = filter (fun c => 1 ≤ ActiveSlots c) rank).
Proof.
  assert (0 ≤ 40 < 2 ^ 63) as Hnow by lia.
  assert (- 2 ^ 63 ≤ 27 < 2 ^ 63) as Hw by lia.
  split; [exact Hnow|]. split; [exact Hw|].
  exact (GetActiveTaskRank_counts smallStore 40 27 1 Hnow Hw).
Defined.

(** C8 as the specification states it, refuted: with a window of 0 no
    cell has a timestamp of at least [now - 0], and both users are
    ranked. *)
Lemma GetActiveTaskRank_window_zero :
  run zeroSalt smallCalls newManager = Some smallStore ∧
  GetActiveTaskRank smallStore 40 0 [mkCount 1 "ann" 2; mkCount 2 "bob" 1] ∧
  activeOf smallStore (40 - 0) 1 = [] ∧ activeOf smallStore (40 - 0) 2 = [].
Proof.
  split; [apply smallStore_run|]. split; [|split; vm_compute; reflexivity].
  replace [mkCount 1 "ann" 2; mkCount 2 "bob" 1] with (rankInKeyOrder smallStore 40 0)
    by (vm_compute; reflexivity).
  apply rankInKeyOrder_rank.
Qed.

Lemma GetStats_fields_small :
  indexConsistent smallStore ∧ 0 ≤ 40 < 2 ^ 63 ∧
  total_slots (GetStats smallStore 40) = len (slots smallStore) ∧
  active_slots (GetStats smallStore 40)
  = len (filter (fun slot => 40 - 30 ≤ UpdatedAt slot) (slots smallStore)) ∧
  max_global_slots (GetStats smallStore 40) = 1000 ∧
  max_user_slots (GetStats smallStore 40) = 50 ∧
  window_seconds (GetStats smallStore 40) = 30 ∧
  active_users (GetStats smallStore 40) = Z.of_nat (size (owners smallStore)) ∧
  (∀ u, u ∈ owners smallStore ↔ ∃ slot, slot ∈ slots smallStore ∧ UserID slot = u).
Proof.
  assert (indexConsistent smallStore) as Hc by apply smallStore_invariants.
  assert (0 ≤ 40 < 2 ^ 63) as Hnow by lia.
  split; [exact Hc|]. split; [exact Hnow|].
  exact (GetStats_fields smallStore 40 Hc Hnow).
Defined.

(** C9 as the specification states it, refuted: no cell was touched
    within the window, and two users are reported active. *)
Lemma GetStats_counts_idle_users :
  run zeroSalt smallCalls newManager = Some smallStore ∧
  active_slots (GetStats smallStore 1000) = 0 ∧
  activeUsersSince smallStore (1000 - ActiveWindowSeconds) = ∅ ∧
  active_users (GetStats smallStore 1000) = 2.
Proof.
  split; [apply smallStore_run|]. split; [vm_compute; reflexivity|].
  split; [|vm_compute; reflexivity].
  apply set_eq. intros u. rewrite elem_of_empty. unfold activeUsersSince.
  rewrite elem_of_list_to_set.
  replace (filter _ (slots smallStore)) with (@nil TaskSlot) by (vm_compute; reflexivity).
  simpl. by rewrite elem_of_nil.
Qed.

(** * Further properties *)

(** ** More on the fingerprint *)

Lemma filter_length_le_sum {A} (P Q R : A → Prop)
    `{∀ x, Decision (P x)} `{∀ x, Decision (Q x)} `{∀ x, Decision (R x)} (l : list A) :
  (∀ x, P x → Q x ∨ R x) →
  (length (filter P l) ≤ length (filter Q l) + length (filter R l))%nat.
Proof.
  intros HPQR. induction l as [|x l IH]; [done|].
  rewrite !filter_cons. destruct (decide (P x)) as [HP|HP].
  - destruct (HPQR x HP); destruct (decide (Q x)), (decide (R x)); simpl; try lia; tauto.
  - destruct (decide (Q x)), (decide (R x)); simpl; lia.
Qed.

(** X1. [hamming64] is symmetric and satisfies the triangle inequality. *)
Theorem hamming64_metric (a b c : Z) :
  hamming64 a b = hamming64 b a ∧
  hamming64 a c ≤ hamming64 a b + hamming64 b c.
Proof.
  split.
  - unfold hamming64. by rewrite Z.lxor_comm.
  - rewrite !hamming64_differing.
    pose proof (filter_length_le_sum
      (fun k : nat => Z.testbit a (Z.of_nat k) ≠ Z.testbit c (Z.of_nat k))
      (fun k : nat => Z.testbit a (Z.of_nat k) ≠ Z.testbit b (Z.of_nat k))
      (fun k : nat => Z.testbit b (Z.of_nat k) ≠ Z.testbit c (Z.of_nat k))
      (seq 0 64)) as Hle.
    assert (∀ k : nat, Z.testbit a (Z.of_nat k) ≠ Z.testbit c (Z.of_nat k) →
              Z.testbit a (Z.of_nat k) ≠ Z.testbit b (Z.of_nat k) ∨
              Z.testbit b (Z.of_nat k) ≠ Z.testbit c (Z.of_nat k)) as Hcase.
    { intros k. destruct (Z.testbit a (Z.of_nat k)), (Z.testbit b (Z.of_nat k)),
        (Z.testbit c (Z.of_nat k)); intros ?; (by left) || (by right). }
    specialize (Hle Hcase). lia.
Qed.

Lemma uint64_high_bits x i : 0 ≤ x < 2 ^ 64 → 64 ≤ i → Z.testbit x i = false.
Proof.
  intros Hx Hi. rewrite <- (Z.mod_small x (2 ^ 64)) by lia.
  apply Z.mod_pow2_bits_high. lia.
Qed.

(** X2. Two 64-bit values are at distance 0 exactly when they are equal. *)
Theorem hamming64_zero_iff_equal (a b : Z) :
  0 ≤ a < 2 ^ 64 → 0 ≤ b < 2 ^ 64 →
  hamming64 a b = 0 ↔ a = b.
Proof.
  intros Ha Hb. split; [|intros ->; apply hamming64_self].
  rewrite hamming64_differing. intros Hz.
  assert (filter (fun k : nat => Z.testbit a (Z.of_nat k) ≠ Z.testbit b (Z.of_nat k)) (seq 0 64)
          = []) as Hnil by (apply length_zero_iff_nil; lia).
  apply Z.bits_inj'. intros i Hi. destruct (Z.lt_ge_cases i 64) as [Hlt|Hge].
  - destruct (decide (Z.testbit a i = Z.testbit b i)) as [|Hne]; [done|]. exfalso.
    assert (Z.to_nat i ∈ filter (fun k : nat => Z.testbit a (Z.of_nat k) ≠ Z.testbit b (Z.of_nat k))
                                (seq 0 64)) as Hin.
    { apply list_elem_of_filter. rewrite Z2Nat.id by lia. split; [done|].
      apply elem_of_seq. lia. }
    rewrite Hnil in Hin. by apply elem_of_nil in Hin.
  - by rewrite !uint64_high_bits.
Qed.

Lemma tokenHash64_range salt token : 0 ≤ tokenHash64 salt token < 2 ^ 64.
Proof.
  unfold tokenHash64.
  set (s := Sha1.sum _).
  assert (∀ k, 0 ≤ nth k s 0 < 256) as Hb by (intros; apply sha1_sum_nth).
  assert (0 ≤ Z.lor (Z.lor (Z.lor (Z.lor (Z.lor (Z.lor (Z.lor
    (nth 0 s 0) (Z.shiftl (nth 1 s 0) 8)) (Z.shiftl (nth 2 s 0) 16))
    (Z.shiftl (nth 3 s 0) 24)) (Z.shiftl (nth 4 s 0) 32)) (Z.shiftl (nth 5 s 0) 40))
    (Z.shiftl (nth 6 s 0) 48)) (Z.shiftl (nth 7 s 0) 56)) as Hpos.
  { repeat (apply Z.lor_nonneg; split); try apply Z.shiftl_nonneg; apply Hb. }
  split; [done|].
  match goal with |- ?x < _ => destruct (decide (x = 0)) as [->|Hne]; [done|];
    apply Z.log2_lt_pow2; [lia|];
    destruct (Z.lt_ge_cases (Z.log2 x) 64) as [|Hge]; [done|];
    pose proof (Z.bit_log2 x ltac:(lia)) as Hbit; exfalso; revert Hbit;
    generalize (Z.log2 x) Hge end.
  intros i Hi. rewrite !Z.lor_spec.
  rewrite !byte_shift_testbit by (try apply Hb; lia).
  rewrite <- (Z.shiftl_0_r (nth 0 s 0)). rewrite byte_shift_testbit by (try apply Hb; lia).
  done.
Qed.

Section Tokens.
Context (salt : string).

Lemma signedVote_app i t1 t2 :
  signedVote salt i (t1 ++ t2) = signedVote salt i t1 + signedVote salt i t2.
Proof. induction t1 as [|t t1 IH]; simpl; [done|]. rewrite IH. lia. Qed.

Lemma signedVote_repeated i tokens k :
  signedVote salt i (concat (replicate k tokens)) = Z.of_nat k * signedVote salt i tokens.
Proof.
  induction k as [|k IH]; [simpl; lia|].
  change (replicate (S k) tokens) with (tokens :: replicate k tokens).
  cbn [concat]. rewrite signedVote_app, IH. lia.
Qed.

(** X3. A text whose tokens are, up to their order, those of another text
    repeated a whole number of times has the fingerprint of that text. *)
Theorem simhash64_repeated_text (x y : string) (k : nat) :
  Fields y ≡ₚ concat (replicate (S k) (Fields x)) →
  simhash64 salt y = simhash64 salt x.
Proof.
  intros Hperm. apply Z.bits_inj'. intros i _. rewrite !simhash64_testbit.
  rewrite (signedVote_perm salt i _ _ Hperm), signedVote_repeated.
  assert (bool_decide (Fields y = []) = bool_decide (Fields x = [])) as ->.
  { apply bool_decide_ext. split.
    - intros Hnil. rewrite Hnil in Hperm. apply Permutation_nil_l in Hperm.
      change (replicate (S k) (Fields x)) with (Fields x :: replicate k (Fields x)) in Hperm.
      cbn [concat] in Hperm. symmetry in Hperm. by apply app_eq_nil in Hperm as [? _].
    - intros Hnil. rewrite Hnil in Hperm.
      assert (concat (replicate (S k) (@nil string)) = []) as Hc.
      { clear. induction (S k) as [|n IH]; [done|]. done. }
      rewrite Hc in Hperm. by apply Permutation_nil_r in Hperm. }
  f_equal.
  destruct (Z.leb_spec 0 (signedVote salt i (Fields x))).
  - apply Z.leb_le. nia.
  - apply Z.leb_gt. nia.
Qed.

(** X4. The fingerprint of a text of one token is the hash of the token;
    that of a text of two tokens is the bitwise or of the two hashes, as
    a tie of the votes sets the bit. *)
Theorem simhash64_one_or_two_tokens (text t1 t2 : string) :
  (Fields text = [t1] → simhash64 salt text = tokenHash64 salt t1) ∧
  (Fields text = [t1; t2] →
   simhash64 salt text = Z.lor (tokenHash64 salt t1) (tokenHash64 salt t2)).
Proof.
  split; intros Htok; apply Z.bits_inj'; intros i Hi; rewrite simhash64_testbit, Htok;
    rewrite bool_decide_eq_false_2 by done; cbn [negb signedVote foldr];
    rewrite (proj2 (Z.leb_le 0 i)) by done; rewrite !andb_true_l.
  - destruct (Z.ltb_spec i 64).
    + by destruct (Z.testbit (tokenHash64 salt t1) i).
    + rewrite uint64_high_bits; [done|apply tokenHash64_range|lia].
  - rewrite Z.lor_spec. destruct (Z.ltb_spec i 64).
    + by destruct (Z.testbit (tokenHash64 salt t1) i), (Z.testbit (tokenHash64 salt t2) i).
    + rewrite !uint64_high_bits; [done|apply tokenHash64_range|lia|apply tokenHash64_range|lia].
Qed.

End Tokens.

(** ** The cell that a call touches *)

Lemma near_self h u name now : near h (mkTaskSlot u name now h).
Proof. unfold near, SimHashThreshold. simpl. rewrite hamming64_self. lia. Qed.

Lemma findInheritable_first ss h (pre : list nat) idx post slot :
  (∀ k, k ∈ pre → ∃ s, ss !! k = Some s ∧ ¬ near h s) →
  ss !! idx = Some slot → near h slot →
  findInheritable ss h (pre ++ idx :: post) = Some (Some idx).
Proof.
  intros Hfar Hslot Hnear. induction pre as [|k pre IH]; simpl.
  - rewrite Hslot. simpl. unfold near in Hnear.
    by rewrite (proj2 (Z.leb_le _ _) Hnear).
  - destruct (Hfar k ltac:(by left)) as (s & Hs & Hn). rewrite Hs. simpl.
    destruct (Z.leb_spec (hamming64 (SimHash s) h) SimHashThreshold) as [Hle|_]; [done|].
    apply IH. intros j Hj. apply Hfar. by right.
Qed.

Lemma removeFirst_last idx (l : list nat) : idx ∉ l → removeFirst idx (l ++ [idx]) = l.
Proof.
  induction l as [|v l IH]; intros Hn; simpl.
  - by rewrite decide_True.
  - apply not_elem_of_cons in Hn as [Hne Hn]. rewrite decide_False by done.
    by rewrite IH.
Qed.

(** What every branch of [RecordTask] leaves: the cell [idx] with the
    caller, the name, the reading and the fingerprint; [idx] last in the
    LRU order and in the list of the caller after cells that are all
    beyond the threshold; every other cell of the old store as it was. *)
Lemma recorded_shape m now u name h m' :
  indexConsistent m → recorded m now u name h m' →
  ∃ idx pre post lru,
    slots m' !! idx = Some (mkTaskSlot u name now h) ∧
    userSlotsOf m' u = pre ++ idx :: post ∧
    (∀ k, k ∈ pre → ∃ s, slots m' !! k = Some s ∧ ¬ near h s) ∧
    lruOrder m' = lru ++ [idx] ∧ (idx ∉ lru) ∧
    (∀ k, k ≠ idx → (k < length (slots m))%nat → slots m' !! k = slots m !! k) ∧
    (length (slots m) ≤ length (slots m') ≤ S (length (slots m)))%nat.
Proof.
  intros Hc Hrec.
  assert (∀ idx, idx ∉ removeFirst idx (lruOrder m)) as Hfresh.
  { intros idx Hin. apply elem_of_removeFirst in Hin as [_ ?]; [done|apply (lru_once m Hc)]. }
  assert (∀ idx old pre post,
    slots m !! idx = Some old → userSlotsOf m u = pre ++ idx :: post →
    (∀ k, k ∈ pre → ∃ s, slots m !! k = Some s ∧ ¬ near h s) →
    ∃ idx' pre' post' lru,
      slots (overwritten m idx (mkTaskSlot u name now h)) !! idx'
      = Some (mkTaskSlot u name now h) ∧
      userSlotsOf (overwritten m idx (mkTaskSlot u name now h)) u = pre' ++ idx' :: post' ∧
      (∀ k, k ∈ pre' → ∃ s, slots (overwritten m idx (mkTaskSlot u name now h)) !! k = Some s
                           ∧ ¬ near h s) ∧
      lruOrder (overwritten m idx (mkTaskSlot u name now h)) = lru ++ [idx'] ∧ (idx' ∉ lru) ∧
      (∀ k, k ≠ idx' → (k < length (slots m))%nat →
            slots (overwritten m idx (mkTaskSlot u name now h)) !! k = slots m !! k) ∧
      (length (slots m) ≤ length (slots (overwritten m idx (mkTaskSlot u name now h)))
       ≤ S (length (slots m)))%nat) as Hown.
  { intros idx old pre post Hold Hl Hfar.
    pose proof (lookup_lt_Some _ _ _ Hold) as Hlt.
    assert (idx ∉ pre) as Hpre.
    { pose proof (listed_once m Hc u) as Hnd. rewrite Hl in Hnd.
      apply NoDup_app in Hnd as (_ & Hdis & _). intros Hin. apply (Hdis idx Hin). by left. }
    exists idx, pre, post, (removeFirst idx (lruOrder m)). simpl.
    split; [by apply list_lookup_insert_eq|]. split; [done|]. split.
    { intros k Hk. destruct (Hfar k Hk) as (s & Hs & Hn). exists s. split; [|done].
      rewrite list_lookup_insert_ne; [done|]. intros ->. done. }
    split; [done|]. split; [apply Hfresh|]. split.
    { intros k Hk _. by apply list_lookup_insert_ne. }
    rewrite length_insert. lia. }
  assert (∀ idx, findInheritable (slots m) h (userSlotsOf m u) = Some None →
                 idx ∈ userSlotsOf m u →
                 ∃ pre post, userSlotsOf m u = pre ++ idx :: post ∧
                   ∀ k, k ∈ pre → ∃ s, slots m !! k = Some s ∧ ¬ near h s) as Hsplit.
  { intros idx Hf Hin. apply list_elem_of_split in Hin as (pre & post & Hl).
    exists pre, post. split; [done|]. intros k Hk.
    apply (findInheritable_none _ _ _ Hf). rewrite Hl. apply elem_of_app. by left. }
  destruct Hrec as [idx old Hf Hold Hu|idx old Hf _ Hfind Hold Hu|idx rest old Hf _ _ Hlru Hold Hu
                   |idx rest old Hf _ _ Hlru Hold Hu|Hf _ _].
  - destruct (findInheritable_found _ _ _ _ Hf) as (pre & post & slot & Hl & _ & _ & Hfar).
    apply (Hown idx old pre post Hold Hl). intros k Hk.
    destruct (listed_valid m u k Hc) as [s Hs]; [rewrite Hl; apply elem_of_app; by left|].
    exists s. split; [done|]. by eapply Hfar.
  - assert (idx ∈ userSlotsOf m u) as Hin by (apply (listed_iff_owned m Hc); eauto).
    destruct (Hsplit idx Hf Hin) as (pre & post & Hl & Hfar). by eapply Hown.
  - assert (idx ∈ userSlotsOf m u) as Hin by (apply (listed_iff_owned m Hc); eauto).
    destruct (Hsplit idx Hf Hin) as (pre & post & Hl & Hfar). by eapply Hown.
  - pose proof (lookup_lt_Some _ _ _ Hold) as Hlt.
    assert (idx ∉ userSlotsOf m u) as Hnot.
    { intros (s & Hs & Hsu)%(listed_iff_owned m Hc). congruence. }
    exists idx, (userSlotsOf m u), [], (removeFirst idx (lruOrder m)). simpl.
    split; [by apply list_lookup_insert_eq|]. split.
    { change (userSlotsOf (overwritten ?a _ _) u) with (userSlotsOf a u).
      by rewrite userSlotsOf_transferred, decide_True. }
    split.
    { intros k Hk. destruct (findInheritable_none _ _ _ Hf k Hk) as (s & Hs & Hn).
      exists s. split; [|done]. rewrite list_lookup_insert_ne; [done|]. intros ->. done. }
    split; [done|]. split; [apply Hfresh|]. split.
    { intros k Hk _. by apply list_lookup_insert_ne. }
    rewrite length_insert. lia.
  - exists (length (slots m)), (userSlotsOf m u), [], (lruOrder m). simpl.
    split; [by rewrite lookup_app_r, Nat.sub_diag|]. split.
    { by rewrite userSlotsOf_allocate, decide_True. }
    split.
    { intros k Hk. destruct (findInheritable_none _ _ _ Hf k Hk) as (s & Hs & Hn).
      exists s. split; [|done]. rewrite lookup_app_l; [done|]. by eapply lookup_lt_Some. }
    split; [done|]. split.
    { intros Hin. apply (lru_iff_allocated m Hc) in Hin. lia. }
    split; [by intros k _ Hk; apply lookup_app_l|].
    rewrite length_app. simpl. lia.
Qed.

Section StoreExtras.
Context (salt : string).

(** X5. On a consistent store [RecordTask] returns and writes one cell: it
    holds the caller, the name, the reading of the clock and the
    fingerprint of the text, and is last in the LRU order and listed for
    the caller; every other cell of the old store is as it was, and the
    store grows by at most one cell. *)
Theorem RecordTask_writes_one_cell m now userID username data :
  indexConsistent m →
  ∃ m' idx,
    RecordTask salt m now userID username data = Some m' ∧
    slots m' !! idx = Some (mkTaskSlot userID username now (simhash64 salt data)) ∧
    last (lruOrder m') = Some idx ∧
    idx ∈ userSlotsOf m' userID ∧
    (∀ k, k ≠ idx → (k < length (slots m))%nat → slots m' !! k = slots m !! k) ∧
    (length (slots m) ≤ length (slots m') ≤ S (length (slots m)))%nat.
Proof.
  intros Hc.
  destruct (RecordTask_recorded salt m now userID username data Hc) as (m' & Hrun & Hrec).
  destruct (recorded_shape _ _ _ _ _ _ Hc Hrec)
    as (idx & pre & post & lru & Hslot & Hl & _ & Hlru & _ & Hrest & Hlen).
  exists m', idx. split; [done|]. split; [done|].
  split; [rewrite Hlru; apply last_snoc|].
  split; [rewrite Hl; apply elem_of_app; right; by left|]. done.
Qed.

(** X6. Repeating a call with the same reading of the clock, user, name and
    text leaves the store as the first call left it. *)
Theorem RecordTask_idempotent m now userID username data m' :
  indexConsistent m →
  RecordTask salt m now userID username data = Some m' →
  RecordTask salt m' now userID username data = Some m'.
Proof.
  intros Hc Hrun.
  pose proof (RecordTask_deterministic_recorded _ _ _ _ _ _ _ Hc Hrun) as Hrec.
  destruct (recorded_shape _ _ _ _ _ _ Hc Hrec)
    as (idx & pre & post & lru & Hslot & Hl & Hfar & Hlru & Hfresh & _ & _).
  unfold RecordTask, recordHash. rewrite Hl.
  rewrite (findInheritable_first _ _ pre idx post _ Hfar Hslot) by apply near_self.
  simpl. rewrite (alter_touch _ _ _ _ _ _ Hslot). simpl.
  rewrite list_insert_id by done.
  unfold moveToLRUEnd. simpl. rewrite Hlru, removeFirst_last by done.
  rewrite <- Hlru. by destruct m'.
Qed.

End StoreExtras.

(** ** The oldest cell of a user *)

Lemma oldestLoop_first ss (l : list nat) i0 s0 :
  ss !! i0 = Some s0 →
  (∀ i, i ∈ l → is_Some (ss !! i)) →
  ∃ idx s,
    oldestLoop ss l i0 (UpdatedAt s0) = Some idx ∧ ss !! idx = Some s ∧
    ((idx = i0 ∧ ∀ k sk, k ∈ l → ss !! k = Some sk → UpdatedAt s0 ≤ UpdatedAt sk) ∨
     (∃ pre post,
        l = pre ++ idx :: post ∧ UpdatedAt s < UpdatedAt s0 ∧
        (∀ k sk, k ∈ pre → ss !! k = Some sk → UpdatedAt s < UpdatedAt sk) ∧
        (∀ k sk, k ∈ post → ss !! k = Some sk → UpdatedAt s ≤ UpdatedAt sk))).
Proof.
  revert i0 s0. induction l as [|i l IH]; intros i0 s0 H0 Hv; simpl.
  - exists i0, s0. split; [done|]. split; [done|]. left. split; [done|].
    intros k sk Hk. by apply elem_of_nil in Hk.
  - destruct (Hv i ltac:(by left)) as [si Hsi]. rewrite Hsi. simpl.
    assert (∀ k, k ∈ l → is_Some (ss !! k)) as Hv' by (intros k Hk; apply Hv; by right).
    destruct (Z.ltb_spec (UpdatedAt si) (UpdatedAt s0)) as [Hlt|Hge].
    + destruct (IH i si Hsi Hv') as (idx & s & Hloop & Hs & Hcase).
      exists idx, s. split; [done|]. split; [done|]. right.
      destruct Hcase as [[-> Hall]|(pre & post & -> & Hlt' & Hpre & Hpost)].
      * assert (s = si) as -> by congruence.
        exists [], l. split; [done|]. split; [done|]. split; [|done].
        intros k sk Hk. by apply elem_of_nil in Hk.
      * exists (i :: pre), post. split; [done|]. split; [lia|]. split; [|done].
        intros k sk [->|Hk]%elem_of_cons Hsk; [|by eapply Hpre].
        assert (sk = si) as -> by congruence. done.
    + destruct (IH i0 s0 H0 Hv') as (idx & s & Hloop & Hs & Hcase).
      exists idx, s. split; [done|]. split; [done|].
      destruct Hcase as [[-> Hall]|(pre & post & -> & Hlt' & Hpre & Hpost)].
      * left. split; [done|]. intros k sk [->|Hk]%elem_of_cons Hsk; [|by eapply Hall].
        assert (sk = si) as -> by congruence. lia.
      * right. exists (i :: pre), post. split; [done|]. split; [done|]. split; [|done].
        intros k sk [->|Hk]%elem_of_cons Hsk; [|by eapply Hpre].
        assert (sk = si) as -> by congruence. lia.
Qed.

(** X7. [findOldestUserSlot] is -1 for a user without cells; otherwise it
    is the first index of the user's list among those with the least
    timestamp: the cells listed before it are strictly younger. *)
Theorem findOldestUserSlot_first_of_least m userID :
  indexConsistent m →
  (userSlotsOf m userID = [] ∧ findOldestUserSlot m userID = Some (-1)) ∨
  ∃ pre idx post old,
    userSlotsOf m userID = pre ++ idx :: post ∧ slots m !! idx = Some old ∧
    findOldestUserSlot m userID = Some (Z.of_nat idx) ∧
    (∀ k sk, k ∈ pre → slots m !! k = Some sk → UpdatedAt old < UpdatedAt sk) ∧
    (∀ k sk, k ∈ post → slots m !! k = Some sk → UpdatedAt old ≤ UpdatedAt sk).
Proof.
  intros Hc. unfold findOldestUserSlot.
  pose proof (listed_valid m userID) as Hv.
  destruct (userSlotsOf m userID) as [|i0 l]; [by left|]. right.
  destruct (Hv i0 Hc ltac:(by left)) as [s0 H0]. rewrite H0. simpl.
  destruct (oldestLoop_first (slots m) l i0 s0 H0) as (idx & s & Hloop & Hs & Hcase).
  { intros k Hk. apply Hv; [done|by right]. }
  rewrite Hloop. simpl.
  destruct Hcase as [[-> Hall]|(pre & post & -> & Hlt & Hpre & Hpost)].
  - assert (s = s0) as -> by congruence.
    exists [], i0, l, s0. split; [done|]. split; [done|]. split; [done|]. split; [|done].
    intros k sk Hk. by apply elem_of_nil in Hk.
  - exists (i0 :: pre), idx, post, s. split; [done|]. split; [done|]. split; [done|].
    split; [|done]. intros k sk [->|Hk]%elem_of_cons Hsk; [|by eapply Hpre].
    assert (sk = s0) as -> by congruence. done.
Qed.

(** ** More on the reports *)

Lemma totalActive_perm r1 r2 : r1 ≡ₚ r2 → totalActive r1 = totalActive r2.
Proof. unfold totalActive. induction 1; simpl; lia. Qed.

Lemma mapTotal_insert_new (M : gmap Z UserActiveTaskCount) k c :
  M !! k = None →
  totalActive (map_to_list (<[k:=c]> M)).*2 = ActiveSlots c + totalActive (map_to_list M).*2.
Proof.
  intros Hk. rewrite (totalActive_perm _ (((k, c) :: map_to_list M).*2)); [done|].
  by rewrite map_to_list_insert.
Qed.

Lemma mapTotal_insert_old (M : gmap Z UserActiveTaskCount) k c0 c :
  M !! k = Some c0 →
  totalActive (map_to_list (<[k:=c]> M)).*2
  = ActiveSlots c - ActiveSlots c0 + totalActive (map_to_list M).*2.
Proof.
  intros Hk.
  rewrite <- (insert_delete_eq M k c), mapTotal_insert_new by apply lookup_delete_eq.
  rewrite <- (insert_id M k c0 Hk) at 2.
  rewrite <- (insert_delete_eq M k c0), mapTotal_insert_new by apply lookup_delete_eq.
  lia.
Qed.

Lemma tally_total cutoff (ss : list TaskSlot) (M : gmap Z UserActiveTaskCount) :
  totalActive (map_to_list (fold_left (tally cutoff) ss M)).*2
  = totalActive (map_to_list M).*2 + len (filter (fun slot => cutoff ≤ UpdatedAt slot) ss).
Proof.
  revert M. induction ss as [|x ss IH]; intros M; cbn [fold_left].
  - rewrite filter_nil. unfold len. simpl. lia.
  - rewrite IH. unfold tally. destruct (Z.leb_spec cutoff (UpdatedAt x)).
    + rewrite filter_cons_True by done. unfold len. cbn [length].
      destruct (M !! UserID x) as [c0|] eqn:Hk.
      * rewrite (mapTotal_insert_old _ _ c0) by done. simpl. lia.
      * rewrite mapTotal_insert_new by done. simpl. lia.
    + by rewrite filter_cons_False by lia.
Qed.

Lemma rank_total m now w rank :
  GetActiveTaskRank m now w rank →
  totalActive rank
  = len (filter (fun slot => wrap64 (now - effectiveWindow w) ≤ UpdatedAt slot) (slots m)).
Proof.
  intros [entries Hperm].
  rewrite (totalActive_perm _ _ (sortByActiveSlots_perm entries)), (totalActive_perm _ _ Hperm).
  unfold userCounts. rewrite tally_total, map_to_list_empty. unfold totalActive. simpl. lia.
Qed.

Lemma rank_entry m now w rank c :
  GetActiveTaskRank m now w rank → c ∈ rank →
  ∃ first rest,
    filter (fun slot => UserID slot = CountUserID c ∧
                        wrap64 (now - effectiveWindow w) ≤ UpdatedAt slot) (slots m)
    = first :: rest ∧
    CountUsername c = Username first ∧ ActiveSlots c = len (first :: rest).
Proof.
  intros Hrank Hin. apply (rank_elem_of _ _ _ _ _ Hrank) in Hin.
  unfold userCounts in Hin. rewrite tally_fold in Hin.
  destruct (filter _ (slots m)) as [|first rest]; [done|].
  exists first, rest. split; [done|]. by injection Hin as <-.
Qed.

Lemma filter_both_length {A} (P Q : A → Prop) `{∀ x, Decision (P x)} `{∀ x, Decision (Q x)}
    (l : list A) :
  (length (filter (fun x => P x ∧ Q x) l) ≤ length (filter P l))%nat.
Proof.
  induction l as [|x l IH]; [done|]. rewrite !filter_cons.
  destruct (decide (P x ∧ Q x)) as [[HP _]|Hn].
  - rewrite decide_True by done. simpl. lia.
  - destruct (decide (P x)); simpl; lia.
Qed.

(** The cells of a store are at most as many as the users of [us] own,
    when [us] holds every owner. *)
Lemma owned_total (ss : list TaskSlot) (us : list Z) :
  (∀ s, s ∈ ss → UserID s ∈ us) →
  (length ss
   ≤ foldr (fun u acc => length (filter (fun s => UserID s = u) ss) + acc) 0 us)%nat.
Proof.
  revert ss. induction us as [|u us IH]; intros ss Hin; simpl.
  - destruct ss as [|s ss]; [done|]. specialize (Hin s ltac:(by left)).
    by apply elem_of_nil in Hin.
  - pose proof (filter_app_complement (fun s => UserID s = u) ss) as Hp.
    apply Permutation_length in Hp. rewrite length_app in Hp.
    specialize (IH (filter (fun s => UserID s ≠ u) ss)).
    assert (∀ s, s ∈ filter (fun s => UserID s ≠ u) ss → UserID s ∈ us) as Hin'.
    { intros s [Hne Hs]%list_elem_of_filter.
      specialize (Hin s Hs). apply elem_of_cons in Hin as [?|?]; done. }
    specialize (IH Hin').
    assert (foldr (fun v acc => length (filter (fun s => UserID s = v)
                                   (filter (fun s => UserID s ≠ u) ss)) + acc) 0 us
            ≤ foldr (fun v acc => length (filter (fun s => UserID s = v) ss) + acc) 0 us)%nat
      as Hmono.
    { clear. induction us as [|v us IH]; simpl; [done|].
      assert (length (filter (fun s => UserID s = v) (filter (fun s => UserID s ≠ u) ss))
              ≤ length (filter (fun s => UserID s = v) ss))%nat; [|lia].
      rewrite list_filter_filter. apply filter_both_length. }
    lia.
Qed.

Lemma size_list_to_set_le (l : list Z) : (size (list_to_set l : gset Z) ≤ length l)%nat.
Proof.
  induction l as [|x l IH]; [done|]. cbn [list_to_set length].
  rewrite size_union_alt, size_singleton.
  assert ((list_to_set l : gset Z) ∖ {[x]} ⊆ list_to_set l) as Hsub
    by (intros y [? _]%elem_of_difference; done).
  apply subseteq_size in Hsub. lia.
Qed.

Lemma filter_all {A} (P : A → Prop) `{∀ x, Decision (P x)} (l : list A) :
  Forall P l → filter P l = l.
Proof.
  induction 1 as [|x l HP _ IH]; [done|]. by rewrite filter_cons_True, IH.
Qed.

Lemma owners_elements m s : s ∈ slots m → UserID s ∈ elements (owners m).
Proof.
  intros Hs. apply elem_of_elements. unfold owners.
  apply elem_of_list_to_set, list_elem_of_fmap. eauto.
Qed.

Lemma capped_total (ss : list TaskSlot) (us : list Z) (cap : nat) :
  (∀ u, length (filter (fun s => UserID s = u) ss) ≤ cap)%nat →
  (foldr (fun u acc => length (filter (fun s => UserID s = u) ss) + acc) 0 us
   ≤ cap * length us)%nat.
Proof.
  intros Hcap. induction us as [|u us IH]; simpl; [lia|]. specialize (Hcap u). lia.
Qed.

Lemma rank_entry_bounds salt m now windowSeconds rank :
  reachable salt m →
  GetActiveTaskRank m now windowSeconds rank →
  ∀ c, c ∈ rank → 1 ≤ ActiveSlots c ≤ 50 ∧ CountUserID c ∈ owners m.
Proof.
  intros [Hc [Hg Hu]]%reachable_invariant Hrank c Hin.
  destruct (rank_entry _ _ _ _ _ Hrank Hin) as (first & rest & Hf & _ & ->).
  split.
  - pose proof (filter_both_length (fun slot => UserID slot = CountUserID c)
      (fun slot => wrap64 (now - effectiveWindow windowSeconds) ≤ UpdatedAt slot) (slots m))
      as Hle.
    cbv beta in Hle. rewrite Hf in Hle.
    pose proof (ownedBy_listed m (CountUserID c) Hc) as Hown. unfold ownedBy in Hown.
    specialize (Hu (CountUserID c)). unfold len, MaxUserSlots in *. simpl in *. lia.
  - assert (first ∈ first :: rest) as Hin' by (by left). rewrite <- Hf in Hin'.
    apply list_elem_of_filter in Hin' as [[<- _] Hs].
    unfold owners. apply elem_of_list_to_set, list_elem_of_fmap. eauto.
Qed.

Section ReportExtras.
Context (salt : string).

(** X8. Right after a call, every ranking at the same reading of the clock
    lists the caller with at least one cell, whatever the window. *)
Theorem RecordTask_then_ranked m now userID username data m' windowSeconds rank :
  indexConsistent m → 0 ≤ now < 2 ^ 63 → - 2 ^ 63 ≤ windowSeconds < 2 ^ 63 →
  RecordTask salt m now userID username data = Some m' →
  GetActiveTaskRank m' now windowSeconds rank →
  ∃ name n, mkCount userID name n ∈ rank ∧ 1 ≤ n.
Proof.
  intros Hc Hnow Hw Hrun Hrank.
  pose proof (RecordTask_deterministic_recorded _ _ _ _ _ _ _ Hc Hrun) as Hrec.
  destruct (recorded_shape _ _ _ _ _ _ Hc Hrec) as (idx & _ & _ & _ & Hslot & _).
  pose proof (effectiveWindow_pos windowSeconds ltac:(lia)) as Hpos.
  assert (mkTaskSlot userID username now (simhash64 salt data)
          ∈ activeOf m' (now - effectiveWindow windowSeconds) userID) as Hin.
  { apply list_elem_of_filter. simpl. split; [split; [done|lia]|].
    by eapply list_elem_of_lookup_2. }
  destruct (activeOf m' (now - effectiveWindow windowSeconds) userID) as [|first rest] eqn:Hact;
    [by apply elem_of_nil in Hin|].
  exists (Username first), (len (first :: rest)). split.
  - apply (rank_elem_of _ _ _ _ _ Hrank). simpl.
    by rewrite userCounts_lookup, Hact by done.
  - unfold len. simpl. lia.
Qed.

(** X9. The counts of a ranking add up to the number of cells in the
    window, which is at most [total_slots] of [GetStats]; with the
    default window it is [active_slots] of [GetStats] at the same
    reading. *)
Theorem rank_accounts_for_active_slots m now windowSeconds rank :
  GetActiveTaskRank m now windowSeconds rank →
  totalActive rank
  = len (filter (fun slot => wrap64 (now - effectiveWindow windowSeconds) ≤ UpdatedAt slot)
                (slots m)) ∧
  totalActive rank ≤ total_slots (GetStats m now) ∧
  (windowSeconds ≤ 0 ∨ windowSeconds = 30 →
   totalActive rank = active_slots (GetStats m now)).
Proof.
  intros Hrank. rewrite (rank_total _ _ _ _ Hrank). split; [done|]. split.
  - simpl. unfold len. pose proof (length_filter
      (fun slot => wrap64 (now - effectiveWindow windowSeconds) ≤ UpdatedAt slot) (slots m)). lia.
  - intros Hw. simpl. rewrite activeCount_fold.
    assert (effectiveWindow windowSeconds = ActiveWindowSeconds) as ->; [|lia].
    unfold effectiveWindow, ActiveWindowSeconds.
    destruct Hw as [Hle| ->]; [|done]. by rewrite (proj2 (Z.leb_le _ _) Hle).
Qed.

(** X10. In a store built by [RecordTask], a ranking gives each user it
    lists between 1 and 50 cells, and lists at most as many users as
    [GetStats] reports, at most 1000. *)
Theorem rank_entries_bounded m now windowSeconds rank :
  reachable salt m →
  GetActiveTaskRank m now windowSeconds rank →
  (∀ c, c ∈ rank → 1 ≤ ActiveSlots c ≤ 50) ∧
  len rank ≤ active_users (GetStats m now) ∧
  len rank ≤ 1000.
Proof.
  intros Hreach Hrank.
  pose proof (rank_entry_bounds salt m now windowSeconds rank Hreach Hrank) as Hentry.
  destruct (reachable_invariant _ _ Hreach) as [Hc [Hg Hu]].
  assert (length rank ≤ size (owners m))%nat as Hlen.
  { rewrite <- (length_fmap CountUserID),
      <- (size_list_to_set (C := gset Z)) by (by eapply rank_users_once).
    apply subseteq_size. intros u (c & -> & Hin)%elem_of_list_to_set%list_elem_of_fmap.
    by apply Hentry. }
  split; [intros c Hin; by apply Hentry|]. simpl. unfold len.
  rewrite <- size_dom, (owners_dom m Hc).
  split; [lia|].
  assert (size (owners m) ≤ length (slots m))%nat.
  { unfold owners. etrans; [apply size_list_to_set_le|]. by rewrite length_fmap. }
  unfold len, MaxGlobalSlots in Hg. lia.
Qed.

(** X11. In a store built by [RecordTask], what [GetStats] reports is
    bounded: the active cells by the cells, the cells by
    [max_global_slots], the users by the cells, and the cells by
    [max_user_slots] for each user. *)
Theorem GetStats_bounded m now :
  reachable salt m →
  0 ≤ active_slots (GetStats m now) ≤ total_slots (GetStats m now) ∧
  total_slots (GetStats m now) ≤ max_global_slots (GetStats m now) ∧
  active_users (GetStats m now) ≤ total_slots (GetStats m now) ∧
  total_slots (GetStats m now)
  ≤ max_user_slots (GetStats m now) * active_users (GetStats m now).
Proof.
  intros [Hc [Hg Hu]]%reachable_invariant. simpl. rewrite activeCount_fold.
  unfold len, MaxGlobalSlots, MaxUserSlots in *.
  pose proof (length_filter
    (fun slot => wrap64 (now - ActiveWindowSeconds) ≤ UpdatedAt slot) (slots m)).
  split; [lia|]. split; [lia|].
  rewrite <- size_dom, (owners_dom m Hc).
  assert (size (owners m) ≤ length (slots m))%nat.
  { unfold owners. etrans; [apply size_list_to_set_le|]. by rewrite length_fmap. }
  split; [lia|].
  pose proof (owned_total (slots m) (elements (owners m)) (owners_elements m)) as Htot.
  pose proof (capped_total (slots m) (elements (owners m)) 50) as Hcap.
  assert (∀ u, length (filter (fun s => UserID s = u) (slots m)) ≤ 50)%nat as Hcap'.
  { intros u. pose proof (ownedBy_listed m u Hc) as Hown. unfold ownedBy in Hown.
    specialize (Hu u). lia. }
  specialize (Hcap Hcap'). unfold size, set_size in *. simpl in *. lia.
Qed.

(** X12. A threshold of at most 1 keeps the whole ranking, and a greater
    threshold keeps the part of what a smaller one keeps that reaches
    it. *)
Theorem GetHighActiveUsers_threshold m now windowSeconds t1 t2 high :
  t1 ≤ t2 →
  GetHighActiveUsers m now windowSeconds t2 high →
  (t2 ≤ 1 → GetActiveTaskRank m now windowSeconds high) ∧
  ∃ lower, GetHighActiveUsers m now windowSeconds t1 lower ∧
           high = filter (fun c => t2 ≤ ActiveSlots c) lower.
Proof.
  intros Hle [rank Hrank]. split.
  - intros Ht. assert (atLeast t2 rank = rank) as ->; [|done].
    unfold atLeast. apply filter_all, Forall_forall. intros c Hin.
    destruct (rank_entry _ _ _ _ _ Hrank Hin) as (first & rest & _ & _ & ->).
    unfold len. simpl. lia.
  - exists (atLeast t1 rank). split; [by constructor|].
    unfold atLeast. rewrite list_filter_filter. apply list_filter_iff. intros c. lia.
Qed.

End ReportExtras.

(** ** The request adapter *)

Lemma recorded_slots m now u name h m' slot :
  recorded m now u name h m' → slot ∈ slots m' →
  slot = mkTaskSlot u name now h ∨ slot ∈ slots m.
Proof.
  intros Hrec Hin. destruct Hrec; simpl in Hin.
  1-4: by apply elem_of_insert_inv in Hin.
  apply elem_of_app in Hin as [?| ->%list_elem_of_singleton]; [by right|by left].
Qed.

Lemma Contains_prefix s substr : String.prefix substr s = true → Contains s substr = true.
Proof. intros Hp. destruct s; cbn [Contains]; by rewrite Hp. Qed.

Lemma Contains_later a s substr : Contains s substr = true → Contains (String a s) substr = true.
Proof. intros Hc. cbn [Contains]. rewrite Hc. apply orb_true_r. Qed.

Lemma prefix_app substr s post :
  String.prefix substr s = true → String.prefix substr (s ++ post) = true.
Proof.
  revert s. induction substr as [|a substr IH]; intros s.
  - intros _. by destruct (s ++ post)%string.
  - destruct s as [|b s]; [done|]. simpl.
    destruct (ascii_dec a b); [apply IH|done].
Qed.

Lemma Contains_app s substr pre post :
  Contains s substr = true → Contains (pre ++ s ++ post) substr = true.
Proof.
  intros Hc. induction pre as [|a pre IH]; [|by apply Contains_later].
  simpl. clear -Hc. induction s as [|a s IH].
  - simpl in Hc. rewrite orb_false_r in Hc. destruct substr; [|done].
    destruct post; done.
  - cbn [Contains] in Hc. apply orb_true_iff in Hc as [Hp|Hc].
    + apply Contains_prefix. by apply (prefix_app substr (String a s)).
    + apply Contains_later. by apply IH.
Qed.

Section AdapterExtras.
Context (salt : string).

(** X13. A path that holds one of the patterns of a chat request still
    holds it with anything before and after it: the test is on
    substrings. *)
Theorem isChatRequest_embedded (path pre post : string) :
  isChatRequest path = true → isChatRequest (pre ++ path ++ post) = true.
Proof.
  unfold isChatRequest. rewrite !orb_true_iff, andb_true_iff.
  intros [[[[H|H]|H]|H]|[H1 H2]].
  - do 4 left. by apply Contains_app.
  - do 3 left. right. by apply Contains_app.
  - do 2 left. right. by apply Contains_app.
  - left. right. by apply Contains_app.
  - right. apply andb_true_iff. split; by apply Contains_app.
Qed.

(** X14. The stores that requests build are stores that [RecordTask]
    builds, and every cell of them belongs to a positive user. On such a
    store a further request returns, and changes the store only for a
    positive user and a context whose path is that of a chat request. *)
Theorem requests_keep_positive_owners m now c userID username modelName :
  reachableByRequests salt m →
  reachable salt m ∧
  (∀ slot, slot ∈ slots m → 0 < UserID slot) ∧
  ∃ m', RecordActiveTaskSlot salt m now c userID username modelName = Some m' ∧
        (m' ≠ m → 0 < userID ∧ ∃ gc, c = Some gc ∧ isChatRequest (requestPath gc) = true).
Proof.
  intros Hreq.
  assert (reachable salt m ∧ ∀ slot, slot ∈ slots m → 0 < UserID slot) as [Hreach Hpos].
  { clear now c userID username modelName.
    induction Hreq as [|m now c u name model m' _ [Hreach Hpos] Hstep].
    - split; [constructor|]. by intros slot ?%elem_of_nil.
    - unfold RecordActiveTaskSlot in Hstep.
      destruct (Z.leb_spec u 0) as [|Hu]; [by injection Hstep as <-|].
      destruct c as [gc|]; [|by injection Hstep as <-].
      destruct (negb (isChatRequest (requestPath gc))); [by injection Hstep as <-|].
      split; [by econstructor|]. intros slot Hin.
      pose proof (proj1 (reachable_invariant _ _ Hreach)) as Hc.
      apply RecordTask_deterministic_recorded in Hstep; [|done].
      destruct (recorded_slots _ _ _ _ _ _ _ Hstep Hin) as [->|Hold]; [done|by apply Hpos]. }
  split; [done|]. split; [done|].
  pose proof (proj1 (reachable_invariant _ _ Hreach)) as Hc.
  unfold RecordActiveTaskSlot.
  destruct (Z.leb_spec userID 0) as [|Hu]; [by exists m|].
  destruct c as [gc|]; [|by exists m].
  destruct (isChatRequest (requestPath gc)) eqn:Hchat; simpl; [|by exists m].
  match goal with |- ∃ m', RecordTask salt m now userID username ?d = _ ∧ _ =>
    destruct (RecordTask_recorded salt m now userID username d Hc) as (m' & Hrun & _) end.
  exists m'. split; [done|]. intros _. split; [done|]. by exists gc.
Qed.

End AdapterExtras.

(** ** The scanner *)

Lemma saveLoop_elem isAdmin now high r :
  r ∈ saveLoop isAdmin now high ↔
  ∃ u, u ∈ high ∧ isAdmin (CountUserID u) = false ∧
       r = mkRecord 0 (CountUserID u) (CountUsername u) (ActiveSlots u)
                    HighActiveTaskWindowSeconds now.
Proof.
  induction high as [|u high IH]; simpl.
  - split; [by intros ?%elem_of_nil|]. by intros (u & ?%elem_of_nil & _).
  - destruct (isAdmin (CountUserID u)) eqn:Hadm.
    + rewrite IH. split.
      * intros (v & Hv & Hrest). exists v. split; [by right|done].
      * intros (v & [->|Hv]%elem_of_cons & Hna & Hr); [congruence|by eauto].
    + rewrite elem_of_cons, IH. split.
      * intros [->|(v & Hv & Hrest)]; [exists u; split; [by left|done]|].
        exists v. split; [by right|done].
      * intros (v & [->|Hv]%elem_of_cons & Hna & Hr); [by left|right; by eauto].
Qed.

Lemma saveLoop_users isAdmin now high :
  UserId <$> saveLoop isAdmin now high
  = filter (fun u => isAdmin u = false) (CountUserID <$> high).
Proof.
  induction high as [|u high IH]; [done|]. cbn [saveLoop fmap list_fmap].
  rewrite filter_cons. destruct (isAdmin (CountUserID u)) eqn:Hadm.
  - by rewrite decide_False by done.
  - rewrite decide_True by done. cbn [fmap list_fmap]. simpl. by rewrite <- IH.
Qed.

Lemma totalActive_at_least t rank :
  (∀ c, c ∈ rank → t ≤ ActiveSlots c) → t * len rank ≤ totalActive rank.
Proof.
  unfold len. induction rank as [|c rank IH]; intros Hall; simpl; [lia|].
  specialize (Hall c ltac:(by left)) as Hc.
  assert (t * Z.of_nat (length rank) ≤ totalActive rank) by (apply IH; intros; apply Hall; by right).
  unfold totalActive in *. lia.
Qed.

Lemma totalActive_filter (P : UserActiveTaskCount → Prop) `{∀ c, Decision (P c)} rank :
  (∀ c, c ∈ rank → 0 ≤ ActiveSlots c) →
  totalActive (filter P rank) ≤ totalActive rank.
Proof.
  induction rank as [|c rank IH]; intros Hpos; [done|].
  rewrite filter_cons.
  assert (totalActive (filter P rank) ≤ totalActive rank)
    by (apply IH; intros; apply Hpos; by right).
  specialize (Hpos c ltac:(by left)).
  destruct (decide (P c)); unfold totalActive in *; simpl; lia.
Qed.

Section ScannerExtras.
Context (salt : string).

(** X15. A scan of a store built by [RecordTask] hands at most 200 records
    to the database, no two for the same user, none for an
    administrator, each with the window 600, the reading of the scan and
    between 5 and 50 active cells, which are the count of the user in
    the ranking. *)
Theorem scan_records_bounded isAdmin m rankNow now saved :
  reachable salt m →
  scanAndSaveHighActiveUsers isAdmin m rankNow now saved →
  len saved ≤ 200 ∧
  NoDup (UserId <$> saved) ∧
  ∀ r, r ∈ saved →
    Id r = 0 ∧ isAdmin (UserId r) = false ∧ WindowSecs r = 600 ∧ CreatedAt r = now ∧
    5 ≤ RecordActiveSlots r ≤ 50 ∧
    ∃ rank, GetActiveTaskRank m rankNow 600 rank ∧
            mkCount (UserId r) (RecordUsername r) (RecordActiveSlots r) ∈ rank.
Proof.
  intros Hreach [high [rank Hrank]].
  assert (∀ c, c ∈ rank → 1 ≤ ActiveSlots c ≤ 50) as Hentry
    by (intros c Hin; by apply (rank_entry_bounds salt m rankNow _ rank Hreach Hrank)).
  assert ((if len (atLeast HighActiveTaskThreshold rank) =? 0 then []
           else saveLoop isAdmin now (atLeast HighActiveTaskThreshold rank))
          = saveLoop isAdmin now (atLeast HighActiveTaskThreshold rank)) as ->.
  { unfold len. destruct (atLeast HighActiveTaskThreshold rank); done. }
  split; [|split].
  - assert (len (saveLoop isAdmin now (atLeast HighActiveTaskThreshold rank))
            ≤ len (atLeast HighActiveTaskThreshold rank)) as Hlen.
    { unfold len. rewrite <- (length_fmap UserId), saveLoop_users.
      pose proof (length_filter (fun u => isAdmin u = false)
                    (CountUserID <$> atLeast HighActiveTaskThreshold rank)) as Hf.
      rewrite length_fmap in Hf. lia. }
    pose proof (totalActive_at_least 5 (atLeast HighActiveTaskThreshold rank)) as H5.
    assert (∀ c, c ∈ atLeast HighActiveTaskThreshold rank → 5 ≤ ActiveSlots c) as Hall.
    { intros c [Hc _]%list_elem_of_filter. done. }
    specialize (H5 Hall).
    pose proof (totalActive_filter (fun c => HighActiveTaskThreshold ≤ ActiveSlots c) rank) as Hsub.
    assert (∀ c, c ∈ rank → 0 ≤ ActiveSlots c) as Hpos
      by (intros c Hc; specialize (Hentry c Hc); lia).
    specialize (Hsub Hpos). fold (atLeast HighActiveTaskThreshold rank) in Hsub.
    pose proof (rank_total _ _ _ _ Hrank) as Htot.
    pose proof (length_filter
      (fun slot => wrap64 (rankNow - effectiveWindow HighActiveTaskWindowSeconds)
                   ≤ UpdatedAt slot) (slots m)) as Hf.
    destruct (reachable_invariant _ _ Hreach) as [_ [Hg _]].
    unfold len, MaxGlobalSlots in *. lia.
  - rewrite saveLoop_users. apply NoDup_filter.
    eapply sublist_NoDup; [by eapply rank_users_once|].
    apply fmap_sublist, sublist_filter.
  - intros r (u & [Hu Hin]%list_elem_of_filter & Hna & ->)%saveLoop_elem. simpl.
    specialize (Hentry u Hin). unfold HighActiveTaskThreshold in Hu.
    split; [done|]. split; [done|]. split; [done|]. split; [done|]. split; [lia|].
    exists rank. split; [done|]. by destruct u.
Qed.

End ScannerExtras.

(** ** The controller *)


(** ** The hour of an event *)

Lemma AlignHourStartTs_positive createdAt :
  0 < createdAt → AlignHourStartTs createdAt = 3600 * (createdAt / 3600).
Proof.
  intros Hpos. unfold AlignHourStartTs.
  destruct (Z.leb_spec createdAt 0); [lia|].
  rewrite Z.rem_mod_nonneg by lia. pose proof (Z.div_mod createdAt 3600). lia.
Qed.

Lemma AlignHourStartTs_nonneg createdAt : 0 ≤ AlignHourStartTs createdAt.
Proof.
  destruct (Z.leb_spec createdAt 0) as [Hle|Hpos].
  - unfold AlignHourStartTs. by rewrite (proj2 (Z.leb_le _ _) Hle).
  - rewrite AlignHourStartTs_positive by done.
    assert (0 ≤ createdAt / 3600) by (apply Z.div_pos; lia). lia.
Qed.

Lemma AlignHourStartTs_zero createdAt : AlignHourStartTs createdAt = 0 ↔ createdAt < 3600.
Proof.
  destruct (Z.leb_spec createdAt 0) as [Hle|Hpos].
  - unfold AlignHourStartTs. rewrite (proj2 (Z.leb_le _ _) Hle). split; [lia|done].
  - rewrite AlignHourStartTs_positive by done.
    pose proof (Z.div_mod createdAt 3600 ltac:(lia)).
    pose proof (Z.mod_pos_bound createdAt 3600 ltac:(lia)).
    split; [intros Hz; assert (createdAt / 3600 = 0) by lia; lia|].
    intros Hlt. rewrite Z.div_small; lia.
Qed.

(** X17. [AlignHourStartTs] is 0 for a timestamp that is not positive, and
    for a positive one the start of its hour: the greatest multiple of
    3600 that is not above it. It is 0 exactly below 3600. *)
Theorem AlignHourStartTs_start_of_hour (createdAt : Z) :
  AlignHourStartTs createdAt mod 3600 = 0 ∧
  0 ≤ AlignHourStartTs createdAt ∧
  (createdAt ≤ 0 → AlignHourStartTs createdAt = 0) ∧
  (0 < createdAt →
   AlignHourStartTs createdAt ≤ createdAt < AlignHourStartTs createdAt + 3600) ∧
  (AlignHourStartTs createdAt = 0 ↔ createdAt < 3600).
Proof.
  destruct (Z.leb_spec createdAt 0) as [Hle|Hpos].
  - unfold AlignHourStartTs. rewrite (proj2 (Z.leb_le _ _) Hle).
    repeat split; try done; lia.
  - rewrite AlignHourStartTs_positive by done.
    pose proof (Z.div_mod createdAt 3600 ltac:(lia)).
    pose proof (Z.mod_pos_bound createdAt 3600 ltac:(lia)).
    assert (0 ≤ createdAt / 3600) by (apply Z.div_pos; lia).
    split; [by rewrite Z.mul_comm, Z.mod_mul|].
    split; [lia|]. split; [lia|]. split; [lia|].
    split; [intros Hz; assert (createdAt / 3600 = 0) by lia; lia|].
    intros Hlt. rewrite Z.div_small; lia.
Qed.

(** X18. [AlignHourStartTs] is idempotent and monotone, and two positive
    timestamps have the same start exactly when they lie in one hour. *)
Theorem AlignHourStartTs_idempotent_monotone (a b : Z) :
  AlignHourStartTs (AlignHourStartTs a) = AlignHourStartTs a ∧
  (a ≤ b → AlignHourStartTs a ≤ AlignHourStartTs b) ∧
  (0 < a → 0 < b → (AlignHourStartTs a = AlignHourStartTs b ↔ a / 3600 = b / 3600)).
Proof.
  split; [|split].
  - destruct (Z.leb_spec a 0) as [Hle|Hpos].
    + unfold AlignHourStartTs. by rewrite (proj2 (Z.leb_le _ _) Hle).
    + rewrite (AlignHourStartTs_positive a) by done.
      assert (0 ≤ a / 3600) by (apply Z.div_pos; lia).
      destruct (decide (a / 3600 = 0)) as [->|Hne]; [done|].
      rewrite AlignHourStartTs_positive by lia.
      replace (3600 * (a / 3600) / 3600) with (a / 3600); [done|].
      symmetry. rewrite Z.mul_comm. apply Z.div_mul. lia.
  - intros Hab. destruct (Z.leb_spec a 0) as [Hle|Hpos].
    + unfold AlignHourStartTs at 1. rewrite (proj2 (Z.leb_le _ _) Hle).
      apply AlignHourStartTs_nonneg.
    + rewrite !AlignHourStartTs_positive by lia.
      pose proof (Z.div_le_mono a b 3600 ltac:(lia) Hab). lia.
  - intros Ha Hb. rewrite !AlignHourStartTs_positive by done. lia.
Qed.

(** ** The buffer of hourly calls *)

Lemma wrap64_add_l a b : wrap64 (wrap64 a + b) = wrap64 (a + b).
Proof.
  unfold wrap64. f_equal.
  replace ((a + 2 ^ 63) mod 2 ^ 64 - 2 ^ 63 + b + 2 ^ 63) with ((a + 2 ^ 63) mod 2 ^ 64 + b) by lia.
  rewrite Zplus_mod_idemp_l. f_equal. lia.
Qed.

Lemma wrap64_succ_ne t : wrap64 (t + 1) ≠ t.
Proof.
  unfold wrap64. intros Heq.
  assert ((t + 1 + 2 ^ 63) mod 2 ^ 64 = t + 2 ^ 63) as Hm by lia.
  pose proof (Z.div_mod (t + 1 + 2 ^ 63) (2 ^ 64) ltac:(lia)). lia.
Qed.

Lemma countedUnder_snoc key events ev :
  countedUnder key (events ++ [ev])
  = countedUnder key events ++ countedUnder key [ev].
Proof. unfold countedUnder. by rewrite omap_app, filter_app. Qed.

Lemma countedUnder_one key ev :
  countedUnder key [ev]
  = match ev with
    | Some e =>
        if decide (AlignHourStartTs (EventCreatedAt e) ≠ 0 ∧ 0 < EventUserId e ∧
                   (AlignHourStartTs (EventCreatedAt e), EventUserId e) = key)
        then [e] else []
    | None => []
    end.
Proof.
  unfold countedUnder. destruct ev as [e|]; [|done]. cbn [omap list_omap id].
  rewrite filter_cons, filter_nil. by destruct (decide _).
Qed.

Lemma aggOf_snoc l e :
  aggOf (l ++ [e])
  = Some (mkAgg (EventUsername e) (wrap64 (len l + 1))
                (wrap64 (len (filter (fun e => IsError e = false) l)
                         + (if IsError e then 0 else 1)))).
Proof.
  unfold aggOf. rewrite last_snoc, filter_app. unfold len. rewrite !length_app.
  do 2 f_equal.
  - f_equal. simpl. lia.
  - f_equal. rewrite filter_cons, filter_nil. destruct (IsError e).
    + rewrite decide_False by done. simpl. lia.
    + rewrite decide_True by done. simpl. lia.
Qed.

Lemma aggOf_counters l :
  TotalCalls (default (mkAgg EmptyString 0 0) (aggOf l)) = wrap64 (len l) ∧
  SuccessCalls (default (mkAgg EmptyString 0 0) (aggOf l))
  = wrap64 (len (filter (fun e => IsError e = false) l)).
Proof.
  unfold aggOf. destruct (last l) as [e|] eqn:Hl; [done|].
  apply last_None in Hl as ->. done.
Qed.

Lemma recordEvents_lookup events key :
  recordEvents ∅ events !! key = aggOf (countedUnder key events).
Proof.
  induction events as [|ev events IH] using rev_ind;
    [unfold recordEvents; cbn [fold_left]; by rewrite lookup_empty|].
  unfold recordEvents in *. rewrite fold_left_app. cbn [fold_left].
  rewrite countedUnder_snoc, countedUnder_one.
  destruct ev as [e|]; [|by rewrite app_nil_r]. cbn [RecordUserCallHourlyEventAsync].
  destruct (Z.eqb_spec (AlignHourStartTs (EventCreatedAt e)) 0) as [Hz|Hz]; cbn [orb].
  { rewrite decide_False by tauto. by rewrite app_nil_r. }
  destruct (Z.leb_spec (EventUserId e) 0) as [Hu|Hu].
  { rewrite decide_False by lia. by rewrite app_nil_r. }
  cbn [fst]. destruct (decide ((AlignHourStartTs (EventCreatedAt e), EventUserId e) = key))
    as [<-|Hne].
  - rewrite decide_True by done. rewrite lookup_insert_eq, IH, aggOf_snoc.
    destruct (aggOf_counters (countedUnder (AlignHourStartTs (EventCreatedAt e), EventUserId e)
                                           events)) as [-> ->].
    rewrite wrap64_add_l. do 2 f_equal. destruct (IsError e).
    + by rewrite Z.add_0_r.
    + by rewrite wrap64_add_l.
  - rewrite decide_False by tauto. by rewrite lookup_insert_ne, app_nil_r.
Qed.

Lemma countedUnder_length key events :
  (length (countedUnder key events) ≤ length events)%nat.
Proof.
  unfold countedUnder. etrans; [apply length_filter|].
  induction events as [|[e|] events IH]; [done|..].
  - change (omap id (Some e :: events)) with (e :: omap id events). simpl. lia.
  - change (omap id (None :: events)) with (omap id events). simpl. lia.
Qed.

Lemma countedUnder_key key events e :
  e ∈ countedUnder key events →
  key = (AlignHourStartTs (EventCreatedAt e), EventUserId e) ∧
  3600 ≤ key.1 ∧ key.1 mod 3600 = 0 ∧ 0 < key.2.
Proof.
  intros [(Hz & Hu & <-) _]%list_elem_of_filter. simpl.
  split; [done|]. split; [|split; [|done]].
  - pose proof (proj2 (AlignHourStartTs_zero (EventCreatedAt e))) as Hlt.
    destruct (Z.lt_ge_cases (EventCreatedAt e) 3600) as [?|Hge]; [tauto|].
    rewrite AlignHourStartTs_positive by lia.
    pose proof (Z.div_le_mono 3600 (EventCreatedAt e) 3600 ltac:(lia) Hge) as Hd.
    rewrite Z.div_same in Hd by lia. lia.
  - destruct (Z.leb_spec (EventCreatedAt e) 0) as [Hle|Hpos].
    + unfold AlignHourStartTs. by rewrite (proj2 (Z.leb_le _ _) Hle).
    + rewrite AlignHourStartTs_positive by done. by rewrite Z.mul_comm, Z.mod_mul.
Qed.

(** X19. From the empty buffer, and short of 2^63 events, the entry of a
    key holds the name of the last event counted under the key, the
    number of these events and the number of those without error; a key
    without such an event has no entry. *)
Theorem recordEvents_aggregates events key :
  len events < 2 ^ 63 →
  (countedUnder key events = [] ∧ recordEvents ∅ events !! key = None) ∨
  ∃ l e,
    countedUnder key events = l ++ [e] ∧
    recordEvents ∅ events !! key
    = Some (mkAgg (EventUsername e) (len (l ++ [e]))
                  (len (filter (fun e => IsError e = false) (l ++ [e])))).
Proof.
  intros Hlen. rewrite recordEvents_lookup.
  pose proof (countedUnder_length key events) as Hc.
  revert Hc. generalize (countedUnder key events).
  intros l. induction l as [|e0 l0 _] using rev_ind; intros Hc; [by left|].
  right. exists l0, e0. split; [done|].
  pose proof (length_filter (fun e => IsError e = false) (l0 ++ [e0])) as Hf.
  unfold aggOf. rewrite last_snoc. unfold len in *.
  by rewrite !wrap64_id by lia.
Qed.

Lemma buffer_entry_counts events key agg :
  len events < 2 ^ 63 →
  recordEvents ∅ events !! key = Some agg →
  1 ≤ TotalCalls agg ≤ len events ∧ 0 ≤ SuccessCalls agg ≤ TotalCalls agg.
Proof.
  intros Hlen. rewrite recordEvents_lookup.
  pose proof (countedUnder_length key events) as Hc.
  revert Hc. generalize (countedUnder key events).
  intros l. induction l as [|e0 l0 _] using rev_ind; intros Hc; [done|].
  pose proof (length_filter (fun e => IsError e = false) (l0 ++ [e0])) as Hf.
  unfold aggOf. rewrite last_snoc. intros [= <-]. simpl. unfold len in *.
  rewrite !wrap64_id by lia. rewrite length_app in *. simpl in *. lia.
Qed.

(** X20. Every entry of a buffer built from the empty one has an hour that
    is a positive multiple of 3600, a positive user, at least one call,
    and no more successes than calls. *)
Theorem buffer_entries_valid events key agg :
  len events < 2 ^ 63 →
  recordEvents ∅ events !! key = Some agg →
  key.1 mod 3600 = 0 ∧ 3600 ≤ key.1 ∧ 0 < key.2 ∧
  1 ≤ TotalCalls agg ≤ len events ∧ 0 ≤ SuccessCalls agg ≤ TotalCalls agg.
Proof.
  intros Hlen. rewrite recordEvents_lookup.
  pose proof (countedUnder_length key events) as Hc.
  pose proof (countedUnder_key key events) as Hkey.
  revert Hc Hkey. generalize (countedUnder key events).
  intros l. induction l as [|e0 l0 _] using rev_ind; intros Hc Hkey; [done|].
  destruct (Hkey e0) as (_ & ? & ? & ?); [apply elem_of_app; right; by left|].
  pose proof (length_filter (fun e => IsError e = false) (l0 ++ [e0])) as Hf.
  unfold aggOf. rewrite last_snoc. intros [= <-]. simpl. unfold len in *.
  rewrite !wrap64_id by lia. rewrite length_app in *. simpl in *. lia.
Qed.

(** X21. An event leaves the buffer as it was exactly when it is the nil
    event, an event of a user that is not positive, or an event before
    the hour 3600; such an event starts no flush. *)
Theorem event_left_out_iff buffer event :
  ((RecordUserCallHourlyEventAsync buffer event).1 = buffer ↔ leftOut event) ∧
  (leftOut event → (RecordUserCallHourlyEventAsync buffer event).2 = false).
Proof.
  destruct event as [e|]; [|done]. cbn [RecordUserCallHourlyEventAsync leftOut].
  pose proof (AlignHourStartTs_zero (EventCreatedAt e)) as Hzero.
  destruct (Z.eqb_spec (AlignHourStartTs (EventCreatedAt e)) 0) as [Hz|Hz]; cbn [orb].
  { split; [split; [tauto|done]|done]. }
  destruct (Z.leb_spec (EventUserId e) 0) as [Hu|Hu].
  { split; [split; [tauto|done]|done]. }
  cbn [fst snd]. split; [|intros [?|?]; [tauto|lia]].
  split; [|intros [?|?]; [tauto|lia]]. intros Heq. exfalso.
  pose proof (f_equal (fun b => b !! (AlignHourStartTs (EventCreatedAt e), EventUserId e)) Heq)
    as Hl.
  cbv beta in Hl. rewrite lookup_insert_eq in Hl.
  destruct (buffer !! (AlignHourStartTs (EventCreatedAt e), EventUserId e)) as [agg|];
    [|done].
  injection Hl as Hl. apply (f_equal TotalCalls) in Hl. simpl in Hl.
  by apply wrap64_succ_ne in Hl.
Qed.

(** X22. The counts of a buffer do not depend on the order of the events. *)
Theorem counts_order_independent events1 events2 key :
  events1 ≡ₚ events2 →
  (fun agg => (TotalCalls agg, SuccessCalls agg)) <$> (recordEvents ∅ events1 !! key)
  = (fun agg => (TotalCalls agg, SuccessCalls agg)) <$> (recordEvents ∅ events2 !! key).
Proof.
  intros Hperm. rewrite !recordEvents_lookup.
  assert (countedUnder key events1 ≡ₚ countedUnder key events2) as Hc.
  { unfold countedUnder. by rewrite Hperm. }
  pose proof (Permutation_length Hc) as Hlen.
  assert (filter (fun e => IsError e = false) (countedUnder key events1)
          ≡ₚ filter (fun e => IsError e = false) (countedUnder key events2)) as Hf
    by (by rewrite Hc).
  apply Permutation_length in Hf. unfold aggOf, len.
  destruct (last (countedUnder key events1)) as [e1|] eqn:H1;
    destruct (last (countedUnder key events2)) as [e2|] eqn:H2; simpl.
  - by rewrite Hlen, Hf.
  - apply last_None in H2. rewrite H2 in Hlen. apply length_zero_iff_nil in Hlen.
    by rewrite Hlen in H1.
  - apply last_None in H1. rewrite H1 in Hlen. symmetry in Hlen.
    apply length_zero_iff_nil in Hlen. by rewrite Hlen in H2.
  - done.
Qed.

Lemma event_kept_or_left buffer ev :
  (leftOut ev ∧ (RecordUserCallHourlyEventAsync buffer ev).1 = buffer) ∨
  ∃ e, ev = Some e ∧ (3600 ≤ EventCreatedAt e ∧ 0 < EventUserId e) ∧
    (RecordUserCallHourlyEventAsync buffer ev).1
    = <[(AlignHourStartTs (EventCreatedAt e), EventUserId e) :=
          mkAgg (EventUsername e)
            (wrap64 (TotalCalls (default (mkAgg EmptyString 0 0)
               (buffer !! (AlignHourStartTs (EventCreatedAt e), EventUserId e))) + 1))
            (if IsError e
             then SuccessCalls (default (mkAgg EmptyString 0 0)
               (buffer !! (AlignHourStartTs (EventCreatedAt e), EventUserId e)))
             else wrap64 (SuccessCalls (default (mkAgg EmptyString 0 0)
               (buffer !! (AlignHourStartTs (EventCreatedAt e), EventUserId e))) + 1))]>
        buffer.
Proof.
  destruct ev as [e|]; [|by left]. cbn [RecordUserCallHourlyEventAsync leftOut].
  pose proof (AlignHourStartTs_zero (EventCreatedAt e)) as Hzero.
  destruct (Z.eqb_spec (AlignHourStartTs (EventCreatedAt e)) 0) as [Hz|Hz]; cbn [orb].
  { left. tauto. }
  destruct (Z.leb_spec (EventUserId e) 0) as [Hu|Hu]; [left; tauto|].
  right. exists e. split; [done|]. split; [|done].
  split; [|done]. destruct (Z.lt_ge_cases (EventCreatedAt e) 3600); [tauto|lia].
Qed.

(** ** Flushing the buffer *)

Lemma batchLoop_lookup {A} (rows : list A) fuel i j :
  (length rows ≤ i + fuel)%nat →
  batchLoop fuel i rows !! j
  = if (i + 100 * j <? length rows)%nat then Some (take 100 (drop (i + 100 * j) rows))
    else None.
Proof.
  revert i j. induction fuel as [|fuel IH]; intros i j Hlen; cbn [batchLoop].
  - rewrite (proj2 (Nat.ltb_ge _ _)) by lia. done.
  - destruct (Nat.ltb_spec i (length rows)) as [Hi|Hi].
    + destruct j as [|j].
      * cbn [lookup list_lookup]. rewrite Nat.mul_0_r, Nat.add_0_r.
        rewrite (proj2 (Nat.ltb_lt _ _) Hi). f_equal.
        destruct (Nat.ltb_spec (length rows) (i + 100)) as [He|He].
        -- rewrite !take_ge; [done|rewrite length_drop; lia..].
        -- f_equal. lia.
      * change ((?x :: ?l) !! S j) with (l !! j).
        rewrite IH by lia. by replace (i + 100 + 100 * j)%nat with (i + 100 * S j)%nat by lia.
    + rewrite (proj2 (Nat.ltb_ge _ _)) by lia. done.
Qed.

Lemma batchLoop_concat {A} (rows : list A) fuel i :
  (length rows ≤ i + fuel)%nat → concat (batchLoop fuel i rows) = drop i rows.
Proof.
  revert i. induction fuel as [|fuel IH]; intros i Hlen; cbn [batchLoop].
  - by rewrite drop_ge by lia.
  - destruct (Nat.ltb_spec i (length rows)) as [Hi|Hi]; [|by rewrite drop_ge by lia].
    cbn [concat]. rewrite IH by lia.
    destruct (Nat.ltb_spec (length rows) (i + 100)) as [He|He].
    + rewrite take_ge by (rewrite length_drop; lia).
      rewrite (drop_ge _ (i + 100)) by lia. by rewrite app_nil_r.
    + replace (i + 100 - i)%nat with 100%nat by lia.
      rewrite <- drop_drop. apply take_drop.
Qed.

Lemma batchLoop_length {A} (rows : list A) fuel i :
  (length rows ≤ i + fuel)%nat →
  (100 * length (batchLoop fuel i rows) < length rows - i + 100)%nat ∧
  (length rows - i ≤ 100 * length (batchLoop fuel i rows))%nat.
Proof.
  revert i. induction fuel as [|fuel IH]; intros i Hlen; cbn [batchLoop].
  - simpl. lia.
  - destruct (Nat.ltb_spec i (length rows)) as [Hi|Hi]; [|simpl; lia].
    cbn [length]. specialize (IH (i + 100)%nat ltac:(lia)). lia.
Qed.

Lemma totalCalls_perm r1 r2 : r1 ≡ₚ r2 → totalCalls r1 = totalCalls r2.
Proof. unfold totalCalls. induction 1; simpl; lia. Qed.

Lemma bufferCalls_insert_new (b : gmap (Z * Z) userCallHourlyAgg) k a :
  b !! k = None →
  totalCalls (rowOf <$> map_to_list (<[k:=a]> b))
  = TotalCalls a + totalCalls (rowOf <$> map_to_list b).
Proof.
  intros Hk. rewrite (totalCalls_perm _ (rowOf <$> (k, a) :: map_to_list b)); [done|].
  by rewrite map_to_list_insert.
Qed.

Lemma bufferCalls_insert_old (b : gmap (Z * Z) userCallHourlyAgg) k a0 a :
  b !! k = Some a0 →
  totalCalls (rowOf <$> map_to_list (<[k:=a]> b))
  = TotalCalls a - TotalCalls a0 + totalCalls (rowOf <$> map_to_list b).
Proof.
  intros Hk.
  rewrite <- (insert_delete_eq b k a), bufferCalls_insert_new by apply lookup_delete_eq.
  rewrite <- (insert_id b k a0 Hk) at 2.
  rewrite <- (insert_delete_eq b k a0), bufferCalls_insert_new by apply lookup_delete_eq.
  lia.
Qed.

Lemma recordEvents_snoc b events ev :
  recordEvents b (events ++ [ev])
  = (RecordUserCallHourlyEventAsync (recordEvents b events) ev).1.
Proof. unfold recordEvents. by rewrite fold_left_app. Qed.

Lemma recordEvents_calls events :
  len events < 2 ^ 63 →
  totalCalls (rowOf <$> map_to_list (recordEvents ∅ events))
  = len (filter (fun ev => ¬ leftOut ev) events).
Proof.
  induction events as [|ev events IH] using rev_ind; intros Hlen.
  - unfold recordEvents. cbn [fold_left]. by rewrite map_to_list_empty.
  - unfold len in *. rewrite length_app in Hlen. cbn [length] in Hlen.
    rewrite recordEvents_snoc, filter_app, length_app.
    destruct (event_kept_or_left (recordEvents ∅ events) ev) as [[Hleft ->]|(e & -> & Hkeep & ->)].
    + rewrite IH by lia. rewrite filter_cons_False, filter_nil by tauto. simpl. lia.
    + rewrite filter_cons_True, filter_nil by (simpl; lia). cbn [length].
      pose proof (recordEvents_lookup events
                    (AlignHourStartTs (EventCreatedAt e), EventUserId e)) as Hl.
      pose proof (countedUnder_length (AlignHourStartTs (EventCreatedAt e), EventUserId e)
                    events) as Hc.
      destruct (recordEvents ∅ events !! _) as [a0|] eqn:Hk.
      * rewrite (bufferCalls_insert_old _ _ a0) by done. rewrite IH by lia. simpl.
        unfold aggOf in Hl. destruct (last _); [|done]. injection Hl as ->. simpl.
        unfold len. rewrite (wrap64_id (Z.of_nat _)) by lia. rewrite wrap64_id by lia. lia.
      * rewrite bufferCalls_insert_new by done. rewrite IH by lia. simpl.
        rewrite wrap64_id by lia. lia.
Qed.

Lemma totalCalls_nonneg rows :
  Forall (fun r => 0 ≤ RowTotalCalls r) rows → 0 ≤ totalCalls rows.
Proof. unfold totalCalls. induction 1; simpl; lia. Qed.

Lemma upsert_entries dbIsNil buffer batches :
  batchUpsertUserCallHourly dbIsNil buffer batches →
  dbIsNil = false →
  ∃ entries, entries ≡ₚ map_to_list buffer ∧
    batches = batchLoop (length entries) 0 (rowOf <$> entries).
Proof.
  intros Hb Hdb. destruct Hb as [[?|Hsize]|entries _ _ Hperm]; [congruence| |by exists entries].
  apply map_size_empty_iff in Hsize as ->. exists []. by rewrite map_to_list_empty.
Qed.

Lemma upsert_rows buffer batches :
  batchUpsertUserCallHourly false buffer batches →
  concat batches ≡ₚ rowOf <$> map_to_list buffer.
Proof.
  intros (entries & Hperm & ->)%upsert_entries; [|done].
  rewrite batchLoop_concat, drop_0 by (rewrite length_fmap; lia). by rewrite Hperm.
Qed.

Lemma filter_not_nil {A} (P : A → Prop) `{∀ x, Decision (P x)} (l : list A) :
  filter (fun x => ¬ P x) l = [] ↔ Forall P l.
Proof.
  induction l as [|x l IH]; [by rewrite filter_nil|].
  rewrite filter_cons, Forall_cons. destruct (decide (¬ P x)) as [Hx|Hx].
  - split; [done|tauto].
  - rewrite IH. destruct (decide (P x)); tauto.
Qed.

Section FlushExtras.

(** X23. The batches of one buffer hold, together, one row for each entry
    of the buffer and no two rows with the same hour and user; every
    batch has between 1 and 100 rows, and every batch but the last has
    100. *)
Theorem batchUpsertUserCallHourly_batches buffer batches :
  batchUpsertUserCallHourly false buffer batches →
  concat batches ≡ₚ rowOf <$> map_to_list buffer ∧
  NoDup (rowKey <$> concat batches) ∧
  Forall (fun batch => (1 ≤ length batch ≤ 100)%nat) batches ∧
  (∀ j batch, batches !! j = Some batch → (S j < length batches)%nat →
     length batch = 100%nat).
Proof.
  intros Hb.
  destruct (upsert_entries _ _ _ Hb eq_refl) as (entries & Hperm & ->).
  assert (length (rowOf <$> entries) ≤ 0 + length entries)%nat as Hfuel
    by (rewrite length_fmap; lia).
  pose proof (batchLoop_length (rowOf <$> entries) _ _ Hfuel) as Hcount.
  rewrite batchLoop_concat, drop_0 by done. split; [by rewrite Hperm|]. split.
  - rewrite <- list_fmap_compose.
    assert (rowKey ∘ rowOf <$> entries = entries.*1) as ->.
    { apply list_fmap_ext. by intros _ [[] ?] _. }
    rewrite Hperm. apply NoDup_fst_map_to_list.
  - split.
    + apply Forall_lookup. intros j batch Hj.
      rewrite (batchLoop_lookup _ _ _ j Hfuel) in Hj.
      destruct (Nat.ltb_spec (0 + 100 * j) (length (rowOf <$> entries))); [|done].
      injection Hj as <-. rewrite length_take, length_drop. lia.
    + intros j batch Hj Hlast.
      rewrite (batchLoop_lookup _ _ _ j Hfuel) in Hj.
      destruct (Nat.ltb_spec (0 + 100 * j) (length (rowOf <$> entries))); [|done].
      injection Hj as <-. rewrite length_take, length_drop. lia.
Qed.

(** X24. After the events of a run are recorded from the empty buffer, a
    flush leaves the buffer empty. It calls [batchUpsertUserCallHourly]
    exactly when some event was not left out. Then, with a database, the
    rows of the batches account for one call for each event that was not
    left out; without a database ([db == nil]) no batch is handed over,
    and these calls are lost with the buffer. *)
Theorem flush_accounts_for_calls events :
  len events < 2 ^ 63 →
  (flushUserCallHourlyBuffer (recordEvents ∅ events)).1 = ∅ ∧
  match (flushUserCallHourlyBuffer (recordEvents ∅ events)).2 with
  | None => Forall leftOut events
  | Some old =>
      ¬ Forall leftOut events ∧
      ∀ dbIsNil batches, batchUpsertUserCallHourly dbIsNil old batches →
        if dbIsNil then batches = [] ∧ 0 < len (filter (fun ev => ¬ leftOut ev) events)
        else totalCalls (concat batches) = len (filter (fun ev => ¬ leftOut ev) events)
  end.
Proof.
  intros Hlen. pose proof (recordEvents_calls events Hlen) as Hcalls.
  pose proof (filter_not_nil leftOut events) as Hall.
  unfold flushUserCallHourlyBuffer.
  destruct (Z.eqb_spec (Z.of_nat (size (recordEvents ∅ events))) 0) as [Hsize|Hsize];
    cbn [fst snd].
  - assert (recordEvents ∅ events = ∅) as Hempty by (apply map_size_empty_iff; lia).
    split; [done|]. apply Hall. rewrite Hempty, map_to_list_empty in Hcalls.
    apply length_zero_iff_nil. unfold len, totalCalls in Hcalls. simpl in Hcalls. lia.
  - split; [done|].
    assert (¬ Forall leftOut events) as Hsome.
    { intros Hleft%Hall. rewrite Hleft in Hcalls.
      destruct (map_to_list (recordEvents ∅ events)) as [|[k a] l] eqn:Hl.
      { apply map_to_list_empty_iff in Hl. rewrite Hl, map_size_empty in Hsize. lia. }
      assert (recordEvents ∅ events !! k = Some a) as Hk
        by (apply elem_of_map_to_list; rewrite Hl; by left).
      destruct (buffer_entry_counts events k a Hlen Hk) as [Hone _].
      assert (0 ≤ totalCalls (rowOf <$> l)) as Hrest.
      { apply totalCalls_nonneg, Forall_fmap, Forall_forall. intros [k' a'] Hin.
        assert (recordEvents ∅ events !! k' = Some a') as Hk'
          by (apply elem_of_map_to_list; rewrite Hl; by right).
        destruct (buffer_entry_counts events k' a' Hlen Hk'). simpl. lia. }
      unfold totalCalls, len in *.
      rewrite fmap_cons in Hcalls. cbn [foldr rowOf RowTotalCalls snd length] in Hcalls. lia. }
    split; [exact Hsome|]. intros [|] batches Hb.
    + split; [destruct Hb as [_|entries Hdb _ _]; [done|discriminate Hdb]|].
      assert (filter (fun ev => ¬ leftOut ev) events ≠ []) as Hf
        by (intros Hf; by apply Hall in Hf).
      destruct (filter (fun ev => ¬ leftOut ev) events) as [|ev l]; [done|].
      unfold len. cbn [length]. lia.
    + assert (concat batches ≡ₚ rowOf <$> map_to_list (recordEvents ∅ events)) as Hperm
        by (by apply upsert_rows).
      by rewrite (totalCalls_perm _ _ Hperm).
Qed.

End FlushExtras.

(** ** The further properties on example executions *)

Lemma default_is_Some {A} (d : A) (o : option A) :
  bool_decide (is_Some o) = true → o = Some (default d o).
Proof. intros [x ->]%bool_decide_eq_true. done. Qed.

(** The store after a third user calls on [smallStore]. *)
Lemma thirdStore_run :
  RecordTask zeroSalt smallStore 20 3 "cy" "alpha beta" = Some thirdStore.
Proof. apply default_is_Some. vm_compute. reflexivity. Qed.

Lemma requestStore_run :
  RecordActiveTaskSlot zeroSalt newManager 10 (Some chatRequest) 1 "ann" "gpt"
  = Some requestStore.
Proof. apply default_is_Some. vm_compute. reflexivity. Qed.

Lemma hamming64_zero_iff_equal_five :
  0 ≤ 5 < 2 ^ 64 ∧ (hamming64 5 5 = 0 ↔ 5 = 5).
Proof.
  assert (0 ≤ 5 < 2 ^ 64) as H by lia.
  split; [exact H|]. exact (hamming64_zero_iff_equal 5 5 H H).
Defined.

Lemma simhash64_repeated_text_twice :
  Fields "hello world hello world" ≡ₚ concat (replicate 2 (Fields "hello world")) ∧
  simhash64 zeroSalt "hello world hello world" = simhash64 zeroSalt "hello world".
Proof.
  assert (Fields "hello world hello world" ≡ₚ concat (replicate 2 (Fields "hello world")))
    as H by (vm_compute; reflexivity).
  split; [exact H|]. exact (simhash64_repeated_text zeroSalt _ _ 1 H).
Defined.

Lemma simhash64_one_or_two_tokens_hello :
  Fields "hello world" = ["hello"; "world"]%string ∧
  simhash64 zeroSalt "hello world"
  = Z.lor (tokenHash64 zeroSalt "hello") (tokenHash64 zeroSalt "world").
Proof.
  assert (Fields "hello world" = ["hello"; "world"]%string) as H by (vm_compute; reflexivity).
  split; [exact H|].
  exact (proj2 (simhash64_one_or_two_tokens zeroSalt "hello world" "hello" "world") H).
Defined.

Lemma RecordTask_writes_one_cell_small :
  indexConsistent smallStore ∧
  ∃ m' idx,
    RecordTask zeroSalt smallStore 20 3 "cy" "alpha beta" = Some m' ∧
    slots m' !! idx = Some (mkTaskSlot 3 "cy" 20 (simhash64 zeroSalt "alpha beta")) ∧
    last (lruOrder m') = Some idx ∧
    idx ∈ userSlotsOf m' 3 ∧
    (∀ k, k ≠ idx → (k < length (slots smallStore))%nat →
          slots m' !! k = slots smallStore !! k) ∧
    (length (slots smallStore) ≤ length (slots m') ≤ S (length (slots smallStore)))%nat.
Proof.
  destruct smallStore_invariants as (_ & Hc & _).
  split; [exact Hc|].
  exact (RecordTask_writes_one_cell zeroSalt smallStore 20 3 "cy" "alpha beta" Hc).
Defined.

Lemma RecordTask_idempotent_small :
  indexConsistent smallStore ∧
  RecordTask zeroSalt smallStore 20 3 "cy" "alpha beta" = Some thirdStore ∧
  RecordTask zeroSalt thirdStore 20 3 "cy" "alpha beta" = Some thirdStore.
Proof.
  destruct smallStore_invariants as (_ & Hc & _).
  split; [exact Hc|]. split; [exact thirdStore_run|].
  exact (RecordTask_idempotent zeroSalt smallStore 20 3 "cy" "alpha beta" thirdStore Hc
           thirdStore_run).
Defined.

Lemma findOldestUserSlot_first_of_least_small :
  indexConsistent smallStore ∧
  ((userSlotsOf smallStore 1 = [] ∧ findOldestUserSlot smallStore 1 = Some (-1)) ∨
   ∃ pre idx post old,
     userSlotsOf smallStore 1 = pre ++ idx :: post ∧ slots smallStore !! idx = Some old ∧
     findOldestUserSlot smallStore 1 = Some (Z.of_nat idx) ∧
     (∀ k sk, k ∈ pre → slots smallStore !! k = Some sk → UpdatedAt old < UpdatedAt sk) ∧
     (∀ k sk, k ∈ post → slots smallStore !! k = Some sk → UpdatedAt old ≤ UpdatedAt sk)).
Proof.
  destruct smallStore_invariants as (_ & Hc & _).
  split; [exact Hc|]. exact (findOldestUserSlot_first_of_least smallStore 1 Hc).
Defined.

Lemma RecordTask_then_ranked_small :
  indexConsistent smallStore ∧
  RecordTask zeroSalt smallStore 20 3 "cy" "alpha beta" = Some thirdStore ∧
  GetActiveTaskRank thirdStore 20 5 (rankInKeyOrder thirdStore 20 5) ∧
  ∃ name n, mkCount 3 name n ∈ rankInKeyOrder thirdStore 20 5 ∧ 1 ≤ n.
Proof.
  destruct smallStore_invariants as (_ & Hc & _).
  assert (0 ≤ 20 < 2 ^ 63) as Hnow by lia.
  assert (- 2 ^ 63 ≤ 5 < 2 ^ 63) as Hw by lia.
  split; [exact Hc|]. split; [exact thirdStore_run|].
  split; [exact (rankInKeyOrder_rank thirdStore 20 5)|].
  exact (RecordTask_then_ranked zeroSalt smallStore 20 3 "cy" "alpha beta" thirdStore 5 _
           Hc Hnow Hw thirdStore_run (rankInKeyOrder_rank thirdStore 20 5)).
Defined.

Lemma rank_accounts_for_active_slots_small :
  GetActiveTaskRank smallStore 40 27 (rankInKeyOrder smallStore 40 27) ∧
  totalActive (rankInKeyOrder smallStore 40 27)
  = len (filter (fun slot => wrap64 (40 - effectiveWindow 27) ≤ UpdatedAt slot)
                (slots smallStore)) ∧
  totalActive (rankInKeyOrder smallStore 40 27) ≤ total_slots (GetStats smallStore 40) ∧
  (27 ≤ 0 ∨ 27 = 30 →
   totalActive (rankInKeyOrder smallStore 40 27) = active_slots (GetStats smallStore 40)).
Proof.
  split; [exact (rankInKeyOrder_rank smallStore 40 27)|].
  exact (rank_accounts_for_active_slots smallStore 40 27 _ (rankInKeyOrder_rank smallStore 40 27)).
Defined.

Lemma rank_entries_bounded_small :
  reachable zeroSalt smallStore ∧
  GetActiveTaskRank smallStore 40 27 (rankInKeyOrder smallStore 40 27) ∧
  (∀ c, c ∈ rankInKeyOrder smallStore 40 27 → 1 ≤ ActiveSlots c ≤ 50) ∧
  len (rankInKeyOrder smallStore 40 27) ≤ active_users (GetStats smallStore 40) ∧
  len (rankInKeyOrder smallStore 40 27) ≤ 1000.
Proof.
  destruct smallStore_invariants as (Hreach & _).
  split; [exact Hreach|]. split; [exact (rankInKeyOrder_rank smallStore 40 27)|].
  exact (rank_entries_bounded zeroSalt smallStore 40 27 _ Hreach
           (rankInKeyOrder_rank smallStore 40 27)).
Defined.

Lemma GetStats_bounded_small :
  reachable zeroSalt smallStore ∧
  0 ≤ active_slots (GetStats smallStore 40) ≤ total_slots (GetStats smallStore 40) ∧
  total_slots (GetStats smallStore 40) ≤ max_global_slots (GetStats smallStore 40) ∧
  active_users (GetStats smallStore 40) ≤ total_slots (GetStats smallStore 40) ∧
  total_slots (GetStats smallStore 40)
  ≤ max_user_slots (GetStats smallStore 40) * active_users (GetStats smallStore 40).
Proof.
  destruct smallStore_invariants as (Hreach & _).
  split; [exact Hreach|]. exact (GetStats_bounded zeroSalt smallStore 40 Hreach).
Defined.

Lemma GetHighActiveUsers_threshold_small :
  1 ≤ 2 ∧
  GetHighActiveUsers smallStore 40 27 2 (atLeast 2 (rankInKeyOrder smallStore 40 27)) ∧
  (2 ≤ 1 → GetActiveTaskRank smallStore 40 27 (atLeast 2 (rankInKeyOrder smallStore 40 27))) ∧
  ∃ lower, GetHighActiveUsers smallStore 40 27 1 lower ∧
           atLeast 2 (rankInKeyOrder smallStore 40 27)
           = filter (fun c => 2 ≤ ActiveSlots c) lower.
Proof.
  assert (1 ≤ 2) as Hle by lia.
  pose proof (high_of_rank smallStore 40 27 2 _ (rankInKeyOrder_rank smallStore 40 27)) as Hhigh.
  split; [exact Hle|]. split; [exact Hhigh|].
  exact (GetHighActiveUsers_threshold smallStore 40 27 1 2 _ Hle Hhigh).
Defined.

Lemma isChatRequest_embedded_proxy :
  isChatRequest "/v1/messages" = true ∧
  isChatRequest ("/proxy" ++ "/v1/messages" ++ "/count_tokens") = true.
Proof.
  assert (isChatRequest "/v1/messages" = true) as H by (vm_compute; reflexivity).
  split; [exact H|]. exact (isChatRequest_embedded "/v1/messages" "/proxy" "/count_tokens" H).
Defined.

Lemma requests_keep_positive_owners_one :
  reachableByRequests zeroSalt requestStore ∧
  reachable zeroSalt requestStore ∧
  (∀ slot, slot ∈ slots requestStore → 0 < UserID slot) ∧
  ∃ m', RecordActiveTaskSlot zeroSalt requestStore 11 None 2 "bob" "gpt" = Some m' ∧
        (m' ≠ requestStore →
         0 < 2 ∧ ∃ gc, None = Some gc ∧ isChatRequest (requestPath gc) = true).
Proof.
  pose proof (requests_record zeroSalt newManager 10 (Some chatRequest) 1 "ann" "gpt"
                requestStore (requests_new zeroSalt) requestStore_run) as Hreq.
  split; [exact Hreq|].
  exact (requests_keep_positive_owners zeroSalt requestStore 11 None 2 "bob" "gpt" Hreq).
Defined.

Lemma scan_records_bounded_fifty :
  reachable zeroSalt fiftyStore ∧
  scanAndSaveHighActiveUsers (fun u => u =? 7) fiftyStore 150 151 fiftyScan ∧
  len fiftyScan ≤ 200 ∧
  NoDup (UserId <$> fiftyScan) ∧
  ∀ r, r ∈ fiftyScan →
    Id r = 0 ∧ (UserId r =? 7) = false ∧ WindowSecs r = 600 ∧ CreatedAt r = 151 ∧
    5 ≤ RecordActiveSlots r ≤ 50 ∧
    ∃ rank, GetActiveTaskRank fiftyStore 150 600 rank ∧
            mkCount (UserId r) (RecordUsername r) (RecordActiveSlots r) ∈ rank.
Proof.
  destruct fiftyStore_invariants as (Hreach & _).
  assert (GetHighActiveUsers fiftyStore 150 HighActiveTaskWindowSeconds HighActiveTaskThreshold
            fiftyHigh) as Hhigh.
  { unfold fiftyHigh. constructor. apply rankInKeyOrder_rank. }
  pose proof (scan_of_high (fun u => u =? 7) fiftyStore 150 151 fiftyHigh Hhigh) as Hscan.
  fold fiftyScan in Hscan.
  split; [exact Hreach|]. split; [exact Hscan|].
  exact (scan_records_bounded zeroSalt (fun u => u =? 7) fiftyStore 150 151 fiftyScan
           Hreach Hscan).
Defined.


Lemma AlignHourStartTs_start_of_hour_7300 :
  AlignHourStartTs 7300 mod 3600 = 0 ∧
  0 ≤ AlignHourStartTs 7300 ∧
  (7300 ≤ 0 → AlignHourStartTs 7300 = 0) ∧
  (0 < 7300 → AlignHourStartTs 7300 ≤ 7300 < AlignHourStartTs 7300 + 3600) ∧
  (AlignHourStartTs 7300 = 0 ↔ 7300 < 3600).
Proof. exact (AlignHourStartTs_start_of_hour 7300). Defined.

Lemma AlignHourStartTs_idempotent_monotone_7300 :
  7300 ≤ 10799 ∧
  AlignHourStartTs (AlignHourStartTs 7300) = AlignHourStartTs 7300 ∧
  AlignHourStartTs 7300 ≤ AlignHourStartTs 10799 ∧
  (AlignHourStartTs 7300 = AlignHourStartTs 10799 ↔ 7300 / 3600 = 10799 / 3600).
Proof.
  assert (7300 ≤ 10799) as Hle by lia.
  destruct (AlignHourStartTs_idempotent_monotone 7300 10799) as (Hi & Hm & Hs).
  split; [exact Hle|]. split; [exact Hi|]. split; [exact (Hm Hle)|].
  apply Hs; lia.
Defined.

Lemma recordEvents_aggregates_hour :
  len hourEvents < 2 ^ 63 ∧
  ((countedUnder (7200, 1) hourEvents = [] ∧ recordEvents ∅ hourEvents !! (7200, 1) = None) ∨
   ∃ l e,
     countedUnder (7200, 1) hourEvents = l ++ [e] ∧
     recordEvents ∅ hourEvents !! (7200, 1)
     = Some (mkAgg (EventUsername e) (len (l ++ [e]))
                   (len (filter (fun e => IsError e = false) (l ++ [e]))))).
Proof.
  assert (len hourEvents < 2 ^ 63) as Hlen by (vm_compute; reflexivity).
  split; [exact Hlen|]. exact (recordEvents_aggregates hourEvents (7200, 1) Hlen).
Defined.

Lemma buffer_entries_valid_hour :
  len hourEvents < 2 ^ 63 ∧
  recordEvents ∅ hourEvents !! (7200, 1) = Some (mkAgg "anna" 2 1) ∧
  (7200, 1).1 mod 3600 = 0 ∧ 3600 ≤ (7200, 1).1 ∧ 0 < (7200, 1).2 ∧
  1 ≤ TotalCalls (mkAgg "anna" 2 1) ≤ len hourEvents ∧
  0 ≤ SuccessCalls (mkAgg "anna" 2 1) ≤ TotalCalls (mkAgg "anna" 2 1).
Proof.
  assert (len hourEvents < 2 ^ 63) as Hlen by (vm_compute; reflexivity).
  assert (recordEvents ∅ hourEvents !! (7200, 1) = Some (mkAgg "anna" 2 1)) as Hk
    by (vm_compute; reflexivity).
  split; [exact Hlen|]. split; [exact Hk|].
  exact (buffer_entries_valid hourEvents (7200, 1) _ Hlen Hk).
Defined.

Lemma event_left_out_iff_user_zero :
  leftOut (Some (mkEvent 0 "nobody" 7300 false)) ∧
  (RecordUserCallHourlyEventAsync (recordEvents ∅ hourEvents)
     (Some (mkEvent 0 "nobody" 7300 false))).1 = recordEvents ∅ hourEvents ∧
  (RecordUserCallHourlyEventAsync (recordEvents ∅ hourEvents)
     (Some (mkEvent 0 "nobody" 7300 false))).2 = false.
Proof.
  assert (leftOut (Some (mkEvent 0 "nobody" 7300 false))) as Hleft by (right; simpl; lia).
  destruct (event_left_out_iff (recordEvents ∅ hourEvents)
              (Some (mkEvent 0 "nobody" 7300 false))) as [Hiff Hflush].
  split; [exact Hleft|]. split; [exact (proj2 Hiff Hleft)|exact (Hflush Hleft)].
Defined.

Lemma counts_order_independent_hour :
  hourEvents ≡ₚ reverse hourEvents ∧
  (fun agg => (TotalCalls agg, SuccessCalls agg)) <$> (recordEvents ∅ hourEvents !! (7200, 1))
  = (fun agg => (TotalCalls agg, SuccessCalls agg))
      <$> (recordEvents ∅ (reverse hourEvents) !! (7200, 1)).
Proof.
  assert (hourEvents ≡ₚ reverse hourEvents) as H by (symmetry; apply reverse_Permutation).
  split; [exact H|]. exact (counts_order_independent hourEvents _ (7200, 1) H).
Defined.

Lemma batchUpsertUserCallHourly_batches_hour :
  batchUpsertUserCallHourly false (recordEvents ∅ hourEvents) hourBatches ∧
  concat hourBatches ≡ₚ rowOf <$> map_to_list (recordEvents ∅ hourEvents) ∧
  NoDup (rowKey <$> concat hourBatches) ∧
  Forall (fun batch => (1 ≤ length batch ≤ 100)%nat) hourBatches ∧
  (∀ j batch, hourBatches !! j = Some batch → (S j < length hourBatches)%nat →
     length batch = 100%nat).
Proof.
  assert (size (recordEvents ∅ hourEvents) ≠ 0%nat) as Hsize by (vm_compute; discriminate).
  pose proof (upsert_batches false (recordEvents ∅ hourEvents)
                (map_to_list (recordEvents ∅ hourEvents)) eq_refl Hsize
                (reflexivity _)) as Hb.
  split; [exact Hb|].
  exact (batchUpsertUserCallHourly_batches (recordEvents ∅ hourEvents) _ Hb).
Defined.

Lemma flush_accounts_for_calls_hour :
  len hourEvents < 2 ^ 63 ∧
  (flushUserCallHourlyBuffer (recordEvents ∅ hourEvents)).1 = ∅ ∧
  match (flushUserCallHourlyBuffer (recordEvents ∅ hourEvents)).2 with
  | None => Forall leftOut hourEvents
  | Some old =>
      ¬ Forall leftOut hourEvents ∧
      ∀ dbIsNil batches, batchUpsertUserCallHourly dbIsNil old batches →
        if dbIsNil then batches = [] ∧ 0 < len (filter (fun ev => ¬ leftOut ev) hourEvents)
        else totalCalls (concat batches) = len (filter (fun ev => ¬ leftOut ev) hourEvents)
  end.
Proof.
  assert (len hourEvents < 2 ^ 63) as Hlen by (vm_compute; reflexivity).
  split; [exact Hlen|]. exact (flush_accounts_for_calls hourEvents Hlen).
Defined.

(** ** The operations on the index structures *)

Lemma removeFirst_filter idx (l : list nat) :
  filter (fun j => j ≠ idx) (removeFirst idx l) = filter (fun j => j ≠ idx) l.
Proof.
  induction l as [|v l IH]; [done|]. cbn [removeFirst].
  destruct (decide (v = idx)) as [->|Hne].
  - by rewrite filter_cons_False by (intros H; by apply H).
  - by rewrite !filter_cons_True, IH by done.
Qed.

(** X25. [moveToLRUEnd] leaves the cells and the lists of the users as
    they are and puts [idx] last in the LRU order. An index of the order
    is moved, so the order keeps its entries; an index that is not in
    the order is added. The other indices keep their relative order, and
    on an order without repetition moving the same index again changes
    nothing. *)
Theorem moveToLRUEnd_moves m idx :
  slots (moveToLRUEnd m idx) = slots m ∧
  userSlotIdx (moveToLRUEnd m idx) = userSlotIdx m ∧
  last (lruOrder (moveToLRUEnd m idx)) = Some idx ∧
  (idx ∈ lruOrder m → lruOrder (moveToLRUEnd m idx) ≡ₚ lruOrder m) ∧
  (idx ∉ lruOrder m → lruOrder (moveToLRUEnd m idx) = lruOrder m ++ [idx]) ∧
  filter (fun j => j ≠ idx) (lruOrder (moveToLRUEnd m idx))
  = filter (fun j => j ≠ idx) (lruOrder m) ∧
  (NoDup (lruOrder m) →
   NoDup (lruOrder (moveToLRUEnd m idx)) ∧
   moveToLRUEnd (moveToLRUEnd m idx) idx = moveToLRUEnd m idx).
Proof.
  unfold moveToLRUEnd. cbn [slots userSlotIdx lruOrder].
  split; [done|]. split; [done|]. split; [apply last_snoc|]. split; [|split; [|split]].
  - intros Hin. rewrite (removeFirst_perm idx (lruOrder m) Hin) at 2.
    by rewrite Permutation_app_comm.
  - intros Hn. by rewrite removeFirst_notin.
  - rewrite filter_app, removeFirst_filter, filter_cons_False by (intros H; by apply H).
    by rewrite filter_nil, app_nil_r.
  - intros Hnd. split; [by apply moved_NoDup|]. f_equal.
    rewrite removeFirst_last; [done|].
    intros Hin. apply elem_of_removeFirst in Hin as [_ Hne]; done.
Qed.

Lemma removeFirst_first idx (before after : list nat) :
  idx ∉ before → removeFirst idx (before ++ idx :: after) = before ++ after.
Proof.
  induction before as [|v before IH]; intros Hn; cbn [app removeFirst].
  - by rewrite decide_True.
  - apply not_elem_of_cons in Hn as [Hne Hn]. rewrite decide_False by done.
    by rewrite IH.
Qed.

Lemma removeFromUserSlotIdx_lookup m userID idx :
  (∀ u, u ≠ userID →
        userSlotIdx (removeFromUserSlotIdx m userID idx) !! u = userSlotIdx m !! u) ∧
  userSlotIdx (removeFromUserSlotIdx m userID idx) !! userID
  = (if decide (removeFirst idx (userSlotsOf m userID) = []) then None
     else Some (removeFirst idx (userSlotsOf m userID))) ∧
  (idx ∉ userSlotsOf m userID → userSlotsOf m userID ≠ [] →
   userSlotIdx (removeFromUserSlotIdx m userID idx) = userSlotIdx m).
Proof.
  unfold removeFromUserSlotIdx, userSlotsOf, len. cbn [userSlotIdx].
  destruct (bool_decide_reflect (idx ∈ default [] (userSlotIdx m !! userID))) as [Hin|Hn].
  - rewrite lookup_insert_eq. cbn [default from_option id].
    destruct (removeFirst idx (default [] (userSlotIdx m !! userID))) as [|j rest] eqn:Hrem.
    + cbn [length]. change (Z.of_nat 0 =? 0) with true. cbv iota.
      split; [|split].
      * intros u Hu. by rewrite lookup_delete_ne, lookup_insert_ne by done.
      * rewrite decide_True by done. apply lookup_delete_eq.
      * done.
    + replace (Z.of_nat (length (j :: rest)) =? 0) with false
        by (symmetry; apply Z.eqb_neq; cbn [length]; lia).
      split; [|split].
      * intros u Hu. by rewrite lookup_insert_ne by done.
      * rewrite decide_False by done. apply lookup_insert_eq.
      * done.
  - rewrite (removeFirst_notin idx _ Hn).
    destruct (userSlotIdx m !! userID) as [[|j rest]|] eqn:Hk; cbn [default from_option id length].
    + change (Z.of_nat 0 =? 0) with true. cbv iota. split; [|split].
      * intros u Hu. by rewrite lookup_delete_ne by done.
      * rewrite decide_True by done. apply lookup_delete_eq.
      * done.
    + replace (Z.of_nat (S (length rest)) =? 0) with false
        by (symmetry; apply Z.eqb_neq; lia).
      split; [done|]. split; [by rewrite decide_False|done].
    + change (Z.of_nat 0 =? 0) with true. cbv iota. split; [|split].
      * intros u Hu. by rewrite lookup_delete_ne by done.
      * rewrite decide_True by done. apply lookup_delete_eq.
      * done.
Qed.

(** X26. [removeFromUserSlotIdx] leaves the cells, the LRU order and the
    lists of the other users as they are, and never leaves the user with
    an empty list. Without [idx] in it the list of the user stays as it
    is. Otherwise the list loses the first occurrence of [idx]: what was
    before it and what was after it stay, in their order; when nothing
    is left, the user has no key afterwards. *)
Theorem removeFromUserSlotIdx_effect m userID idx :
  slots (removeFromUserSlotIdx m userID idx) = slots m ∧
  lruOrder (removeFromUserSlotIdx m userID idx) = lruOrder m ∧
  (∀ u, u ≠ userID →
        userSlotIdx (removeFromUserSlotIdx m userID idx) !! u = userSlotIdx m !! u) ∧
  userSlotIdx (removeFromUserSlotIdx m userID idx) !! userID ≠ Some [] ∧
  (idx ∉ userSlotsOf m userID →
   userSlotsOf (removeFromUserSlotIdx m userID idx) userID = userSlotsOf m userID ∧
   (userSlotsOf m userID ≠ [] →
    userSlotIdx (removeFromUserSlotIdx m userID idx) = userSlotIdx m)) ∧
  (∀ before after,
     userSlotsOf m userID = before ++ idx :: after → idx ∉ before →
     userSlotsOf (removeFromUserSlotIdx m userID idx) userID = before ++ after ∧
     (userSlotIdx (removeFromUserSlotIdx m userID idx) !! userID = None ↔
      before ++ after = [])).
Proof.
  destruct (removeFromUserSlotIdx_lookup m userID idx) as (Hother & Hkey & Hsame).
  split; [done|]. split; [done|]. split; [exact Hother|]. split; [|split].
  - rewrite Hkey. destruct (decide (removeFirst idx (userSlotsOf m userID) = [])); [done|].
    congruence.
  - intros Hn. split; [|by apply Hsame].
    by rewrite userSlotsOf_remove, decide_True, removeFirst_notin.
  - intros before after Hl Hb.
    rewrite userSlotsOf_remove, decide_True by done.
    rewrite Hkey, Hl, removeFirst_first by done. split; [done|].
    destruct (decide (before ++ after = [])); [done|]. split; [done|]. done.
Qed.

(** X27. On a consistent store [reuseSlot] fails exactly for an index
    beyond the cells. Otherwise the store stays consistent and of the
    same size, the cell [idx] holds the new owner, name, reading and
    fingerprint, every other cell is as it was, and [idx] is last in an
    LRU order that keeps its entries. The new owner has one cell more
    and the old owner one less, unless they are the same. *)
Theorem reuseSlot_consistent m idx newUserID username now newHash :
  indexConsistent m →
  (reuseSlot m idx newUserID username now newHash = None ↔ (length (slots m) ≤ idx)%nat) ∧
  ∀ old m',
    slots m !! idx = Some old →
    reuseSlot m idx newUserID username now newHash = Some m' →
    indexConsistent m' ∧
    slots m' = <[idx := mkTaskSlot newUserID username now newHash]> (slots m) ∧
    last (lruOrder m') = Some idx ∧ lruOrder m' ≡ₚ lruOrder m ∧
    (∀ u, userSlotsOf m' u
          = if decide (UserID old = newUserID) then userSlotsOf m u
            else if decide (newUserID = u) then userSlotsOf m u ++ [idx]
            else if decide (UserID old = u) then removeFirst idx (userSlotsOf m u)
            else userSlotsOf m u).
Proof.
  intros Hc. split.
  - unfold reuseSlot. destruct (slots m !! idx) as [old|] eqn:Hold; simpl.
    + apply lookup_lt_Some in Hold. split; [done|lia].
    + apply lookup_ge_None in Hold. done.
  - intros old m' Hold Hrun.
    assert (idx ∈ lruOrder m) as Hin
      by (apply (lru_iff_allocated m Hc); by eapply lookup_lt_Some).
    assert (removeFirst idx (lruOrder m) ++ [idx] ≡ₚ lruOrder m) as Hperm.
    { rewrite (removeFirst_perm idx (lruOrder m) Hin) at 2. by rewrite Permutation_app_comm. }
    destruct (decide (UserID old = newUserID)) as [<-|Hne].
    + rewrite (reuseSlot_own _ _ _ _ _ _ Hold) in Hrun. injection Hrun as <-.
      split; [by apply (overwritten_consistent m idx old)|]. split; [done|].
      split; [apply last_snoc|]. split; [done|].
      done.
    + rewrite (reuseSlot_other _ _ _ _ _ _ _ Hold Hne) in Hrun. injection Hrun as <-.
      split; [by apply (transferred_consistent m idx old newUserID)|]. split; [done|].
      split; [apply last_snoc|]. split; [done|].
      intros u. change (userSlotsOf (overwritten ?m0 _ _) u) with (userSlotsOf m0 u).
      rewrite userSlotsOf_transferred by done.
      destruct (decide (newUserID = u)) as [<-|]; [done|].
      by destruct (decide (UserID old = u)) as [<-|].
Qed.

Lemma moveToLRUEnd_moves_small :
  NoDup (lruOrder smallStore) ∧ 0%nat ∈ lruOrder smallStore ∧
  last (lruOrder (moveToLRUEnd smallStore 0)) = Some 0%nat ∧
  lruOrder (moveToLRUEnd smallStore 0) ≡ₚ lruOrder smallStore ∧
  NoDup (lruOrder (moveToLRUEnd smallStore 0)) ∧
  moveToLRUEnd (moveToLRUEnd smallStore 0) 0 = moveToLRUEnd smallStore 0.
Proof.
  destruct smallStore_invariants as (_ & Hc & _).
  pose proof (lru_once smallStore Hc) as Hnd.
  assert (0%nat ∈ lruOrder smallStore) as Hin.
  { apply (lru_iff_allocated smallStore Hc). vm_compute. lia. }
  destruct (moveToLRUEnd_moves smallStore 0) as (_ & _ & Hlast & Hperm & _ & _ & Hmoved).
  split; [exact Hnd|]. split; [exact Hin|]. split; [exact Hlast|].
  split; [exact (Hperm Hin)|]. exact (Hmoved Hnd).
Defined.

Lemma removeFromUserSlotIdx_effect_small :
  userSlotsOf smallStore 1 = [] ++ 0%nat :: [1%nat] ∧
  userSlotsOf smallStore 2 = [] ++ 2%nat :: [] ∧
  userSlotsOf (removeFromUserSlotIdx smallStore 1 0) 1 = [] ++ [1%nat] ∧
  (userSlotIdx (removeFromUserSlotIdx smallStore 1 0) !! 1 = None ↔ [] ++ [1%nat] = []) ∧
  userSlotsOf (removeFromUserSlotIdx smallStore 2 2) 2 = [] ++ [] ∧
  (userSlotIdx (removeFromUserSlotIdx smallStore 2 2) !! 2 = None ↔ [] ++ [] = @nil nat) ∧
  slots (removeFromUserSlotIdx smallStore 2 2) = slots smallStore ∧
  lruOrder (removeFromUserSlotIdx smallStore 2 2) = lruOrder smallStore ∧
  (∀ u, u ≠ 2 →
        userSlotIdx (removeFromUserSlotIdx smallStore 2 2) !! u = userSlotIdx smallStore !! u) ∧
  userSlotIdx (removeFromUserSlotIdx smallStore 2 2) !! 2 ≠ Some [] ∧
  userSlotsOf (removeFromUserSlotIdx smallStore 2 7) 2 = userSlotsOf smallStore 2.
Proof.
  assert (userSlotsOf smallStore 1 = [] ++ 0%nat :: [1%nat]) as H1 by (vm_compute; reflexivity).
  assert (userSlotsOf smallStore 2 = [] ++ 2%nat :: []) as H2 by (vm_compute; reflexivity).
  assert (7%nat ∉ userSlotsOf smallStore 2) as H7.
  { rewrite H2. cbn [app]. intros [?|?%elem_of_nil]%elem_of_cons; done. }
  assert (∀ i : nat, i ∉ @nil nat) as Hnil by (intros i ?%elem_of_nil; done).
  destruct (removeFromUserSlotIdx_effect smallStore 1 0) as (_ & _ & _ & _ & _ & Hfirst).
  destruct (removeFromUserSlotIdx_effect smallStore 2 2)
    as (Hslots & Hlru & Hother & Hne & _ & Honly).
  destruct (removeFromUserSlotIdx_effect smallStore 2 7) as (_ & _ & _ & _ & Habsent & _).
  split; [exact H1|]. split; [exact H2|].
  split; [exact (proj1 (Hfirst [] [1%nat] H1 (Hnil _)))|].
  split; [exact (proj2 (Hfirst [] [1%nat] H1 (Hnil _)))|].
  split; [exact (proj1 (Honly [] [] H2 (Hnil _)))|].
  split; [exact (proj2 (Honly [] [] H2 (Hnil _)))|].
  split; [exact Hslots|]. split; [exact Hlru|]. split; [exact Hother|]. split; [exact Hne|].
  exact (proj1 (Habsent H7)).
Defined.

Lemma reuseSlot_consistent_small :
  indexConsistent smallStore ∧
  (reuseSlot smallStore 2 1 "ann" 20 7 = None ↔ (length (slots smallStore) ≤ 2)%nat) ∧
  ∀ old m',
    slots smallStore !! 2%nat = Some old →
    reuseSlot smallStore 2 1 "ann" 20 7 = Some m' →
    indexConsistent m' ∧
    slots m' = <[2%nat := mkTaskSlot 1 "ann" 20 7]> (slots smallStore) ∧
    last (lruOrder m') = Some 2%nat ∧ lruOrder m' ≡ₚ lruOrder smallStore ∧
    (∀ u, userSlotsOf m' u
          = if decide (UserID old = 1) then userSlotsOf smallStore u
            else if decide (1 = u) then userSlotsOf smallStore u ++ [2%nat]
            else if decide (UserID old = u) then removeFirst 2 (userSlotsOf smallStore u)
            else userSlotsOf smallStore u).
Proof.
  destruct smallStore_invariants as (_ & Hc & _).
  split; [exact Hc|]. exact (reuseSlot_consistent smallStore 2 1 "ann" 20 7 Hc).
Defined.

Section IsolationExtras.
Context (salt : string).

(** X28. A call takes nothing from another user unless the store is full
    and the caller is below the bound of a user: otherwise every cell of
    another user and the list of every other user are as they were. *)
Theorem RecordTask_spares_other_users m now userID username data m' :
  indexConsistent m →
  RecordTask salt m now userID username data = Some m' →
  len (slots m) < MaxGlobalSlots ∨ MaxUserSlots ≤ len (userSlotsOf m userID) →
  (∀ idx slot, slots m !! idx = Some slot → UserID slot ≠ userID →
               slots m' !! idx = Some slot) ∧
  (∀ u, u ≠ userID → userSlotIdx m' !! u = userSlotIdx m !! u).
Proof.
  intros Hc Hrun Hroom.
  pose proof (RecordTask_deterministic_recorded _ _ _ _ _ _ _ Hc Hrun) as Hrec.
  assert (∀ idx old, slots m !! idx = Some old → UserID old = userID →
            ∀ j slot, slots m !! j = Some slot → UserID slot ≠ userID →
              <[idx := mkTaskSlot userID username now (simhash64 salt data)]> (slots m) !! j
              = Some slot) as Hown.
  { intros idx old Hold Hu j slot Hj Hne.
    rewrite list_lookup_insert_ne; [done|]. intros ->. congruence. }
  destruct Hrec as [idx old _ Hold Hu|idx old _ _ _ Hold Hu|idx rest old _ _ _ _ Hold Hu
                   |idx rest old _ Hbelow Hfull _ _ _|_ _ _].
  - split; [by apply (Hown idx old)|done].
  - split; [by apply (Hown idx old)|done].
  - split; [by apply (Hown idx old)|done].
  - lia.
  - split.
    + intros j slot Hj _. cbn [allocate slots]. rewrite lookup_app_l; [done|].
      by eapply lookup_lt_Some.
    + intros u Hu. cbn [allocate userSlotIdx]. by rewrite lookup_insert_ne.
Qed.

End IsolationExtras.

Lemma RecordTask_spares_other_users_small :
  indexConsistent smallStore ∧
  RecordTask zeroSalt smallStore 20 3 "cy" "alpha beta" = Some thirdStore ∧
  len (slots smallStore) < MaxGlobalSlots ∧
  (∀ idx slot, slots smallStore !! idx = Some slot → UserID slot ≠ 3 →
               slots thirdStore !! idx = Some slot) ∧
  (∀ u, u ≠ 3 → userSlotIdx thirdStore !! u = userSlotIdx smallStore !! u).
Proof.
  destruct smallStore_invariants as (_ & Hc & _).
  assert (len (slots smallStore) < MaxGlobalSlots) as Hroom by (vm_compute; reflexivity).
  split; [exact Hc|]. split; [exact thirdStore_run|]. split; [exact Hroom|].
  exact (RecordTask_spares_other_users zeroSalt smallStore 20 3 "cy" "alpha beta" thirdStore
           Hc thirdStore_run (or_introl Hroom)).
Defined.
